(** * lockfree::RingBuffer<T, Capacity>: a shallow embedding

    Source: [include/lockfree/ring_buffer.hpp].

    The class is a template over an element type [T] and a compile-time
    [Capacity].  It holds two [std::size_t] indices and a [std::array] of
    [Capacity] slots.  The embedding keeps that shape:

    - a [std::size_t] is a [Z] with the wrap-around modulo [2^64] written
      out ([wrap]); the index mask is applied with [Z.land] as in the code;
    - the storage is a [list T] read with [!!] and updated with [<[_:=_]>];
      [std::array::operator[]] has no bounds check, an access outside the
      array is reported as [Undefined];
    - [T] is known to the class only through copy assignment, move
      assignment and move construction, each of which may raise (the
      member functions are [noexcept] only under the matching
      [std::is_nothrow_..._v<T>]); they form the [Element] interface.
      Whether an operation raises may depend on the rest of the program
      state, the allocator first of all, so the operations take that
      state, the [world], and hand it back;
    - every member function is a function from the world and the buffer
      before the call to an [outcome], the buffer and the world after it.

    The atomics are modelled by their values.  The member functions come
    first as functions of one whole call, then as the steps each of them
    takes, with one producer and one consumer taking steps in any order
    on one shared memory; the memory orders of the loads and stores
    appear as comments only.

    The callers of the class in [tests/ring_buffer_test.cpp] and
    [benchmarks/benchmark.cpp] follow: the loops they run around the
    member functions, and the threads of the "SPSC Correctness" test and
    of the throughput test, step by step.  The relaxed loads of the
    stop flag of the throughput test may return the value the flag had
    before the latest store. *)

From stdpp Require Import base numbers list strings.
From Stdlib Require Import ZArith Lia.

Local Open Scope Z_scope.

(** ** [std::size_t] arithmetic *)

Definition size_t_bits : Z := 64.
Definition size_t_modulus : Z := 2 ^ size_t_bits.

(** Unsigned arithmetic is modulo [2^64]. *)
Definition wrap (x : Z) : Z := x mod size_t_modulus.

(** ** The element type *)

(** How one of [T]'s operations ends: it completes with a result, or it
    raises and leaves the objects it was working on in some state. *)
Inductive completion (A E : Type) : Type :=
| Done (a : A)
| Raised (e : E).
Arguments Done {A E} a.
Arguments Raised {A E} e.

(** The operations of [T] that the ring buffer calls, each in a world
    [w] and returning the world it leaves.

    - [copy_assign w dst src] is [dst = src]: the new [dst], or, when the
      assignment raises, the state [dst] is left in;
    - [move_assign w dst src] is [dst = std::move(src)]: the new [dst]
      and the moved-from [src];
    - [move_construct w src] is [T(std::move(src))]: the new object and
      the moved-from [src]; when it raises no object exists, only the
      state of [src] remains.

    [T] is a value type: an operation that completes transfers the value
    of its source.  Nothing is asked of an operation that raises. *)
Class Element (T : Type) : Type := {
  world : Type;
  copy_assign : world -> T -> T -> completion T T * world;
  move_assign : world -> T -> T -> completion (T * T) (T * T) * world;
  move_construct : world -> T -> completion (T * T) T * world;
  copy_assign_value : forall w dst src dst' w',
    copy_assign w dst src = (Done dst', w') -> dst' = src;
  move_assign_value : forall w dst src dst' src' w',
    move_assign w dst src = (Done (dst', src'), w') -> dst' = src;
  move_construct_value : forall w src item src' w',
    move_construct w src = (Done (item, src'), w') -> item = src
}.

(** [std::is_nothrow_copy_assignable_v<T>] and its siblings, the
    conditions of the [noexcept] specifiers. *)
Definition is_nothrow_copy_assignable (T : Type) `{Element T} : Prop :=
  forall w dst src, exists dst' w', copy_assign w dst src = (Done dst', w').
Definition is_nothrow_move_assignable (T : Type) `{Element T} : Prop :=
  forall w dst src, exists r w', move_assign w dst src = (Done r, w').
Definition is_nothrow_move_constructible (T : Type) `{Element T} : Prop :=
  forall w src, exists r w', move_construct w src = (Done r, w').

(** ** Outcome of a member function call *)

Inductive outcome (R : Type) : Type :=
| Returns (r : R)   (* the call returned [r] *)
| Raises            (* an operation of [T] raised; the error propagates *)
| Undefined.        (* a slot outside the array was accessed *)
Arguments Returns {R} r.
Arguments Raises {R}.
Arguments Undefined {R}.

(** ** The class *)

Record RingBuffer (T : Type) : Type := mkRingBuffer {
  head_ : Z;            (* consumer index *)
  tail_ : Z;            (* producer index *)
  buffer_ : list T      (* std::array<T, Capacity> *)
}.
Arguments mkRingBuffer {T} head_ tail_ buffer_.
Arguments head_ {T} r.
Arguments tail_ {T} r.
Arguments buffer_ {T} r.

(** What a call leaves behind: how it ended, the buffer and the world. *)
Record after (R T W : Type) : Type := mkAfter {
  returned : outcome R;
  object : RingBuffer T;
  world_after : W
}.
Arguments mkAfter {R T W} returned object world_after.
Arguments returned {R T W} a.
Arguments object {R T W} a.
Arguments world_after {R T W} a.

(** The [static_assert] on [Capacity], a [std::size_t] template argument. *)
Definition static_assert_capacity (Capacity : Z) : bool :=
  (Z.land Capacity (wrap (Capacity - 1)) =? 0) && (Capacity >? 1).

Definition valid_capacity (Capacity : Z) : Prop :=
  0 <= Capacity < size_t_modulus /\ static_assert_capacity Capacity = true.

Section RingBuffer.
Variable Capacity : Z.
Context {T : Type} `{Element T}.

Definition kIndexMask : Z := wrap (Capacity - 1).

(** [RingBuffer() = default]: both indices are zero; the slots hold
    whatever default initialisation of [T] leaves there. *)
Definition RingBuffer_new (slots : list T) : RingBuffer T :=
  mkRingBuffer 0 0 slots.

(** [bool try_push(const T& item)] *)
Definition try_push (w : world) (rb : RingBuffer T) (item : T)
  : after bool T world :=
  let current_tail := tail_ rb in
  let next_tail := Z.land (wrap (current_tail + 1)) kIndexMask in
  if next_tail =? head_ rb then mkAfter (Returns false) rb w
  else
    match buffer_ rb !! Z.to_nat current_tail with
    | None => mkAfter Undefined rb w
    | Some slot =>
        (* buffer_[current_tail] = item; *)
        match copy_assign w slot item with
        | (Raised slot', w') =>
            mkAfter Raises
              (mkRingBuffer (head_ rb) (tail_ rb)
                 (<[Z.to_nat current_tail := slot']> (buffer_ rb)))
              w'
        | (Done slot', w') =>
            (* tail_.store(next_tail, release); return true; *)
            mkAfter (Returns true)
              (mkRingBuffer (head_ rb) next_tail
                 (<[Z.to_nat current_tail := slot']> (buffer_ rb)))
              w'
        end
    end.

(** [bool try_push(T&& item)]; the second component is the caller's
    [item] after the call. *)
Definition try_push_move (w : world) (rb : RingBuffer T) (item : T)
  : after bool T world * T :=
  let current_tail := tail_ rb in
  let next_tail := Z.land (wrap (current_tail + 1)) kIndexMask in
  if next_tail =? head_ rb then (mkAfter (Returns false) rb w, item)
  else
    match buffer_ rb !! Z.to_nat current_tail with
    | None => (mkAfter Undefined rb w, item)
    | Some slot =>
        (* buffer_[current_tail] = std::move(item); *)
        match move_assign w slot item with
        | (Raised (slot', item'), w') =>
            (mkAfter Raises
               (mkRingBuffer (head_ rb) (tail_ rb)
                  (<[Z.to_nat current_tail := slot']> (buffer_ rb)))
               w',
             item')
        | (Done (slot', item'), w') =>
            (* tail_.store(next_tail, release); return true; *)
            (mkAfter (Returns true)
               (mkRingBuffer (head_ rb) next_tail
                  (<[Z.to_nat current_tail := slot']> (buffer_ rb)))
               w',
             item')
        end
    end.

(** [std::optional<T> try_pop()].  The function returns a
    [std::optional<T>] and its [return] statement names the local [item]
    of type [T]: the returned object is built from [item] by a second
    move construction, after the store to [head_]. *)
Definition try_pop (w : world) (rb : RingBuffer T)
  : after (option T) T world :=
  let current_head := head_ rb in
  if current_head =? tail_ rb then mkAfter (Returns None) rb w
  else
    match buffer_ rb !! Z.to_nat current_head with
    | None => mkAfter Undefined rb w
    | Some slot =>
        (* T item = std::move(buffer_[current_head]); *)
        match move_construct w slot with
        | (Raised slot', w1) =>
            mkAfter Raises
              (mkRingBuffer (head_ rb) (tail_ rb)
                 (<[Z.to_nat current_head := slot']> (buffer_ rb)))
              w1
        | (Done (item, slot'), w1) =>
            (* head_.store((current_head + 1) & kIndexMask, release); *)
            let published :=
              mkRingBuffer (Z.land (wrap (current_head + 1)) kIndexMask)
                (tail_ rb)
                (<[Z.to_nat current_head := slot']> (buffer_ rb)) in
            (* return item; *)
            match move_construct w1 item with
            | (Raised _, w2) => mkAfter Raises published w2
            | (Done (value, _), w2) =>
                mkAfter (Returns (Some value)) published w2
            end
        end
    end.

(** [bool empty() const] *)
Definition empty (rb : RingBuffer T) : bool := head_ rb =? tail_ rb.

(** [bool full() const] *)
Definition full (rb : RingBuffer T) : bool :=
  let next_tail := Z.land (wrap (tail_ rb + 1)) kIndexMask in
  next_tail =? head_ rb.

(** [size_type size() const] *)
Definition size (rb : RingBuffer T) : Z :=
  let head := head_ rb in
  let tail := tail_ rb in
  Z.land (wrap (tail - head)) kIndexMask.

(** [static constexpr size_type capacity()] *)
Definition capacity : Z := wrap (Capacity - 1).

(** [static constexpr size_type buffer_size()] *)
Definition buffer_size : Z := Capacity.

End RingBuffer.

(** ** Sequences of calls *)

(** One call made by the producer or by the consumer. *)
Inductive call (T : Type) : Type :=
| PushCopy (item : T)     (* try_push(const T&) *)
| PushMove (item : T)     (* try_push(T&&) *)
| Pop.                    (* try_pop() *)
Arguments PushCopy {T} item.
Arguments PushMove {T} item.
Arguments Pop {T}.

(** What the two callers have seen so far: the values whose [try_push]
    returned [true], and the values returned by [try_pop], both in call
    order. *)
Record history (T : Type) : Type := mkHistory {
  accepted : list T;
  popped : list T
}.
Arguments mkHistory {T} accepted popped.
Arguments accepted {T} h.
Arguments popped {T} h.

Definition log_push {T : Type} (o : outcome bool) (item : T) (h : history T)
  : history T :=
  match o with
  | Returns true => mkHistory (accepted h ++ [item]) (popped h)
  | _ => h
  end.

Definition log_pop {T : Type} (o : outcome (option T)) (h : history T)
  : history T :=
  match o with
  | Returns (Some v) => mkHistory (accepted h) (popped h ++ [v])
  | _ => h
  end.

(** A program that makes calls one after the other: the buffer, what the
    callers have seen, the world. *)
Record execution (T W : Type) : Type := mkExecution {
  exec_buffer : RingBuffer T;
  exec_history : history T;
  exec_world : W
}.
Arguments mkExecution {T W} exec_buffer exec_history exec_world.
Arguments exec_buffer {T W} e.
Arguments exec_history {T W} e.
Arguments exec_world {T W} e.

Section Calls.
Variable Capacity : Z.
Context {T : Type} `{Element T}.

Definition step (e : execution T world) (c : call T) : execution T world :=
  match c with
  | PushCopy item =>
      let r := try_push Capacity (exec_world e) (exec_buffer e) item in
      mkExecution (object r) (log_push (returned r) item (exec_history e))
        (world_after r)
  | PushMove item =>
      let r := fst (try_push_move Capacity (exec_world e) (exec_buffer e) item) in
      mkExecution (object r) (log_push (returned r) item (exec_history e))
        (world_after r)
  | Pop =>
      let r := try_pop Capacity (exec_world e) (exec_buffer e) in
      mkExecution (object r) (log_pop (returned r) (exec_history e))
        (world_after r)
  end.

Definition run (calls : list (call T)) (e : execution T world)
  : execution T world :=
  fold_left step calls e.

(** A run that starts from a freshly constructed buffer. *)
Definition run_new (w : world) (slots : list T) (calls : list (call T))
  : execution T world :=
  run calls (mkExecution (RingBuffer_new slots) (mkHistory [] []) w).

(** The states the class can be in: the constructed one and whatever
    the three mutating member functions leave behind, in any world. *)
Inductive reachable : RingBuffer T -> Prop :=
| reachable_new slots :
    length slots = Z.to_nat Capacity ->
    reachable (RingBuffer_new slots)
| reachable_try_push w rb item :
    reachable rb -> reachable (object (try_push Capacity w rb item))
| reachable_try_push_move w rb item :
    reachable rb ->
    reachable (object (fst (try_push_move Capacity w rb item)))
| reachable_try_pop w rb :
    reachable rb -> reachable (object (try_pop Capacity w rb)).

(** Indices inside the array, array of [Capacity] slots. *)
Definition well_formed (rb : RingBuffer T) : Prop :=
  0 <= head_ rb < Capacity /\ 0 <= tail_ rb < Capacity /\
  length (buffer_ rb) = Z.to_nat Capacity.

(** The [n] slots starting at index [i], following the index the way
    [try_pop] advances it. *)
Fixpoint live_from (buf : list T) (i : Z) (n : nat) : list T :=
  match n with
  | O => []
  | S n' =>
      match buf !! Z.to_nat i with
      | Some v =>
          v :: live_from buf (Z.land (wrap (i + 1)) (kIndexMask Capacity)) n'
      | None => []
      end
  end.

(** The live elements, oldest first: the slots from [head_] up to, not
    including, [tail_]. *)
Definition contents (rb : RingBuffer T) : list T :=
  live_from (buffer_ rb) (head_ rb) (Z.to_nat (size Capacity rb)).



End Calls.

(** The wrap-around test of the suite: [cycles] rounds, each pushing
    [per_cycle] consecutive numbers and then popping as many.  The
    counters and the numbers are [int]s in the test; the arithmetic
    below is the test's where every number fits one, which
    [wraparound_fits_int] says (an [int] of thirty-two bits; beyond it
    the test's multiplication overflows, which is undefined). *)
Definition INT_MAX : Z := 2 ^ 31 - 1.

Definition wraparound_fits_int (cycles per_cycle : nat) : Prop :=
  Z.of_nat cycles <= INT_MAX /\
  Z.of_nat per_cycle <= INT_MAX /\
  Z.of_nat cycles * Z.of_nat per_cycle <= INT_MAX.

Definition cycle_calls (per_cycle : nat) (cycle : nat) : list (call Z) :=
  map (fun i => PushCopy (Z.of_nat (cycle * per_cycle + i))) (seq 0 per_cycle)
  ++ repeat Pop per_cycle.

Definition wraparound_calls (cycles per_cycle : nat) : list (call Z) :=
  concat (map (cycle_calls per_cycle) (seq 0 cycles)).

(** ** One producer and one consumer, step by step

    The two threads do not call the member functions one after the
    other: the calls overlap.  [try_push] is four steps: the relaxed load
    of [tail_], the acquire load of [head_] with the test, the assignment
    to the slot, the release store to [tail_].  [try_pop] is five: the
    relaxed load of [head_], the acquire load of [tail_] with the test,
    the move out of the slot, the release store to [head_], the
    construction of the returned value.  A schedule picks the thread that
    takes the next step; the loads and stores act on one shared memory in
    schedule order. *)

Inductive thread : Type := producer_thread | consumer_thread.

(** Where the producer is inside [try_push]; [move] tells the overload. *)
Inductive producer_state (T : Type) : Type :=
| ProducerIdle
| ProducerLoadedTail (move : bool) (item : T) (current_tail : Z)
| ProducerChecked (move : bool) (item : T) (current_tail next_tail : Z)
| ProducerStored (item : T) (next_tail : Z).
Arguments ProducerIdle {T}.
Arguments ProducerLoadedTail {T} move item current_tail.
Arguments ProducerChecked {T} move item current_tail next_tail.
Arguments ProducerStored {T} item next_tail.

(** Where the consumer is inside [try_pop]. *)
Inductive consumer_state (T : Type) : Type :=
| ConsumerIdle
| ConsumerLoadedHead (current_head : Z)
| ConsumerChecked (current_head : Z)
| ConsumerTaken (item : T) (current_head : Z)
| ConsumerPublished (item : T).
Arguments ConsumerIdle {T}.
Arguments ConsumerLoadedHead {T} current_head.
Arguments ConsumerChecked {T} current_head.
Arguments ConsumerTaken {T} item current_head.
Arguments ConsumerPublished {T} item.

Record system (T W : Type) : Type := mkSystem {
  shared : RingBuffer T;            (* the one buffer both threads hold *)
  producer : producer_state T;
  consumer : consumer_state T;
  to_push : list (bool * T);        (* the pushes the producer will make *)
  seen : history T;
  shared_world : W
}.
Arguments mkSystem {T W} shared producer consumer to_push seen shared_world.
Arguments shared {T W} s.
Arguments producer {T W} s.
Arguments consumer {T W} s.
Arguments to_push {T W} s.
Arguments seen {T W} s.
Arguments shared_world {T W} s.

Section Interleaving.
Variable Capacity : Z.
Context {T : Type} `{Element T}.

(** [buffer_[current_tail] = item] or [= std::move(item)], as far as the
    slot is concerned. *)
Definition assign_slot (move : bool) (w : world) (slot item : T)
  : completion T T * world :=
  if move then
    match move_assign w slot item with
    | (Done (slot', _), w') => (Done slot', w')
    | (Raised (slot', _), w') => (Raised slot', w')
    end
  else copy_assign w slot item.

Definition producer_step (s : system T world) : system T world :=
  let rb := shared s in
  match producer s with
  | ProducerIdle =>
      match to_push s with
      | [] => s
      | (move, item) :: rest =>
          (* tail_.load(relaxed) *)
          mkSystem rb (ProducerLoadedTail move item (tail_ rb)) (consumer s)
            rest (seen s) (shared_world s)
      end
  | ProducerLoadedTail move item current_tail =>
      let next_tail := Z.land (wrap (current_tail + 1)) (kIndexMask Capacity) in
      (* head_.load(acquire) *)
      if next_tail =? head_ rb
      then mkSystem rb ProducerIdle (consumer s) (to_push s) (seen s)
             (shared_world s)
      else mkSystem rb (ProducerChecked move item current_tail next_tail)
             (consumer s) (to_push s) (seen s) (shared_world s)
  | ProducerChecked move item current_tail next_tail =>
      match buffer_ rb !! Z.to_nat current_tail with
      | None =>
          mkSystem rb ProducerIdle (consumer s) (to_push s) (seen s)
            (shared_world s)
      | Some slot =>
          match assign_slot move (shared_world s) slot item with
          | (Raised slot', w') =>
              mkSystem
                (mkRingBuffer (head_ rb) (tail_ rb)
                   (<[Z.to_nat current_tail := slot']> (buffer_ rb)))
                ProducerIdle (consumer s) (to_push s) (seen s) w'
          | (Done slot', w') =>
              mkSystem
                (mkRingBuffer (head_ rb) (tail_ rb)
                   (<[Z.to_nat current_tail := slot']> (buffer_ rb)))
                (ProducerStored item next_tail) (consumer s) (to_push s)
                (seen s) w'
          end
      end
  | ProducerStored item next_tail =>
      (* tail_.store(next_tail, release); return true *)
      mkSystem (mkRingBuffer (head_ rb) next_tail (buffer_ rb))
        ProducerIdle (consumer s) (to_push s)
        (log_push (Returns true) item (seen s)) (shared_world s)
  end.

Definition consumer_step (s : system T world) : system T world :=
  let rb := shared s in
  match consumer s with
  | ConsumerIdle =>
      (* head_.load(relaxed) *)
      mkSystem rb (producer s) (ConsumerLoadedHead (head_ rb)) (to_push s)
        (seen s) (shared_world s)
  | ConsumerLoadedHead current_head =>
      (* tail_.load(acquire) *)
      if current_head =? tail_ rb
      then mkSystem rb (producer s) ConsumerIdle (to_push s) (seen s)
             (shared_world s)
      else mkSystem rb (producer s) (ConsumerChecked current_head)
             (to_push s) (seen s) (shared_world s)
  | ConsumerChecked current_head =>
      match buffer_ rb !! Z.to_nat current_head with
      | None =>
          mkSystem rb (producer s) ConsumerIdle (to_push s) (seen s)
            (shared_world s)
      | Some slot =>
          match move_construct (shared_world s) slot with
          | (Raised slot', w') =>
              mkSystem
                (mkRingBuffer (head_ rb) (tail_ rb)
                   (<[Z.to_nat current_head := slot']> (buffer_ rb)))
                (producer s) ConsumerIdle (to_push s) (seen s) w'
          | (Done (item, slot'), w') =>
              mkSystem
                (mkRingBuffer (head_ rb) (tail_ rb)
                   (<[Z.to_nat current_head := slot']> (buffer_ rb)))
                (producer s) (ConsumerTaken item current_head) (to_push s)
                (seen s) w'
          end
      end
  | ConsumerTaken item current_head =>
      (* head_.store((current_head + 1) & kIndexMask, release) *)
      mkSystem
        (mkRingBuffer
           (Z.land (wrap (current_head + 1)) (kIndexMask Capacity))
           (tail_ rb) (buffer_ rb))
        (producer s) (ConsumerPublished item) (to_push s) (seen s)
        (shared_world s)
  | ConsumerPublished item =>
      (* return item *)
      match move_construct (shared_world s) item with
      | (Raised _, w') =>
          mkSystem rb (producer s) ConsumerIdle (to_push s) (seen s) w'
      | (Done (value, _), w') =>
          mkSystem rb (producer s) ConsumerIdle (to_push s)
            (log_pop (Returns (Some value)) (seen s)) w'
      end
  end.

Definition thread_step (s : system T world) (t : thread) : system T world :=
  match t with
  | producer_thread => producer_step s
  | consumer_thread => consumer_step s
  end.

Definition run_schedule (schedule : list thread) (s : system T world)
  : system T world :=
  fold_left thread_step schedule s.

Definition system_new (w : world) (slots : list T) (pushes : list (bool * T))
  : system T world :=
  mkSystem (RingBuffer_new slots) ProducerIdle ConsumerIdle pushes
    (mkHistory [] []) w.

(** The pushes a sequence of calls asks for, in order. *)
Definition pushes_of (calls : list (call T)) : list (bool * T) :=
  flat_map (fun c => match c with
                     | PushCopy item => [(false, item)]
                     | PushMove item => [(true, item)]
                     | Pop => []
                     end) calls.

(** The live elements while a [try_pop] is under way: an item the
    consumer has moved out and not yet returned is still the oldest. *)
Definition in_flight (s : system T world) : list T :=
  match consumer s with
  | ConsumerTaken item current_head =>
      item :: contents Capacity
                (mkRingBuffer
                   (Z.land (wrap (current_head + 1)) (kIndexMask Capacity))
                   (tail_ (shared s)) (buffer_ (shared s)))
  | ConsumerPublished item => item :: contents Capacity (shared s)
  | _ => contents Capacity (shared s)
  end.

(** What the producer knows at each of its steps. *)
Definition producer_invariant (s : system T world) : Prop :=
  let rb := shared s in
  match producer s with
  | ProducerIdle => True
  | ProducerLoadedTail _ _ current_tail => current_tail = tail_ rb
  | ProducerChecked _ _ current_tail next_tail =>
      current_tail = tail_ rb /\
      next_tail = (tail_ rb + 1) mod Capacity /\
      next_tail <> head_ rb
  | ProducerStored item next_tail =>
      next_tail = (tail_ rb + 1) mod Capacity /\
      next_tail <> head_ rb /\
      buffer_ rb !! Z.to_nat (tail_ rb) = Some item
  end.

(** What the consumer knows at each of its steps. *)
Definition consumer_invariant (s : system T world) : Prop :=
  let rb := shared s in
  match consumer s with
  | ConsumerIdle | ConsumerPublished _ => True
  | ConsumerLoadedHead current_head => current_head = head_ rb
  | ConsumerChecked current_head
  | ConsumerTaken _ current_head =>
      current_head = head_ rb /\ head_ rb <> tail_ rb
  end.

Definition system_invariant (s : system T world) : Prop :=
  well_formed Capacity (shared s) /\
  producer_invariant s /\
  consumer_invariant s /\
  accepted (seen s) = popped (seen s) ++ in_flight s.

End Interleaving.

(** ** Element types *)

(** [int], [uint64_t]: trivially copyable, nothing raises, nothing else
    is touched and a moved-from object keeps its value. *)
Definition trivial_copy_assign (w : unit) (dst src : Z)
  : completion Z Z * unit := (Done src, w).
Definition trivial_move_assign (w : unit) (dst src : Z)
  : completion (Z * Z) (Z * Z) * unit := (Done (src, src), w).
Definition trivial_move_construct (w : unit) (src : Z)
  : completion (Z * Z) Z * unit := (Done (src, src), w).

#[export] Instance int_Element : Element Z.
Proof.
  refine {| world := unit;
            copy_assign := trivial_copy_assign;
            move_assign := trivial_move_assign;
            move_construct := trivial_move_construct |};
    unfold trivial_copy_assign, trivial_move_assign, trivial_move_construct;
    intros; congruence.
Defined.

(** [std::string], as far as memory goes.  A text of up to
    [small_string_capacity] characters lives inside the string object
    itself (15 characters in libstdc++ and in the MSVC library, 22 in
    libc++); only a longer text is held in memory obtained from the
    allocator, and only then can copying it raise [std::bad_alloc].
    The world of the element types below is the number of allocations
    the allocator will still grant before it refuses.  The capacity of
    a string is taken to be the larger of its length and the
    small-string capacity, as it is for a string that was default
    constructed, moved from, or assigned a text that did not fit. *)
Definition small_string_capacity : nat := 15.

(** [allocate heap]: the allocations left after one more was granted,
    or nothing when the allocator refuses. *)
Definition allocate (heap : nat) : option nat :=
  match heap with
  | O => None
  | S heap' => Some heap'
  end.

(** Whether the copy construction of a string from [src] allocates. *)
Definition string_copy_allocates (src : string) : bool :=
  (small_string_capacity <? String.length src)%nat.

(** Whether the copy assignment [dst = src] of strings allocates: when
    [src] does not fit the capacity of [dst]. *)
Definition string_assign_allocates (dst src : string) : bool :=
  (Nat.max small_string_capacity (String.length dst) <? String.length src)%nat.

(** A text of thirty-two characters: more than the string object of any
    of the libraries holds. *)
Definition long_text : string := "0123456789abcdef0123456789abcdef".
Definition other_long_text : string := "fedcba9876543210fedcba9876543210".

(** [struct TestMessage { int id; std::string data; }] of the test suite,
    with the implicitly defined copy and move operations: member by
    member, [id] first.  The copy assignment of [data] raises
    [std::bad_alloc] when it has to allocate and the allocator refuses;
    it then leaves the target string as it was, but [id] has been
    assigned by then.  Moving a string does not allocate and leaves the
    source empty. *)
Record TestMessage : Type := mkTestMessage {
  id : Z;
  data : string
}.

Definition TestMessage_copy_assign (heap : nat) (dst src : TestMessage)
  : completion TestMessage TestMessage * nat :=
  if string_assign_allocates (data dst) (data src)
  then match allocate heap with
       | Some heap' => (Done (mkTestMessage (id src) (data src)), heap')
       | None => (Raised (mkTestMessage (id src) (data dst)), heap)
       end
  else (Done (mkTestMessage (id src) (data src)), heap).

Definition TestMessage_move_assign (heap : nat) (dst src : TestMessage)
  : completion (TestMessage * TestMessage) (TestMessage * TestMessage) * nat :=
  (Done (mkTestMessage (id src) (data src), mkTestMessage (id src) EmptyString),
   heap).

Definition TestMessage_move_construct (heap : nat) (src : TestMessage)
  : completion (TestMessage * TestMessage) TestMessage * nat :=
  (Done (mkTestMessage (id src) (data src), mkTestMessage (id src) EmptyString),
   heap).

Definition TestMessage_Element : Element TestMessage.
Proof.
  refine {| world := nat;
            copy_assign := TestMessage_copy_assign;
            move_assign := TestMessage_move_assign;
            move_construct := TestMessage_move_construct |}.
  - intros heap [j e] [i d] dst' heap'. unfold TestMessage_copy_assign. simpl.
    destruct (string_assign_allocates e d);
      [destruct (allocate heap)|]; congruence.
  - intros heap dst [i d] dst' src' heap'. unfold TestMessage_move_assign.
    simpl. congruence.
  - intros heap [i d] item src' heap'. unfold TestMessage_move_construct.
    simpl. congruence.
Defined.

(** A type that is copied when it is moved; the repository has none,
    the class template accepts it:

    [struct Blob { std::string text; Blob() = default;
    Blob(const Blob&) = default; Blob& operator=(const Blob&) = default; };]

    The copy operations are declared, so no move operation is: the
    class is move constructible and move assignable, as the
    [static_assert]s ask, through its copy constructor and its copy
    assignment, and its moves allocate as its copies do.  A value of the
    type is its text. *)
Definition Blob_copy_assign (heap : nat) (dst src : string)
  : completion string string * nat :=
  if string_assign_allocates dst src
  then match allocate heap with
       | Some heap' => (Done src, heap')
       | None => (Raised dst, heap)
       end
  else (Done src, heap).

Definition Blob_move_assign (heap : nat) (dst src : string)
  : completion (string * string) (string * string) * nat :=
  match Blob_copy_assign heap dst src with
  | (Done dst', heap') => (Done (dst', src), heap')
  | (Raised dst', heap') => (Raised (dst', src), heap')
  end.

Definition Blob_move_construct (heap : nat) (src : string)
  : completion (string * string) string * nat :=
  if string_copy_allocates src
  then match allocate heap with
       | Some heap' => (Done (src, src), heap')
       | None => (Raised src, heap)
       end
  else (Done (src, src), heap).

Definition Blob_Element : Element string.
Proof.
  refine {| world := nat;
            copy_assign := Blob_copy_assign;
            move_assign := Blob_move_assign;
            move_construct := Blob_move_construct |}.
  - intros heap dst src dst' heap'. unfold Blob_copy_assign.
    destruct (string_assign_allocates dst src);
      [destruct (allocate heap)|]; congruence.
  - intros heap dst src dst' src' heap'.
    unfold Blob_move_assign, Blob_copy_assign.
    destruct (string_assign_allocates dst src);
      [destruct (allocate heap)|]; congruence.
  - intros heap src item src' heap'. unfold Blob_move_construct.
    destruct (string_copy_allocates src);
      [destruct (allocate heap)|]; congruence.
Defined.

(** ** The member functions, case by case

    The relations below list the ways each member function can end, with
    the index mask read as reduction modulo [Capacity]; that they
    describe the functions is proved further down. *)

Section CaseRelations.
Variable Capacity : Z.
Context {T : Type} `{Element T}.

Local Abbreviation next i := ((i + 1) mod Capacity).

(** The four ways [try_push(const T&)] can go. *)
Inductive try_push_spec (w : world) (rb : RingBuffer T) (item : T)
  : after bool T world -> Prop :=
| push_full :
    next (tail_ rb) = head_ rb ->
    try_push_spec w rb item (mkAfter (Returns false) rb w)
| push_undefined :
    next (tail_ rb) <> head_ rb ->
    buffer_ rb !! Z.to_nat (tail_ rb) = None ->
    try_push_spec w rb item (mkAfter Undefined rb w)
| push_raises slot slot' w' :
    next (tail_ rb) <> head_ rb ->
    buffer_ rb !! Z.to_nat (tail_ rb) = Some slot ->
    copy_assign w slot item = (Raised slot', w') ->
    try_push_spec w rb item
      (mkAfter Raises
         (mkRingBuffer (head_ rb) (tail_ rb)
            (<[Z.to_nat (tail_ rb) := slot']> (buffer_ rb)))
         w')
| push_stored slot w' :
    next (tail_ rb) <> head_ rb ->
    buffer_ rb !! Z.to_nat (tail_ rb) = Some slot ->
    copy_assign w slot item = (Done item, w') ->
    try_push_spec w rb item
      (mkAfter (Returns true)
         (mkRingBuffer (head_ rb) (next (tail_ rb))
            (<[Z.to_nat (tail_ rb) := item]> (buffer_ rb)))
         w').

(** The same four ways for [try_push(T&&)]. *)
Inductive try_push_move_spec (w : world) (rb : RingBuffer T) (item : T)
  : after bool T world * T -> Prop :=
| push_move_full :
    next (tail_ rb) = head_ rb ->
    try_push_move_spec w rb item (mkAfter (Returns false) rb w, item)
| push_move_undefined :
    next (tail_ rb) <> head_ rb ->
    buffer_ rb !! Z.to_nat (tail_ rb) = None ->
    try_push_move_spec w rb item (mkAfter Undefined rb w, item)
| push_move_raises slot slot' item' w' :
    next (tail_ rb) <> head_ rb ->
    buffer_ rb !! Z.to_nat (tail_ rb) = Some slot ->
    move_assign w slot item = (Raised (slot', item'), w') ->
    try_push_move_spec w rb item
      (mkAfter Raises
         (mkRingBuffer (head_ rb) (tail_ rb)
            (<[Z.to_nat (tail_ rb) := slot']> (buffer_ rb)))
         w',
       item')
| push_move_stored slot item' w' :
    next (tail_ rb) <> head_ rb ->
    buffer_ rb !! Z.to_nat (tail_ rb) = Some slot ->
    move_assign w slot item = (Done (item, item'), w') ->
    try_push_move_spec w rb item
      (mkAfter (Returns true)
         (mkRingBuffer (head_ rb) (next (tail_ rb))
            (<[Z.to_nat (tail_ rb) := item]> (buffer_ rb)))
         w',
       item').

(** The five ways [try_pop()] can go: the buffer is empty, the slot does
    not exist, the move out of the slot raises, the construction of the
    returned value raises, the value is returned. *)
Inductive try_pop_spec (w : world) (rb : RingBuffer T)
  : after (option T) T world -> Prop :=
| pop_empty :
    head_ rb = tail_ rb ->
    try_pop_spec w rb (mkAfter (Returns None) rb w)
| pop_undefined :
    head_ rb <> tail_ rb ->
    buffer_ rb !! Z.to_nat (head_ rb) = None ->
    try_pop_spec w rb (mkAfter Undefined rb w)
| pop_raises slot slot' w' :
    head_ rb <> tail_ rb ->
    buffer_ rb !! Z.to_nat (head_ rb) = Some slot ->
    move_construct w slot = (Raised slot', w') ->
    try_pop_spec w rb
      (mkAfter Raises
         (mkRingBuffer (head_ rb) (tail_ rb)
            (<[Z.to_nat (head_ rb) := slot']> (buffer_ rb)))
         w')
| pop_dropped slot slot' item' w1 w2 :
    head_ rb <> tail_ rb ->
    buffer_ rb !! Z.to_nat (head_ rb) = Some slot ->
    move_construct w slot = (Done (slot, slot'), w1) ->
    move_construct w1 slot = (Raised item', w2) ->
    try_pop_spec w rb
      (mkAfter Raises
         (mkRingBuffer (next (head_ rb)) (tail_ rb)
            (<[Z.to_nat (head_ rb) := slot']> (buffer_ rb)))
         w2)
| pop_taken slot slot' item' w1 w2 :
    head_ rb <> tail_ rb ->
    buffer_ rb !! Z.to_nat (head_ rb) = Some slot ->
    move_construct w slot = (Done (slot, slot'), w1) ->
    move_construct w1 slot = (Done (slot, item'), w2) ->
    try_pop_spec w rb
      (mkAfter (Returns (Some slot))
         (mkRingBuffer (next (head_ rb)) (tail_ rb)
            (<[Z.to_nat (head_ rb) := slot']> (buffer_ rb)))
         w2).

End CaseRelations.

(** ** The class as a queue

    The class documents itself as a circular queue whose "actual storage
    capacity is Capacity-1 items".  The queue it is compared with further
    down: a list of at most [limit] values, oldest first, with the
    history of what its callers have seen. *)

Section BoundedQueue.
Context {T : Type}.

Definition bounded_queue_step (limit : nat) (st : list T * history T)
    (c : call T) : list T * history T :=
  let (queue, h) := st in
  match c with
  | PushCopy item | PushMove item =>
      if (length queue <? limit)%nat
      then (queue ++ [item], mkHistory (accepted h ++ [item]) (popped h))
      else (queue, h)
  | Pop =>
      match queue with
      | [] => (queue, h)
      | oldest :: rest => (rest, mkHistory (accepted h) (popped h ++ [oldest]))
      end
  end.

Definition bounded_queue_run (limit : nat) (calls : list (call T))
    (st : list T * history T) : list T * history T :=
  fold_left (bounded_queue_step limit) calls st.

End BoundedQueue.

(** The operation of [T] a call performs must not raise: the condition
    of the call's [noexcept] specifier. *)
Definition call_is_noexcept {T : Type} `{Element T} (c : call T) : Prop :=
  match c with
  | PushCopy _ => is_nothrow_copy_assignable T
  | PushMove _ => is_nothrow_move_assignable T
  | Pop => is_nothrow_move_constructible T
  end.

(** ** Loops around the member functions

    [tests/ring_buffer_test.cpp] and [benchmarks/benchmark.cpp] call the
    member functions from a few loops.  A loop is given the number of
    iterations it may take, its [fuel]. *)

(** How a loop ends. *)
Inductive loop_end (A : Type) : Type :=
| Finished (a : A)    (* the loop condition failed; the state it left *)
| Aborted (a : A)     (* a call did not return: the loop was left by it *)
| OutOfFuel.          (* the loop is still running *)
Arguments Finished {A} a.
Arguments Aborted {A} a.
Arguments OutOfFuel {A}.

Section Loops.
Variable Capacity : Z.
Context {T : Type} `{Element T}.

(** [while (auto item = buffer.try_pop()) { popped.fetch_add(1); }]: the
    loop that drains the buffer at the end of the throughput test and of
    the throughput benchmark; [count] is the [std::atomic<uint64_t>] it
    adds to. *)
Fixpoint drain (fuel : nat) (w : world) (rb : RingBuffer T) (count : Z)
  : loop_end (Z * RingBuffer T * world) :=
  match fuel with
  | O => OutOfFuel
  | S fuel' =>
      let r := try_pop Capacity w rb in
      match returned r with
      | Returns (Some _) =>
          drain fuel' (world_after r) (object r) (wrap (count + 1))
      | Returns None => Finished (count, object r, world_after r)
      | Raises | Undefined => Aborted (count, object r, world_after r)
      end
  end.

(** [while (!buffer.try_push(item)) std::this_thread::yield();] with
    [item] an lvalue: the producer's loop in the tests and benchmarks. *)
Fixpoint push_retry (fuel : nat) (w : world) (rb : RingBuffer T) (item : T)
  : loop_end (RingBuffer T * world) :=
  match fuel with
  | O => OutOfFuel
  | S fuel' =>
      let r := try_push Capacity w rb item in
      match returned r with
      | Returns true => Finished (object r, world_after r)
      | Returns false => push_retry fuel' (world_after r) (object r) item
      | Raises | Undefined => Aborted (object r, world_after r)
      end
  end.

(** [while (!(item = buffer.try_pop())) std::this_thread::yield();]: the
    consumer's loop; the first component is [*item] when the loop is
    left. *)
Fixpoint pop_retry (fuel : nat) (w : world) (rb : RingBuffer T)
  : loop_end (option T * RingBuffer T * world) :=
  match fuel with
  | O => OutOfFuel
  | S fuel' =>
      let r := try_pop Capacity w rb in
      match returned r with
      | Returns (Some v) => Finished (Some v, object r, world_after r)
      | Returns None => pop_retry fuel' (world_after r) (object r)
      | Raises | Undefined => Aborted (None, object r, world_after r)
      end
  end.

(** [size()] called while the other thread runs: the load of [head_]
    reads the memory at one moment, the load of [tail_] at a later
    one. *)
Definition size_loads (at_head_load at_tail_load : RingBuffer T) : Z :=
  let head := head_ at_head_load in
  let tail := tail_ at_tail_load in
  Z.land (wrap (tail - head)) (kIndexMask Capacity).

End Loops.

(** The calls [benchmarkLatency] makes on its [RingBuffer<int, 1024>],
    all results discarded: [warm_up] rounds of one push and one pop,
    then [samples] pushes of [0, 1, ...], then [samples] pops.  The
    benchmark has [warm_up = 1000] and [samples = 1000000]. *)
Definition latency_calls (warm_up samples : nat) : list (call Z) :=
  flat_map (fun i => [PushCopy (Z.of_nat i); Pop]) (seq 0 warm_up)
  ++ map (fun i => PushCopy (Z.of_nat i)) (seq 0 samples)
  ++ repeat Pop samples.

(** Which thread a step of a schedule belongs to can be told. *)
Definition thread_eq_dec (a b : thread) : {a = b} + {a <> b}.
Proof. decide equality. Defined.

(** ** The threads of the "SPSC Correctness" test

    The producer thread sends each item with
    [while (!buffer.try_push(i)) yield();]: a call that returns [false]
    is made again with the same item.  The consumer thread calls
    [try_pop] until it has received [wanted] items.  The steps are those
    of the member functions, taken in schedule order as before.  (Were an
    operation of [T] to raise, the thread would end there; the element
    types of the tests are [int]s.) *)

Section TestThreads.
Variable Capacity : Z.
Context {T : Type} `{Element T}.

Definition producer_retry_step (s : system T world) : system T world :=
  let s' := producer_step Capacity s in
  match producer s, producer s' with
  | ProducerLoadedTail move item _, ProducerIdle =>
      (* try_push returned false: yield, then the same item again *)
      mkSystem (shared s') ProducerIdle (consumer s')
        ((move, item) :: to_push s') (seen s') (shared_world s')
  | _, _ => s'
  end.

Definition consumer_until_step (wanted : nat) (s : system T world)
  : system T world :=
  match consumer s with
  | ConsumerIdle =>
      (* while (received < NUM_ITEMS) *)
      if (length (popped (seen s)) <? wanted)%nat
      then consumer_step Capacity s
      else s
  | _ => consumer_step Capacity s
  end.

Definition test_thread_step (wanted : nat) (s : system T world) (t : thread)
  : system T world :=
  match t with
  | producer_thread => producer_retry_step s
  | consumer_thread => consumer_until_step wanted s
  end.

Definition run_test (wanted : nat) (schedule : list thread)
    (s : system T world) : system T world :=
  fold_left (test_thread_step wanted) schedule s.

(** The items the producer has not sent yet: the one of the call under
    way, then those of the calls to come. *)
Definition unsent (s : system T world) : list T :=
  match producer s with
  | ProducerIdle => []
  | ProducerLoadedTail _ item _
  | ProducerChecked _ item _ _
  | ProducerStored item _ => [item]
  end ++ map snd (to_push s).

(** How far each thread is from the end of the call it is in. *)
Definition producer_rank (p : producer_state T) : nat :=
  match p with
  | ProducerIdle => 0
  | ProducerStored _ _ => 1
  | ProducerChecked _ _ _ _ => 2
  | ProducerLoadedTail _ _ _ => 3
  end.

Definition consumer_rank (c : consumer_state T) : nat :=
  match c with
  | ConsumerIdle => 0
  | ConsumerPublished _ => 1
  | ConsumerTaken _ _ => 2
  | ConsumerChecked _ => 3
  | ConsumerLoadedHead _ => 4
  end.

(** What both threads know of the indices at each of their steps. *)
Definition access_invariant (s : system T world) : Prop :=
  well_formed Capacity (shared s) /\
  producer_invariant Capacity s /\
  consumer_invariant s.

End TestThreads.

(** ** The threads of the throughput test

    The "High Frequency Stress Test" and [benchmarkMaxThroughput] run a
    producer and a consumer on a [RingBuffer<uint64_t, Capacity>] until
    the main thread clears the flag [running]:

    - the producer loops [while (running.load())], calling
      [try_push(counter)] and adding one to [total_pushed] and to
      [counter] when the call returns [true], to [push_failures] when it
      returns [false];
    - the consumer loops [while (running.load())], calling [try_pop()]
      and adding one to [total_popped] when the call returns a value;
      after that loop it drains the buffer with
      [while (auto item = buffer.try_pop())];
    - the main thread stores [false] to [running], joins both threads
      and compares [total_pushed] with [total_popped].

    A step of a thread is a load of the flag, a step of the member
    function it is in, or an addition to a counter.  The counters are
    [uint64_t]s; nothing raises for this element type.

    The workers load the flag with [memory_order_relaxed]: a load made
    after the main thread's store may still return [true], the value
    the flag was constructed with.  A worker that has read [false]
    reads the flag no more, so the value a load returns is the flag's
    latest or [true]; which of the two is the schedule's choice. *)

Inductive stress_producer : Type :=
| StressProducerLoop       (* at [while (running.load())] *)
| StressProducerCall       (* inside [buffer.try_push(counter)] *)
| StressProducerPushed     (* the call returned true *)
| StressProducerRefused    (* the call returned false *)
| StressProducerDone.      (* the thread has ended *)

Inductive stress_consumer : Type :=
| StressConsumerLoop       (* at [while (running.load())] *)
| StressConsumerCall       (* inside [buffer.try_pop()], first loop *)
| StressConsumerPopped     (* that call returned a value *)
| StressConsumerDrain      (* inside [buffer.try_pop()], drain loop *)
| StressConsumerDrained    (* that call returned a value *)
| StressConsumerDone.      (* the thread has ended *)

Inductive stress_thread : Type :=
| stress_main
| stress_worker (t : thread)          (* a load reads the latest store *)
| stress_worker_stale (t : thread).   (* a load reads the initial [true] *)

Record stress : Type := mkStress {
  threads : system Z unit;   (* the buffer and the member function steps *)
  running : bool;
  producer_at : stress_producer;
  consumer_at : stress_consumer;
  counter : Z;
  total_pushed : Z;
  total_popped : Z;
  push_failures : Z
}.

Section Stress.
Variable Capacity : Z.

(** The producer enters [try_push(counter)], [counter] an lvalue. *)
Definition begin_push (t : system Z unit) (item : Z) : system Z unit :=
  mkSystem (shared t) (producer t) (consumer t) [(false, item)] (seen t)
    (shared_world t).

(** [loaded] is what a load of the flag returns at this step. *)
Definition stress_producer_step (loaded : bool) (s : stress) : stress :=
  match producer_at s with
  | StressProducerLoop =>
      if loaded
      then mkStress (begin_push (threads s) (counter s)) (running s)
             StressProducerCall (consumer_at s) (counter s)
             (total_pushed s) (total_popped s) (push_failures s)
      else mkStress (threads s) (running s) StressProducerDone
             (consumer_at s) (counter s)
             (total_pushed s) (total_popped s) (push_failures s)
  | StressProducerCall =>
      let t' := producer_step (H:=int_Element) Capacity (threads s) in
      let at' :=
        match producer (threads s), producer t' with
        | ProducerStored _ _, ProducerIdle => StressProducerPushed
        | ProducerLoadedTail _ _ _, ProducerIdle => StressProducerRefused
        | _, _ => StressProducerCall
        end in
      mkStress t' (running s) at' (consumer_at s) (counter s)
        (total_pushed s) (total_popped s) (push_failures s)
  | StressProducerPushed =>
      (* total_pushed.fetch_add(1); counter++; *)
      mkStress (threads s) (running s) StressProducerLoop (consumer_at s)
        (wrap (counter s + 1)) (wrap (total_pushed s + 1))
        (total_popped s) (push_failures s)
  | StressProducerRefused =>
      (* push_failures.fetch_add(1); yield(); *)
      mkStress (threads s) (running s) StressProducerLoop (consumer_at s)
        (counter s) (total_pushed s) (total_popped s)
        (wrap (push_failures s + 1))
  | StressProducerDone => s
  end.

Definition stress_consumer_step (loaded : bool) (s : stress) : stress :=
  match consumer_at s with
  | StressConsumerLoop =>
      mkStress (threads s) (running s) (producer_at s)
        (if loaded then StressConsumerCall else StressConsumerDrain)
        (counter s) (total_pushed s) (total_popped s) (push_failures s)
  | StressConsumerCall =>
      let t' := consumer_step (H:=int_Element) Capacity (threads s) in
      let at' :=
        match consumer (threads s), consumer t' with
        | ConsumerPublished _, ConsumerIdle => StressConsumerPopped
        | ConsumerLoadedHead _, ConsumerIdle =>
            StressConsumerLoop   (* no value: yield() *)
        | _, _ => StressConsumerCall
        end in
      mkStress t' (running s) (producer_at s) at' (counter s)
        (total_pushed s) (total_popped s) (push_failures s)
  | StressConsumerPopped =>
      (* total_popped.fetch_add(1); *)
      mkStress (threads s) (running s) (producer_at s) StressConsumerLoop
        (counter s) (total_pushed s) (wrap (total_popped s + 1))
        (push_failures s)
  | StressConsumerDrain =>
      let t' := consumer_step (H:=int_Element) Capacity (threads s) in
      let at' :=
        match consumer (threads s), consumer t' with
        | ConsumerPublished _, ConsumerIdle => StressConsumerDrained
        | ConsumerLoadedHead _, ConsumerIdle =>
            StressConsumerDone   (* no value: the drain loop is left *)
        | _, _ => StressConsumerDrain
        end in
      mkStress t' (running s) (producer_at s) at' (counter s)
        (total_pushed s) (total_popped s) (push_failures s)
  | StressConsumerDrained =>
      (* total_popped.fetch_add(1); *)
      mkStress (threads s) (running s) (producer_at s) StressConsumerDrain
        (counter s) (total_pushed s) (wrap (total_popped s + 1))
        (push_failures s)
  | StressConsumerDone => s
  end.

(** [running.store(false)] *)
Definition stress_main_step (s : stress) : stress :=
  mkStress (threads s) false (producer_at s) (consumer_at s) (counter s)
    (total_pushed s) (total_popped s) (push_failures s).

Definition stress_step (s : stress) (t : stress_thread) : stress :=
  match t with
  | stress_main => stress_main_step s
  | stress_worker producer_thread => stress_producer_step (running s) s
  | stress_worker consumer_thread => stress_consumer_step (running s) s
  | stress_worker_stale producer_thread => stress_producer_step true s
  | stress_worker_stale consumer_thread => stress_consumer_step true s
  end.

Definition run_stress (schedule : list stress_thread) (s : stress) : stress :=
  fold_left stress_step schedule s.

Definition stress_new (slots : list Z) : stress :=
  mkStress (system_new (H:=int_Element) tt slots []) true
    StressProducerLoop StressConsumerLoop 0 0 0 0.

(** A schedule in which the producer reads [running] just before the
    main thread clears it and is then held up until the consumer has
    found the buffer empty and ended.  No load in it is stale. *)
Definition late_push_schedule : list stress_thread :=
  let P := stress_worker producer_thread in
  let C := stress_worker consumer_thread in
  [P; stress_main; C; C; C; P; P; P; P; P; P].

(** A schedule in which the main thread clears the flag, the consumer
    reads it, finds the buffer empty and ends, and the producer, whose
    loads still return [true] twice, makes two pushes before it reads
    [false]. *)
Definition stale_push_schedule : list stress_thread :=
  let P := stress_worker producer_thread in
  let S := stress_worker_stale producer_thread in
  let C := stress_worker consumer_thread in
  [stress_main; C; C; C; S; P; P; P; P; P; S; P; P; P; P; P; P].

(** The additions to the counters that are still to be made. *)
Definition pushed_pending (s : stress) : Z :=
  match producer_at s with StressProducerPushed => 1 | _ => 0 end.
Definition popped_pending (s : stress) : Z :=
  match consumer_at s with
  | StressConsumerPopped | StressConsumerDrained => 1
  | _ => 0
  end.

(** The counters follow the calls that have returned, and a worker that
    is not inside a member function has no call under way. *)
Definition stress_invariant (s : stress) : Prop :=
  system_invariant (H:=int_Element) Capacity (threads s) /\
  total_pushed s
  = wrap (Z.of_nat (length (accepted (seen (threads s)))) - pushed_pending s) /\
  total_popped s
  = wrap (Z.of_nat (length (popped (seen (threads s)))) - popped_pending s) /\
  (producer_at s <> StressProducerCall ->
   producer (threads s) = ProducerIdle) /\
  (consumer_at s <> StressConsumerCall ->
   consumer_at s <> StressConsumerDrain ->
   consumer (threads s) = ConsumerIdle).

End Stress.

(** Closes [valid_capacity n] for a literal [n]. *)
Ltac literal_capacity :=
  split; [split; [discriminate | reflexivity] | reflexivity].

(** * Index arithmetic *)

Section IndexArithmetic.
Variable Capacity : Z.
Hypothesis Hcap : valid_capacity Capacity.

Lemma capacity_gt_1 : 1 < Capacity.
Proof.
  pose proof Hcap as [_ Hsa]. unfold static_assert_capacity in Hsa.
  apply andb_prop in Hsa as [_ Hgt]. lia.
Qed.

Lemma capacity_pred_no_wrap : wrap (Capacity - 1) = Capacity - 1.
Proof.
  pose proof capacity_gt_1. pose proof Hcap as [Hr _].
  unfold wrap. apply Z.mod_small. lia.
Qed.

(** The [static_assert] admits exactly the powers of two. *)
Lemma capacity_power_of_two :
  exists k, 1 <= k < size_t_bits /\ Capacity = 2 ^ k.
Proof.
  pose proof capacity_gt_1 as Hgt.
  pose proof capacity_pred_no_wrap as Hnw.
  pose proof Hcap as [Hr Hsa]. unfold static_assert_capacity in Hsa.
  apply andb_prop in Hsa as [Hland _]. rewrite Hnw in Hland.
  apply Z.eqb_eq in Hland.
  set (k := Z.log2 Capacity).
  assert (Hk : 2 ^ k <= Capacity < 2 ^ (Z.succ k))
    by (apply Z.log2_spec; lia).
  assert (Hk0 : 0 <= k) by apply Z.log2_nonneg.
  destruct (Z.eq_dec Capacity (2 ^ k)) as [Heq | Hne].
  - exists k. split; [|exact Heq]. split.
    + destruct (Z.eq_dec k 0) as [-> | ?]; [simpl in Heq; lia | lia].
    + apply (Z.pow_lt_mono_r_iff 2); [lia | unfold size_t_bits; lia |].
      unfold size_t_modulus in Hr. lia.
  - exfalso.
    assert (Hk' : Z.log2 (Capacity - 1) = k)
      by (apply Z.log2_unique; lia).
    assert (Hb1 : Z.testbit Capacity k = true)
      by (apply Z.bit_log2; lia).
    assert (Hb2 : Z.testbit (Capacity - 1) k = true)
      by (rewrite <- Hk'; apply Z.bit_log2; lia).
    assert (Hb : Z.testbit (Z.land Capacity (Capacity - 1)) k = true)
      by (rewrite Z.land_spec, Hb1, Hb2; reflexivity).
    rewrite Hland, Z.bits_0 in Hb. discriminate.
Qed.

(** Masking a wrapped value is reduction modulo [Capacity]. *)
Lemma mask_wrap x : Z.land (wrap x) (kIndexMask Capacity) = x mod Capacity.
Proof.
  destruct capacity_power_of_two as (k & [Hk1 Hk2] & Hk).
  unfold kIndexMask. rewrite capacity_pred_no_wrap.
  replace (Capacity - 1) with (Z.ones k)
    by (rewrite Z.ones_equiv; lia).
  rewrite Z.land_ones by lia. rewrite Hk.
  unfold wrap, size_t_modulus.
  apply Z.mod_mod_divide.
  exists (2 ^ (size_t_bits - k)).
  rewrite <- Z.pow_add_r by lia. f_equal. lia.
Qed.

Lemma succ_mod i :
  0 <= i < Capacity ->
  (i + 1) mod Capacity = if i + 1 =? Capacity then 0 else i + 1.
Proof.
  intros Hi. destruct (Z.eqb_spec (i + 1) Capacity) as [-> | Hne].
  - apply Z_mod_same_full.
  - apply Z.mod_small. lia.
Qed.

Lemma diff_mod h t :
  0 <= h < Capacity -> 0 <= t < Capacity ->
  (t - h) mod Capacity = if h <=? t then t - h else t - h + Capacity.
Proof.
  intros Hh Ht. destruct (Z.leb_spec h t).
  - apply Z.mod_small. lia.
  - symmetry. apply (Z.mod_unique _ _ (-1)); lia.
Qed.

End IndexArithmetic.

(** * The member functions, case by case *)

Section Cases.
Variable Capacity : Z.
Hypothesis Hcap : valid_capacity Capacity.
Context {T : Type} `{Element T}.

Local Abbreviation next i := ((i + 1) mod Capacity).

Lemma next_index i :
  Z.land (wrap (i + 1)) (kIndexMask Capacity) = next i.
Proof. apply mask_wrap, Hcap. Qed.

Lemma size_mod (rb : RingBuffer T) :
  size Capacity rb = (tail_ rb - head_ rb) mod Capacity.
Proof. apply mask_wrap, Hcap. Qed.

Lemma full_mod (rb : RingBuffer T) :
  full Capacity rb = (next (tail_ rb) =? head_ rb).
Proof. unfold full. now rewrite next_index. Qed.

Lemma try_push_cases w rb item :
  try_push_spec Capacity w rb item (try_push Capacity w rb item).
Proof.
  unfold try_push. rewrite next_index.
  destruct (Z.eqb_spec (next (tail_ rb)) (head_ rb)) as [Hf | Hf].
  { now constructor. }
  destruct (buffer_ rb !! Z.to_nat (tail_ rb)) as [slot|] eqn:Hslot.
  2: { now constructor. }
  destruct (copy_assign w slot item) as [[slot'|slot'] w'] eqn:Hop.
  - pose proof (copy_assign_value _ _ _ _ _ Hop) as ->.
    now apply push_stored with slot.
  - now apply push_raises with slot.
Qed.

Lemma try_push_move_cases w rb item :
  try_push_move_spec Capacity w rb item (try_push_move Capacity w rb item).
Proof.
  unfold try_push_move. rewrite next_index.
  destruct (Z.eqb_spec (next (tail_ rb)) (head_ rb)) as [Hf | Hf].
  { now constructor. }
  destruct (buffer_ rb !! Z.to_nat (tail_ rb)) as [slot|] eqn:Hslot.
  2: { now constructor. }
  destruct (move_assign w slot item)
    as [[[slot' item']|[slot' item']] w'] eqn:Hop.
  - pose proof (move_assign_value _ _ _ _ _ _ Hop) as ->.
    now apply push_move_stored with slot.
  - now apply push_move_raises with slot.
Qed.

Lemma try_pop_cases w rb :
  try_pop_spec Capacity w rb (try_pop Capacity w rb).
Proof.
  unfold try_pop. rewrite next_index.
  destruct (Z.eqb_spec (head_ rb) (tail_ rb)) as [He | He].
  { now constructor. }
  destruct (buffer_ rb !! Z.to_nat (head_ rb)) as [slot|] eqn:Hslot.
  2: { now constructor. }
  destruct (move_construct w slot) as [[[item slot']|slot'] w1] eqn:Hop.
  2: { now apply pop_raises with slot. }
  pose proof (move_construct_value _ _ _ _ _ Hop) as ->.
  destruct (move_construct w1 slot) as [[[value item']|item'] w2] eqn:Hret.
  - pose proof (move_construct_value _ _ _ _ _ Hret) as ->.
    now apply pop_taken with item' w1.
  - now apply pop_dropped with slot item' w1.
Qed.

End Cases.

(** * Well-formed states *)

Section WellFormed.
Variable Capacity : Z.
Hypothesis Hcap : valid_capacity Capacity.
Context {T : Type} `{Element T}.

Local Abbreviation next i := ((i + 1) mod Capacity).

Lemma next_in_range i : 0 <= next i < Capacity.
Proof. apply Z.mod_pos_bound. pose proof (capacity_gt_1 _ Hcap). lia. Qed.

Lemma well_formed_new (slots : list T) :
  length slots = Z.to_nat Capacity ->
  well_formed Capacity (RingBuffer_new slots).
Proof.
  intros Hlen. pose proof (capacity_gt_1 _ Hcap).
  unfold well_formed, RingBuffer_new. simpl. lia.
Qed.

Lemma well_formed_try_push w rb item :
  well_formed Capacity rb ->
  well_formed Capacity (object (try_push Capacity w rb item)).
Proof.
  intros (Hh & Ht & Hlen).
  destruct (try_push_cases _ Hcap w rb item); simpl;
    unfold well_formed; simpl; rewrite ?length_insert;
    auto using next_in_range.
Qed.

Lemma well_formed_try_push_move w rb item :
  well_formed Capacity rb ->
  well_formed Capacity (object (fst (try_push_move Capacity w rb item))).
Proof.
  intros (Hh & Ht & Hlen).
  destruct (try_push_move_cases _ Hcap w rb item); simpl;
    unfold well_formed; simpl; rewrite ?length_insert;
    auto using next_in_range.
Qed.

Lemma well_formed_try_pop w rb :
  well_formed Capacity rb ->
  well_formed Capacity (object (try_pop Capacity w rb)).
Proof.
  intros (Hh & Ht & Hlen).
  destruct (try_pop_cases _ Hcap w rb); simpl;
    unfold well_formed; simpl; rewrite ?length_insert;
    auto using next_in_range.
Qed.

Lemma reachable_well_formed rb :
  reachable Capacity rb -> well_formed Capacity rb.
Proof.
  induction 1;
    auto using well_formed_new, well_formed_try_push,
      well_formed_try_push_move, well_formed_try_pop.
Qed.

(** Inside a well-formed buffer every index names a slot. *)
Lemma slot_exists (buf : list T) i :
  length buf = Z.to_nat Capacity -> 0 <= i < Capacity ->
  exists slot, buf !! Z.to_nat i = Some slot.
Proof.
  intros Hlen Hi. apply lookup_lt_is_Some. lia.
Qed.

Lemma size_in_range (rb : RingBuffer T) :
  0 <= size Capacity rb <= Capacity - 1.
Proof.
  rewrite (size_mod _ Hcap). pose proof (capacity_gt_1 _ Hcap).
  pose proof (Z.mod_pos_bound (tail_ rb - head_ rb) Capacity). lia.
Qed.

Lemma size_zero_iff (rb : RingBuffer T) :
  well_formed Capacity rb ->
  size Capacity rb = 0 <-> head_ rb = tail_ rb.
Proof.
  intros (Hh & Ht & _). rewrite (size_mod _ Hcap), (diff_mod _ _ _ Hh Ht).
  destruct (Z.leb_spec (head_ rb) (tail_ rb)); lia.
Qed.

Lemma size_max_iff (rb : RingBuffer T) :
  well_formed Capacity rb ->
  size Capacity rb = Capacity - 1 <-> next (tail_ rb) = head_ rb.
Proof.
  intros (Hh & Ht & _).
  rewrite (size_mod _ Hcap), (diff_mod _ _ _ Hh Ht), (succ_mod _ _ Ht).
  destruct (Z.leb_spec (head_ rb) (tail_ rb));
    destruct (Z.eqb_spec (tail_ rb + 1) Capacity); lia.
Qed.

(** Advancing [tail_] adds one to the size, advancing [head_] takes one
    away. *)
Lemma size_advance_tail h t (buf buf' : list T) :
  0 <= h < Capacity -> 0 <= t < Capacity -> next t <> h ->
  size Capacity (mkRingBuffer h (next t) buf')
  = size Capacity (mkRingBuffer h t buf) + 1.
Proof.
  intros Hh Ht Hf. rewrite !(size_mod _ Hcap). simpl.
  pose proof (next_in_range t) as Hn.
  rewrite (diff_mod _ _ _ Hh Hn), (diff_mod _ _ _ Hh Ht).
  rewrite (succ_mod _ _ Ht) in *.
  destruct (Z.eqb_spec (t + 1) Capacity);
    destruct (Z.leb_spec h t); destruct (Z.leb_spec h 0);
    destruct (Z.leb_spec h (t + 1)); lia.
Qed.

Lemma size_advance_head h t (buf buf' : list T) :
  0 <= h < Capacity -> 0 <= t < Capacity -> h <> t ->
  size Capacity (mkRingBuffer (next h) t buf')
  = size Capacity (mkRingBuffer h t buf) - 1.
Proof.
  intros Hh Ht He. rewrite !(size_mod _ Hcap). simpl.
  pose proof (next_in_range h) as Hn.
  rewrite (diff_mod _ _ _ Hn Ht), (diff_mod _ _ _ Hh Ht).
  rewrite (succ_mod _ _ Hh) in *.
  destruct (Z.eqb_spec (h + 1) Capacity);
    destruct (Z.leb_spec h t); destruct (Z.leb_spec 0 t);
    destruct (Z.leb_spec (h + 1) t); lia.
Qed.

End WellFormed.

(** * The live elements *)

Section Contents.
Variable Capacity : Z.
Hypothesis Hcap : valid_capacity Capacity.
Context {T : Type} `{Element T}.

Local Abbreviation next i := ((i + 1) mod Capacity).

Lemma live_from_succ (buf : list T) i n :
  live_from Capacity buf i (S n) =
  match buf !! Z.to_nat i with
  | Some v => v :: live_from Capacity buf (next i) n
  | None => []
  end.
Proof. simpl. now rewrite (next_index _ Hcap). Qed.

Lemma live_from_length (buf : list T) n : forall i,
  length buf = Z.to_nat Capacity -> 0 <= i < Capacity ->
  length (live_from Capacity buf i n) = n.
Proof.
  induction n as [|n IH]; intros i Hlen Hi; [reflexivity|].
  rewrite live_from_succ.
  destruct (slot_exists Capacity buf i Hlen Hi) as [v ->]. simpl.
  rewrite IH; auto using next_in_range.
Qed.

(** Writing a slot that lies at least [n] steps ahead of [i] does not
    change the [n] slots read from [i]. *)
Lemma live_from_insert_ahead (buf : list T) j y n : forall i,
  0 <= i < Capacity -> 0 <= j < Capacity ->
  Z.of_nat n <= (j - i) mod Capacity ->
  live_from Capacity (<[Z.to_nat j := y]> buf) i n
  = live_from Capacity buf i n.
Proof.
  induction n as [|n IH]; intros i Hi Hj Hn; [reflexivity|].
  rewrite !live_from_succ.
  rewrite (diff_mod _ _ _ Hi Hj) in Hn.
  assert (Hij : j <> i) by (destruct (Z.leb_spec i j); lia).
  rewrite list_lookup_insert_ne by lia.
  destruct (buf !! Z.to_nat i) as [v|]; [|reflexivity].
  f_equal. apply IH; auto using next_in_range.
  pose proof (next_in_range _ Hcap i) as Hni.
  rewrite (diff_mod _ _ _ Hni Hj). rewrite (succ_mod _ _ Hi) in *.
  destruct (Z.eqb_spec (i + 1) Capacity); destruct (Z.leb_spec i j);
    destruct (Z.leb_spec 0 j); destruct (Z.leb_spec (i + 1) j); lia.
Qed.

(** Reading one slot more appends the slot [n] steps ahead. *)
Lemma live_from_snoc (buf : list T) v n : forall i,
  length buf = Z.to_nat Capacity -> 0 <= i < Capacity ->
  buf !! Z.to_nat ((i + Z.of_nat n) mod Capacity) = Some v ->
  live_from Capacity buf i (S n) = live_from Capacity buf i n ++ [v].
Proof.
  induction n as [|n IH]; intros i Hlen Hi Hv.
  - rewrite live_from_succ. simpl in *.
    rewrite Z.add_0_r, Z.mod_small in Hv by lia. now rewrite Hv.
  - rewrite live_from_succ. rewrite (live_from_succ buf i n).
    destruct (slot_exists Capacity buf i Hlen Hi) as [s ->]. simpl.
    f_equal. apply IH; auto using next_in_range.
    rewrite Zplus_mod_idemp_l.
    replace (i + 1 + Z.of_nat n) with (i + Z.of_nat (S n)) by lia.
    exact Hv.
Qed.

(** A stored item joins the live elements at the back. *)
Lemma contents_push_stored (rb : RingBuffer T) (item : T) :
  well_formed Capacity rb -> next (tail_ rb) <> head_ rb ->
  contents Capacity
    (mkRingBuffer (head_ rb) (next (tail_ rb))
       (<[Z.to_nat (tail_ rb) := item]> (buffer_ rb)))
  = contents Capacity rb ++ [item].
Proof.
  intros (Hh & Ht & Hlen) Hf. unfold contents.
  rewrite (size_advance_tail _ Hcap _ _ (buffer_ rb)) by assumption.
  simpl buffer_. simpl head_.
  replace (size Capacity (mkRingBuffer (head_ rb) (tail_ rb) (buffer_ rb)))
    with (size Capacity rb) by reflexivity.
  pose proof (size_in_range _ Hcap rb) as Hsz.
  replace (Z.to_nat (size Capacity rb + 1))
    with (S (Z.to_nat (size Capacity rb))) by lia.
  rewrite (live_from_snoc _ item).
  - f_equal. apply live_from_insert_ahead; auto.
    rewrite Z2Nat.id by lia. rewrite (size_mod _ Hcap). lia.
  - now rewrite length_insert.
  - assumption.
  - rewrite Z2Nat.id by lia. rewrite (size_mod _ Hcap).
    rewrite Zplus_mod_idemp_r.
    replace (head_ rb + (tail_ rb - head_ rb)) with (tail_ rb) by lia.
    rewrite Z.mod_small by lia.
    apply list_lookup_insert_eq. lia.
Qed.

(** Whatever a failed assignment leaves in slot [tail_], the live
    elements are as before. *)
Lemma contents_write_tail (rb : RingBuffer T) (slot' : T) :
  well_formed Capacity rb ->
  contents Capacity
    (mkRingBuffer (head_ rb) (tail_ rb)
       (<[Z.to_nat (tail_ rb) := slot']> (buffer_ rb)))
  = contents Capacity rb.
Proof.
  intros (Hh & Ht & Hlen). unfold contents. simpl buffer_. simpl head_.
  replace (size Capacity (mkRingBuffer (head_ rb) (tail_ rb) _))
    with (size Capacity rb) by reflexivity.
  pose proof (size_in_range _ Hcap rb) as Hsz.
  apply live_from_insert_ahead; auto.
  rewrite Z2Nat.id by lia. rewrite (size_mod _ Hcap). lia.
Qed.

(** The item taken by [try_pop] is the oldest live element, the others
    stay, whatever is left in the vacated slot. *)
Lemma contents_pop_taken (rb : RingBuffer T) (slot slot' : T) :
  well_formed Capacity rb -> head_ rb <> tail_ rb ->
  buffer_ rb !! Z.to_nat (head_ rb) = Some slot ->
  contents Capacity rb
  = slot :: contents Capacity
      (mkRingBuffer (next (head_ rb)) (tail_ rb)
         (<[Z.to_nat (head_ rb) := slot']> (buffer_ rb))).
Proof.
  intros (Hh & Ht & Hlen) He Hslot. unfold contents.
  rewrite (size_advance_head _ Hcap _ _ (buffer_ rb)) by assumption.
  simpl buffer_. simpl head_.
  replace (size Capacity (mkRingBuffer (head_ rb) (tail_ rb) (buffer_ rb)))
    with (size Capacity rb) by reflexivity.
  pose proof (size_in_range _ Hcap rb) as Hsz.
  assert (Hpos : size Capacity rb <> 0).
  { intros Hz. apply He. now apply (size_zero_iff _ Hcap rb). }
  replace (Z.to_nat (size Capacity rb))
    with (S (Z.to_nat (size Capacity rb - 1))) at 1 by lia.
  rewrite live_from_succ, Hslot. f_equal. symmetry.
  pose proof (next_in_range _ Hcap (head_ rb)) as Hn.
  apply live_from_insert_ahead; auto.
  rewrite (diff_mod _ _ _ Hn Hh). rewrite (succ_mod _ _ Hh) in *.
  destruct (Z.eqb_spec (head_ rb + 1) Capacity);
    destruct (Z.leb_spec 0 (head_ rb));
    destruct (Z.leb_spec (head_ rb + 1) (head_ rb)); lia.
Qed.

Lemma contents_length (rb : RingBuffer T) :
  well_formed Capacity rb ->
  Z.of_nat (length (contents Capacity rb)) = size Capacity rb.
Proof.
  intros (Hh & Ht & Hlen). unfold contents.
  rewrite live_from_length by assumption.
  pose proof (size_in_range _ Hcap rb). lia.
Qed.

End Contents.

(** * Runs *)

Section Runs.
Variable Capacity : Z.
Hypothesis Hcap : valid_capacity Capacity.
Context {T : Type} `{Element T}.

Lemma size_new (slots : list T) :
  size Capacity (RingBuffer_new slots) = 0.
Proof.
  rewrite (size_mod _ Hcap). unfold RingBuffer_new, head_, tail_.
  apply Z.mod_0_l. pose proof (capacity_gt_1 _ Hcap). lia.
Qed.

Lemma reachable_run calls : forall e : execution T world,
  reachable Capacity (exec_buffer e) ->
  reachable Capacity (exec_buffer (run Capacity calls e)).
Proof.
  induction calls as [|c calls IH]; intros e He; [exact He|].
  simpl. apply IH. destruct c; simpl; now constructor.
Qed.

Hypothesis Hnothrow : is_nothrow_move_constructible T.

(** The move construction of such a [T] does not raise. *)
Lemma nothrow_never_raises w (slot slot' : T) w' :
  move_construct w slot = (Raised slot', w') -> False.
Proof.
  intros Hr. destruct (Hnothrow w slot) as (r & w'' & Hd). congruence.
Qed.







End Runs.

(** * Interleaved steps *)

Section Interleaved.
Variable Capacity : Z.
Hypothesis Hcap : valid_capacity Capacity.
Context {T : Type} `{Element T}.

Local Abbreviation next i := ((i + 1) mod Capacity).

Lemma assign_slot_value move w (slot item slot' : T) w' :
  assign_slot move w slot item = (Done slot', w') -> slot' = item.
Proof.
  unfold assign_slot. destruct move.
  - destruct (move_assign w slot item) as [[[s i]|[s i]] w1] eqn:Hm;
      [|discriminate].
    intros [= <- <-]. eapply move_assign_value, Hm.
  - apply copy_assign_value.
Qed.

Lemma next_injective a b :
  0 <= a < Capacity -> 0 <= b < Capacity -> next a = next b -> a = b.
Proof.
  intros Ha Hb. rewrite (succ_mod _ _ Ha), (succ_mod _ _ Hb).
  destruct (Z.eqb_spec (a + 1) Capacity);
    destruct (Z.eqb_spec (b + 1) Capacity); lia.
Qed.

(** Publishing a slot that already holds the item. *)
Lemma contents_publish (rb : RingBuffer T) (item : T) :
  well_formed Capacity rb -> next (tail_ rb) <> head_ rb ->
  buffer_ rb !! Z.to_nat (tail_ rb) = Some item ->
  contents Capacity (mkRingBuffer (head_ rb) (next (tail_ rb)) (buffer_ rb))
  = contents Capacity rb ++ [item].
Proof.
  intros Hwf Hnf Hslot.
  rewrite <- (contents_push_stored _ Hcap rb item Hwf Hnf).
  now rewrite list_insert_id.
Qed.

(** The buffer as it will be once the consumer has stored its index. *)
Lemma well_formed_advance_head (rb : RingBuffer T) :
  well_formed Capacity rb ->
  well_formed Capacity
    (mkRingBuffer (next (head_ rb)) (tail_ rb) (buffer_ rb)).
Proof.
  intros (Hh & Ht & Hlen). unfold well_formed. simpl.
  auto using next_in_range.
Qed.

(** The producer's write to slot [tail_] leaves the live elements. *)
Lemma in_flight_write_tail rb p p' (c : consumer_state T) todo todo' h h'
    (w w' : world) slot' :
  well_formed Capacity rb ->
  consumer_invariant (mkSystem rb p c todo h w) ->
  in_flight Capacity
    (mkSystem
       (mkRingBuffer (head_ rb) (tail_ rb)
          (<[Z.to_nat (tail_ rb) := slot']> (buffer_ rb)))
       p' c todo' h' w')
  = in_flight Capacity (mkSystem rb p c todo h w).
Proof.
  intros Hwf Hc. unfold in_flight, consumer_invariant in *. simpl in *.
  destruct c as [|ch|ch|v ch|v];
    try apply (contents_write_tail _ Hcap rb slot' Hwf).
  - destruct Hc as [-> Hne]. f_equal. rewrite (next_index _ Hcap).
    apply (contents_write_tail _ Hcap
             (mkRingBuffer (next (head_ rb)) (tail_ rb) (buffer_ rb))).
    now apply well_formed_advance_head.
  - f_equal. apply (contents_write_tail _ Hcap rb slot' Hwf).
Qed.

(** The producer's store to [tail_] adds the item at the back. *)
Lemma in_flight_publish rb p p' (c : consumer_state T) todo todo' h h'
    (w w' : world) item :
  well_formed Capacity rb -> next (tail_ rb) <> head_ rb ->
  buffer_ rb !! Z.to_nat (tail_ rb) = Some item ->
  consumer_invariant (mkSystem rb p c todo h w) ->
  in_flight Capacity
    (mkSystem (mkRingBuffer (head_ rb) (next (tail_ rb)) (buffer_ rb))
       p' c todo' h' w')
  = in_flight Capacity (mkSystem rb p c todo h w) ++ [item].
Proof.
  intros Hwf Hnf Hslot Hc.
  pose proof Hwf as (Hh & Ht & Hlen).
  unfold in_flight, consumer_invariant in *. simpl in *.
  destruct c as [|ch|ch|v ch|v];
    try apply (contents_publish rb item Hwf Hnf Hslot).
  - destruct Hc as [-> Hne]. simpl. f_equal.
    rewrite (next_index _ Hcap).
    apply (contents_publish
             (mkRingBuffer (next (head_ rb)) (tail_ rb) (buffer_ rb)) item).
    + now apply well_formed_advance_head.
    + simpl. intros Heq. apply next_injective in Heq; congruence.
    + exact Hslot.
  - simpl. f_equal. apply (contents_publish rb item Hwf Hnf Hslot).
Qed.

Lemma producer_step_invariant (s : system T world) :
  system_invariant Capacity s ->
  system_invariant Capacity (producer_step Capacity s).
Proof.
  destruct s as [rb p c todo h w]. intros (Hwf & Hp & Hc & Hfifo).
  pose proof Hwf as (Hh & Ht & Hlen).
  unfold system_invariant, producer_invariant, producer_step in *.
  simpl in *.
  destruct p as [|mv item ct|mv item ct nt|item nt].
  - destruct todo as [|[mv item] rest]; simpl.
    + exact (conj Hwf (conj I (conj Hc Hfifo))).
    + exact (conj Hwf (conj eq_refl (conj Hc Hfifo))).
  - subst ct. rewrite (next_index _ Hcap).
    destruct (Z.eqb_spec (next (tail_ rb)) (head_ rb)) as [Hf|Hf]; simpl.
    + exact (conj Hwf (conj I (conj Hc Hfifo))).
    + exact (conj Hwf (conj (conj eq_refl (conj eq_refl Hf)) (conj Hc Hfifo))).
  - destruct Hp as (-> & -> & Hnf).
    destruct (buffer_ rb !! Z.to_nat (tail_ rb)) as [slot|] eqn:Hslot; simpl.
    2: { exact (conj Hwf (conj I (conj Hc Hfifo))). }
    assert (Hwf' : forall slot',
      well_formed Capacity
        (mkRingBuffer (head_ rb) (tail_ rb)
           (<[Z.to_nat (tail_ rb) := slot']> (buffer_ rb)))).
    { intros slot'. unfold well_formed. simpl. now rewrite length_insert. }
    destruct (assign_slot mv w slot item) as [[slot'|slot'] w'] eqn:Ha; simpl.
    + apply assign_slot_value in Ha as ->.
      split; [apply Hwf'|]. split; [|split].
      * repeat split; auto. apply list_lookup_insert_eq. lia.
      * exact Hc.
      * erewrite in_flight_write_tail; [exact Hfifo | exact Hwf | exact Hc].
    + split; [apply Hwf'|]. split; [exact I|]. split.
      * exact Hc.
      * erewrite in_flight_write_tail; [exact Hfifo | exact Hwf | exact Hc].
  - destruct Hp as (-> & Hnf & Hslot). simpl.
    split; [|split; [exact I|split]].
    + unfold well_formed. simpl. auto using next_in_range.
    + unfold consumer_invariant in *. simpl in *.
      destruct c as [|ch|ch|v ch|v]; auto.
      * destruct Hc as [-> Hne]. split; congruence.
      * destruct Hc as [-> Hne]. split; congruence.
    + erewrite in_flight_publish;
        [| exact Hwf | exact Hnf | exact Hslot | exact Hc].
      rewrite Hfifo. now rewrite app_assoc.
Qed.

Hypothesis Hnothrow : is_nothrow_move_constructible T.

Lemma consumer_step_invariant (s : system T world) :
  system_invariant Capacity s ->
  system_invariant Capacity (consumer_step Capacity s).
Proof.
  destruct s as [rb p c todo h w]. intros (Hwf & Hp & Hc & Hfifo).
  pose proof Hwf as (Hh & Ht & Hlen).
  unfold system_invariant, consumer_invariant, in_flight, consumer_step in *.
  simpl in *.
  destruct c as [|ch|ch|v ch|v].
  - exact (conj Hwf (conj Hp (conj eq_refl Hfifo))).
  - subst ch.
    destruct (Z.eqb_spec (head_ rb) (tail_ rb)) as [He|He]; simpl.
    + exact (conj Hwf (conj Hp (conj I Hfifo))).
    + exact (conj Hwf (conj Hp (conj (conj eq_refl He) Hfifo))).
  - destruct Hc as [-> Hne].
    destruct (buffer_ rb !! Z.to_nat (head_ rb)) as [slot|] eqn:Hslot; simpl.
    2: { exact (conj Hwf (conj Hp (conj I Hfifo))). }
    destruct (move_construct w slot) as [[[item slot']|slot'] w'] eqn:Hm.
    2: { destruct (nothrow_never_raises Hnothrow _ _ _ _ Hm). }
    apply move_construct_value in Hm as ->. simpl.
    split; [|split; [|split; [now split|]]].
    + unfold well_formed. simpl. now rewrite length_insert.
    + unfold producer_invariant in *. simpl in *.
      destruct p as [|mv it ct|mv it ct nt|it nt]; auto.
      destruct Hp as (Hnt & Hnf & Hs). repeat split; auto.
      rewrite list_lookup_insert_ne by lia. exact Hs.
    + rewrite Hfifo. f_equal. rewrite (next_index _ Hcap).
      now apply (contents_pop_taken _ Hcap rb slot slot').
  - destruct Hc as [-> Hne]. rewrite (next_index _ Hcap) in *. simpl.
    split; [|split; [|split; [exact I|]]].
    + unfold well_formed. simpl. auto using next_in_range.
    + unfold producer_invariant in *. simpl in *.
      destruct p as [|mv it ct|mv it ct nt|it nt]; auto.
      * destruct Hp as (Hct & Hnt & Hnf). repeat split; auto.
        subst nt. intros Heq. apply next_injective in Heq; congruence.
      * destruct Hp as (Hnt & Hnf & Hs). repeat split; auto.
        subst nt. intros Heq. apply next_injective in Heq; congruence.
    + exact Hfifo.
  - destruct (move_construct w v) as [[[value v']|v'] w'] eqn:Hm.
    2: { destruct (nothrow_never_raises Hnothrow _ _ _ _ Hm). }
    apply move_construct_value in Hm as ->. simpl.
    split; [exact Hwf|]. split; [exact Hp|]. split; [exact I|].
    rewrite Hfifo, <- app_assoc. reflexivity.
Qed.

Lemma run_schedule_invariant schedule : forall s : system T world,
  system_invariant Capacity s ->
  system_invariant Capacity (run_schedule Capacity schedule s).
Proof.
  induction schedule as [|t schedule IH]; intros s Hs; [exact Hs|].
  simpl. apply IH. destruct t; simpl.
  - now apply producer_step_invariant.
  - now apply consumer_step_invariant.
Qed.

Lemma system_invariant_new w (slots : list T) pushes :
  length slots = Z.to_nat Capacity ->
  system_invariant Capacity (system_new w slots pushes).
Proof.
  intros Hlen. unfold system_invariant, system_new. simpl.
  split; [apply (well_formed_new _ Hcap slots Hlen)|].
  split; [exact I|]. split; [exact I|].
  unfold in_flight, contents. simpl consumer. simpl shared.
  now rewrite (size_new _ Hcap).
Qed.

End Interleaved.

(** * Calls as schedules *)

Section CallsAsSchedules.
Variable Capacity : Z.
Context {T : Type} `{Element T}.

Lemma run_schedule_app schedule1 schedule2 (s : system T world) :
  run_schedule Capacity (schedule1 ++ schedule2) s
  = run_schedule Capacity schedule2 (run_schedule Capacity schedule1 s).
Proof. apply fold_left_app. Qed.

(** Left alone, the producer's steps through one call are [try_push]. *)
Lemma producer_steps_try_push rb c move item rest h (w : world) :
  exists n,
    run_schedule Capacity (repeat producer_thread n)
      (mkSystem rb ProducerIdle c ((move, item) :: rest) h w)
    = let r := if move then fst (try_push_move Capacity w rb item)
               else try_push Capacity w rb item in
      mkSystem (object r) ProducerIdle c rest (log_push (returned r) item h)
        (world_after r).
Proof.
  unfold try_push, try_push_move.
  destruct (Z.land (wrap (tail_ rb + 1)) (kIndexMask Capacity) =? head_ rb)
    eqn:Hfull.
  { exists 2%nat. simpl. unfold producer_step at 2. simpl.
    unfold producer_step. simpl. rewrite Hfull. now destruct move. }
  destruct (buffer_ rb !! Z.to_nat (tail_ rb)) as [slot|] eqn:Hslot.
  2: { exists 3%nat. simpl. unfold producer_step at 3. simpl.
       unfold producer_step at 2. simpl. rewrite Hfull.
       unfold producer_step. simpl. rewrite Hslot. now destruct move. }
  destruct move.
  - destruct (move_assign w slot item)
      as [[[slot' item']|[slot' item']] w'] eqn:Hm.
    + exists 4%nat. simpl. unfold producer_step at 4. simpl.
      unfold producer_step at 3. simpl. rewrite Hfull.
      unfold producer_step at 2. simpl. rewrite Hslot.
      unfold assign_slot. rewrite Hm. reflexivity.
    + exists 3%nat. simpl. unfold producer_step at 3. simpl.
      unfold producer_step at 2. simpl. rewrite Hfull.
      unfold producer_step. simpl. rewrite Hslot.
      unfold assign_slot. rewrite Hm. reflexivity.
  - destruct (copy_assign w slot item) as [[slot'|slot'] w'] eqn:Hm.
    + exists 4%nat. simpl. unfold producer_step at 4. simpl.
      unfold producer_step at 3. simpl. rewrite Hfull.
      unfold producer_step at 2. simpl. rewrite Hslot.
      unfold assign_slot. rewrite Hm. reflexivity.
    + exists 3%nat. simpl. unfold producer_step at 3. simpl.
      unfold producer_step at 2. simpl. rewrite Hfull.
      unfold producer_step. simpl. rewrite Hslot.
      unfold assign_slot. rewrite Hm. reflexivity.
Qed.

(** Left alone, the consumer's steps through one call are [try_pop]. *)
Lemma consumer_steps_try_pop rb p todo h (w : world) :
  exists n,
    run_schedule Capacity (repeat consumer_thread n)
      (mkSystem rb p ConsumerIdle todo h w)
    = let r := try_pop Capacity w rb in
      mkSystem (object r) p ConsumerIdle todo (log_pop (returned r) h)
        (world_after r).
Proof.
  unfold try_pop.
  destruct (head_ rb =? tail_ rb) eqn:Hempty.
  { exists 2%nat. simpl. unfold consumer_step at 2. simpl.
    unfold consumer_step. simpl. now rewrite Hempty. }
  destruct (buffer_ rb !! Z.to_nat (head_ rb)) as [slot|] eqn:Hslot.
  2: { exists 3%nat. simpl. unfold consumer_step at 3. simpl.
       unfold consumer_step at 2. simpl. rewrite Hempty.
       unfold consumer_step. simpl. now rewrite Hslot. }
  destruct (move_construct w slot) as [[[item slot']|slot'] w1] eqn:Hm.
  - exists 5%nat. simpl. unfold consumer_step at 5. simpl.
    unfold consumer_step at 4. simpl. rewrite Hempty.
    unfold consumer_step at 3. simpl. rewrite Hslot, Hm.
    unfold consumer_step at 2. simpl.
    unfold consumer_step. simpl.
    destruct (move_construct w1 item) as [[[value item']|item'] w2];
      reflexivity.
  - exists 3%nat. simpl. unfold consumer_step at 3. simpl.
    unfold consumer_step at 2. simpl. rewrite Hempty.
    unfold consumer_step. simpl. rewrite Hslot, Hm. reflexivity.
Qed.

(** Every sequence of calls is a schedule in which no two calls overlap. *)
Lemma run_as_schedule calls : forall rb h (w : world) rest,
  exists schedule,
    run_schedule Capacity schedule
      (mkSystem rb ProducerIdle ConsumerIdle (pushes_of calls ++ rest) h w)
    = let e := run Capacity calls (mkExecution rb h w) in
      mkSystem (exec_buffer e) ProducerIdle ConsumerIdle rest
        (exec_history e) (exec_world e).
Proof.
  induction calls as [|c calls IH]; intros rb h w rest.
  { exists []. reflexivity. }
  destruct c as [item | item |]; simpl.
  - destruct (producer_steps_try_push rb ConsumerIdle false item
                (pushes_of calls ++ rest) h w) as [n Hn].
    destruct (IH (object (try_push Capacity w rb item))
                (log_push (returned (try_push Capacity w rb item)) item h)
                (world_after (try_push Capacity w rb item)) rest)
      as [schedule Hs].
    exists (repeat producer_thread n ++ schedule).
    rewrite run_schedule_app, Hn. exact Hs.
  - destruct (producer_steps_try_push rb ConsumerIdle true item
                (pushes_of calls ++ rest) h w) as [n Hn].
    destruct (IH (object (fst (try_push_move Capacity w rb item)))
                (log_push (returned (fst (try_push_move Capacity w rb item)))
                   item h)
                (world_after (fst (try_push_move Capacity w rb item))) rest)
      as [schedule Hs].
    exists (repeat producer_thread n ++ schedule).
    rewrite run_schedule_app, Hn. exact Hs.
  - destruct (consumer_steps_try_pop rb ProducerIdle
                (pushes_of calls ++ rest) h w) as [n Hn].
    destruct (IH (object (try_pop Capacity w rb))
                (log_pop (returned (try_pop Capacity w rb)) h)
                (world_after (try_pop Capacity w rb)) rest)
      as [schedule Hs].
    exists (repeat consumer_thread n ++ schedule).
    rewrite run_schedule_app, Hn. exact Hs.
Qed.

End CallsAsSchedules.

(** * The properties of the specification *)

(** The tests of the suite that run on one thread, evaluated. *)

(** "Fill to capacity": seven pushes into eight slots succeed, the buffer
    is then full and of size 7, the eighth push is refused, and seven
    pops return the values in order. *)
Example fill_to_capacity_test :
  let pushes := map (fun i => PushCopy (Z.of_nat i)) (seq 0 7) in
  let filled := run_new (H:=int_Element) 8 tt (replicate 8 0) pushes in
  let refused := try_push (H:=int_Element) 8 tt (exec_buffer filled) 999 in
  let drained := run (H:=int_Element) 8 (repeat Pop 7)
                   (mkExecution (object refused) (exec_history filled) tt) in
  full 8 (exec_buffer filled) = true /\
  size 8 (exec_buffer filled) = 7 /\
  returned refused = Returns false /\
  popped (exec_history drained) = [0; 1; 2; 3; 4; 5; 6] /\
  empty (exec_buffer drained) = true.
Proof. vm_compute. repeat split. Qed.

(** "Minimum capacity buffer": two slots hold one element. *)
Example minimum_capacity_test :
  let rb0 := RingBuffer_new [0; 0] in
  let pushed := try_push (H:=int_Element) 2 tt rb0 42 in
  let refused := try_push (H:=int_Element) 2 tt (object pushed) 43 in
  let taken := try_pop (H:=int_Element) 2 tt (object refused) in
  empty rb0 = true /\ full 2 rb0 = false /\ capacity 2 = 1 /\
  returned pushed = Returns true /\
  full 2 (object pushed) = true /\ size 2 (object pushed) = 1 /\
  returned refused = Returns false /\
  returned taken = Returns (Some 42) /\
  empty (object taken) = true.
Proof. vm_compute. repeat split. Qed.

(** "Move construction": a [TestMessage] pushed with [std::move] comes
    back with both fields; the caller's message is left moved-from. *)
Example move_semantics_test :
  let msg := mkTestMessage 1 "Hello World"%string in
  let E := TestMessage_Element in
  let rb0 := RingBuffer_new (replicate 16 (mkTestMessage 0 EmptyString)) in
  let pushed := try_push_move (H:=E) 16 0%nat rb0 msg in
  let retrieved := try_pop (H:=E) 16 0%nat (object (fst pushed)) in
  returned (fst pushed) = Returns true /\
  snd pushed = mkTestMessage 1 EmptyString /\
  returned retrieved = Returns (Some (mkTestMessage 1 "Hello World"%string)).
Proof. vm_compute. repeat split. Qed.

(** "Multiple cycles", the wrap-around test: on a buffer of 8 slots,
    100 rounds of five pushes and five pops return the numbers 0..499 in
    order and leave the buffer empty. *)
Example wraparound_test :
  let e := run_new (H:=int_Element) 8 tt (replicate 8 0) (wraparound_calls 100 5) in
  popped (exec_history e) = map Z.of_nat (seq 0 500) /\
  accepted (exec_history e) = map Z.of_nat (seq 0 500) /\
  empty (exec_buffer e) = true.
Proof. vm_compute. repeat split. Qed.

(** What [try_pop] does when the construction of its return value
    raises.  The element type is copied when moved; its value is a text
    of thirty-two characters, each copy of which allocates, and the
    allocator grants two allocations.  The value is pushed (one left)
    and [try_pop] is called: the move out of the slot completes (none
    left), [head_] is stored, the construction of the returned value
    raises.  The call has raised, the buffer is
    empty and the value was returned to nobody. *)
Example try_pop_raises_after_store :
  let E := Blob_Element in
  let rb0 := RingBuffer_new [EmptyString; EmptyString] in
  let pushed := try_push (H:=E) 2 2%nat rb0 long_text in
  let taken := try_pop (H:=E) 2 (world_after pushed) (object pushed) in
  returned pushed = Returns true /\
  size 2 (object pushed) = 1 /\
  returned taken = Raises /\
  head_ (object taken) = 1 /\
  size 2 (object taken) = 0.
Proof. vm_compute. repeat split. Qed.







(** C2.  In every state reachable from the constructed one by
    [try_push] and [try_pop] calls: [head_] and [tail_] lie in
    [0, Capacity); [empty()] is true exactly when [head_ = tail_];
    [full()] is true exactly when [(tail_ + 1) mod Capacity = head_];
    [size()] is [(tail_ - head_) mod Capacity], a value between [0] and
    [Capacity - 1]. *)
Theorem reachable_state_invariants (Capacity : Z) (T : Type) `{Element T}
    (rb : RingBuffer T) :
  valid_capacity Capacity ->
  reachable Capacity rb ->
  0 <= head_ rb < Capacity /\
  0 <= tail_ rb < Capacity /\
  (empty rb = true <-> head_ rb = tail_ rb) /\
  (full Capacity rb = true <-> (tail_ rb + 1) mod Capacity = head_ rb) /\
  size Capacity rb = (tail_ rb - head_ rb) mod Capacity /\
  0 <= size Capacity rb <= Capacity - 1.
Proof.
  intros Hcap Hreach.
  destruct (reachable_well_formed Capacity Hcap rb Hreach) as (Hh & Ht & _).
  repeat split; try tauto.
  - unfold empty. apply Z.eqb_eq.
  - unfold empty. apply Z.eqb_eq.
  - rewrite (full_mod Capacity Hcap). apply Z.eqb_eq.
  - rewrite (full_mod Capacity Hcap). apply Z.eqb_eq.
  - apply (size_mod Capacity Hcap).
  - apply (size_in_range Capacity Hcap).
  - apply (size_in_range Capacity Hcap).
Qed.

Lemma reachable_state_invariants_witness :
  let rb := object (try_push (H:=int_Element) 8 tt (RingBuffer_new (replicate 8 0)) 42) in
  0 <= head_ rb < 8 /\
  0 <= tail_ rb < 8 /\
  (empty rb = true <-> head_ rb = tail_ rb) /\
  (full 8 rb = true <-> (tail_ rb + 1) mod 8 = head_ rb) /\
  size 8 rb = (tail_ rb - head_ rb) mod 8 /\
  0 <= size 8 rb <= 8 - 1.
Proof.
  apply (reachable_state_invariants 8 Z).
  - literal_capacity.
  - apply reachable_try_push, reachable_new. reflexivity.
Defined.




(** C7.  [capacity()] is the constant [Capacity - 1] and [buffer_size()]
    the constant [Capacity]; both are static and do not read the state. *)
Theorem capacity_constants (Capacity : Z) :
  valid_capacity Capacity ->
  capacity Capacity = Capacity - 1 /\ buffer_size Capacity = Capacity.
Proof.
  intros Hcap. split; [|reflexivity].
  apply (capacity_pred_no_wrap Capacity Hcap).
Qed.

Lemma capacity_constants_witness :
  capacity 1024 = 1024 - 1 /\ buffer_size 1024 = 1024.
Proof. apply (capacity_constants 1024). literal_capacity. Defined.

(** C8.  In every state and every world, [try_push] (copy or move)
    leaves [head_] as it is and [try_pop] leaves [tail_] as it is; the
    index a call may write either stays or becomes its successor modulo
    [Capacity]; for an index inside the array that means it does not
    decrease, except from [Capacity - 1] to [0]. *)
Theorem index_ownership (Capacity : Z) (T : Type) `{Element T}
    (w : world) (rb : RingBuffer T) (item : T) :
  valid_capacity Capacity ->
  let after_copy := object (try_push Capacity w rb item) in
  let after_move := object (fst (try_push_move Capacity w rb item)) in
  let after_pop := object (try_pop Capacity w rb) in
  head_ after_copy = head_ rb /\
  head_ after_move = head_ rb /\
  tail_ after_pop = tail_ rb /\
  (tail_ after_copy = tail_ rb \/
   tail_ after_copy = (tail_ rb + 1) mod Capacity) /\
  (tail_ after_move = tail_ rb \/
   tail_ after_move = (tail_ rb + 1) mod Capacity) /\
  (head_ after_pop = head_ rb \/
   head_ after_pop = (head_ rb + 1) mod Capacity) /\
  (0 <= tail_ rb < Capacity ->
   (tail_ rb <= tail_ after_copy \/
    tail_ rb = Capacity - 1 /\ tail_ after_copy = 0) /\
   (tail_ rb <= tail_ after_move \/
    tail_ rb = Capacity - 1 /\ tail_ after_move = 0)) /\
  (0 <= head_ rb < Capacity ->
   head_ rb <= head_ after_pop \/
   head_ rb = Capacity - 1 /\ head_ after_pop = 0).
Proof.
  intros Hcap after_copy after_move after_pop.
  assert (Hstep : forall i i', 0 <= i < Capacity ->
            i' = i \/ i' = (i + 1) mod Capacity ->
            i <= i' \/ i = Capacity - 1 /\ i' = 0).
  { intros i i' Hi [-> | ->]; [lia|]. rewrite (succ_mod _ _ Hi).
    destruct (Z.eqb_spec (i + 1) Capacity); lia. }
  assert (Hcopy : head_ after_copy = head_ rb /\
            (tail_ after_copy = tail_ rb \/
             tail_ after_copy = (tail_ rb + 1) mod Capacity)).
  { subst after_copy.
    destruct (try_push_cases _ Hcap w rb item); simpl; auto. }
  assert (Hmove : head_ after_move = head_ rb /\
            (tail_ after_move = tail_ rb \/
             tail_ after_move = (tail_ rb + 1) mod Capacity)).
  { subst after_move.
    destruct (try_push_move_cases _ Hcap w rb item); simpl; auto. }
  assert (Hpop : tail_ after_pop = tail_ rb /\
            (head_ after_pop = head_ rb \/
             head_ after_pop = (head_ rb + 1) mod Capacity)).
  { subst after_pop.
    destruct (try_pop_cases _ Hcap w rb); simpl; auto. }
  destruct Hcopy as [Hc1 Hc2], Hmove as [Hm1 Hm2], Hpop as [Hp1 Hp2].
  repeat split; auto.
Qed.

Lemma index_ownership_witness :
  let w : @world Z int_Element := tt in
  let rb := object (try_push 4 w (RingBuffer_new [0; 0; 0; 0]) 1) in
  let item := 2 in
  let after_copy := object (try_push 4 w rb item) in
  let after_move := object (fst (try_push_move 4 w rb item)) in
  let after_pop := object (try_pop 4 w rb) in
  head_ after_copy = head_ rb /\
  head_ after_move = head_ rb /\
  tail_ after_pop = tail_ rb /\
  (tail_ after_copy = tail_ rb \/ tail_ after_copy = (tail_ rb + 1) mod 4) /\
  (tail_ after_move = tail_ rb \/ tail_ after_move = (tail_ rb + 1) mod 4) /\
  (head_ after_pop = head_ rb \/ head_ after_pop = (head_ rb + 1) mod 4) /\
  (0 <= tail_ rb < 4 ->
   (tail_ rb <= tail_ after_copy \/ tail_ rb = 4 - 1 /\ tail_ after_copy = 0) /\
   (tail_ rb <= tail_ after_move \/ tail_ rb = 4 - 1 /\ tail_ after_move = 0)) /\
  (0 <= head_ rb < 4 ->
   head_ rb <= head_ after_pop \/ head_ rb = 4 - 1 /\ head_ after_pop = 0).
Proof.
  intros w rb item.
  apply (index_ownership 4 Z w rb item). literal_capacity.
Defined.

(** C10, as stated, fails.  A [TestMessage] of thirty-two characters,
    a freshly constructed buffer, an allocator that refuses: the copy
    overload raises and leaves [tail_] at [0], the move
    overload, which does not allocate, returns [true] and stores [1]. *)
Lemma overloads_differ_when_copy_raises :
  let E := TestMessage_Element in
  let rb := RingBuffer_new
              [mkTestMessage 0 EmptyString; mkTestMessage 0 EmptyString] in
  let item := mkTestMessage 7 long_text in
  let copy := try_push (H:=E) 2 0%nat rb item in
  let move := fst (try_push_move (H:=E) 2 0%nat rb item) in
  reachable (H:=E) 2 rb /\
  returned copy = Raises /\ tail_ (object copy) = 0 /\
  returned move = Returns true /\ tail_ (object move) = 1 /\
  returned copy <> returned move.
Proof.
  intros E rb item copy move.
  split; [|split; [|split; [|split; [|split]]]].
  - apply reachable_new. reflexivity.
  - reflexivity.
  - reflexivity.
  - reflexivity.
  - reflexivity.
  - vm_compute. intros Heq. discriminate Heq.
Qed.

(** C10, amended.  The two [try_push] overloads agree in every state,
    every world and for every item as far as this: one finds the buffer
    full exactly when the other does (and then both return [false]);
    whenever both return, they return the same boolean and leave the
    same buffer behind, the same [tail_] included; on success each
    leaves the pushed value in the slot [tail_] named before the call.
    For a [T] whose assignments do not raise the two outcomes are equal
    outright. *)
Theorem try_push_overloads_agree (Capacity : Z) (T : Type) `{Element T}
    (w : world) (rb : RingBuffer T) (item : T) :
  let copy := try_push Capacity w rb item in
  let move := fst (try_push_move Capacity w rb item) in
  (returned copy = Returns false <-> returned move = Returns false) /\
  (forall b b', returned copy = Returns b -> returned move = Returns b' ->
     b = b' /\ object copy = object move) /\
  (returned copy = Returns true ->
     buffer_ (object copy) !! Z.to_nat (tail_ rb) = Some item) /\
  (returned move = Returns true ->
     buffer_ (object move) !! Z.to_nat (tail_ rb) = Some item) /\
  (is_nothrow_copy_assignable T -> is_nothrow_move_assignable T ->
     returned copy = returned move /\ object copy = object move).
Proof.
  intros copy move. subst copy move. unfold try_push, try_push_move.
  destruct (_ =? head_ rb); simpl.
  { repeat split; intros; try discriminate; congruence. }
  destruct (buffer_ rb !! Z.to_nat (tail_ rb)) as [slot|] eqn:Hslot; simpl.
  2: { repeat split; intros; try discriminate; congruence. }
  apply lookup_lt_Some in Hslot.
  destruct (copy_assign w slot item) as [[c|c] wc] eqn:Hc;
    destruct (move_assign w slot item) as [[[m m']|[m m']] wm] eqn:Hm; simpl;
    try (apply copy_assign_value in Hc as ->);
    try (apply move_assign_value in Hm as ->);
    repeat split; intros; try discriminate; try congruence;
    try (now apply list_lookup_insert_eq).
  all: match goal with
       | Hc : copy_assign _ _ _ = (Raised _, _),
         Hno : is_nothrow_copy_assignable _ |- _ =>
           destruct (Hno w slot item) as (? & ? & ?); congruence
       | Hm : move_assign _ _ _ = (Raised _, _),
         Hno : is_nothrow_move_assignable _ |- _ =>
           destruct (Hno w slot item) as (? & ? & ?); congruence
       end.
Qed.

Lemma try_push_overloads_agree_witness :
  let w : @world Z int_Element := tt in
  let rb := object (try_push 4 w (RingBuffer_new [0; 0; 0; 0]) 1) in
  let item := 2 in
  let copy := try_push 4 w rb item in
  let move := fst (try_push_move 4 w rb item) in
  (returned copy = Returns false <-> returned move = Returns false) /\
  (forall b b', returned copy = Returns b -> returned move = Returns b' ->
     b = b' /\ object copy = object move) /\
  (returned copy = Returns true ->
     buffer_ (object copy) !! Z.to_nat (tail_ rb) = Some item) /\
  (returned move = Returns true ->
     buffer_ (object move) !! Z.to_nat (tail_ rb) = Some item) /\
  (is_nothrow_copy_assignable Z -> is_nothrow_move_assignable Z ->
     returned copy = returned move /\ object copy = object move).
Proof.
  intros w rb item. apply (try_push_overloads_agree 4 Z w rb item).
Defined.







(** * Overlapping calls

    The properties above take the calls one after the other.  Below the
    producer and the consumer take their steps in any order. *)

(** A schedule in which every [try_pop] begins while a [try_push] is
    under way: three values pushed into four slots come out in order. *)
Example overlapping_calls_test :
  let P := producer_thread in
  let C := consumer_thread in
  let s := run_schedule (H:=int_Element) 4
             [P; C; P; C; P; P; C; P; C; P; C; C; P; C; P; C; P; C; P; C; C;
              C; C; P; P; C; C; C; C]
             (system_new tt [0; 0; 0; 0] [(false, 1); (true, 2); (false, 3)]) in
  accepted (seen s) = [1; 2; 3] /\
  popped (seen s) = [1; 2; 3] /\
  producer s = ProducerIdle /\
  consumer s = ConsumerIdle /\
  empty (shared s) = true.
Proof. vm_compute. repeat split. Qed.

(** X14.  First in, first out, under every schedule of one producer and
    one consumer: at every point of the execution the values accepted
    so far are the values popped so far followed by the live ones (an
    item the consumer has moved out and not yet returned counts as
    live), so the popped values are always a prefix of the accepted
    ones; and both indices stay inside the array.  [T] is any type for
    which [try_pop] is [noexcept]. *)
Theorem overlapping_calls_in_order (Capacity : Z) (T : Type) `{Element T}
    (w : world) (slots : list T) (pushes : list (bool * T))
    (schedule : list thread) :
  valid_capacity Capacity ->
  is_nothrow_move_constructible T ->
  length slots = Z.to_nat Capacity ->
  let s := run_schedule Capacity schedule (system_new w slots pushes) in
  accepted (seen s) = popped (seen s) ++ in_flight Capacity s /\
  popped (seen s) = take (length (popped (seen s))) (accepted (seen s)) /\
  well_formed Capacity (shared s).
Proof.
  intros Hcap Hnothrow Hlen s.
  destruct (run_schedule_invariant Capacity Hcap Hnothrow schedule _
              (system_invariant_new Capacity Hcap w slots pushes Hlen))
    as (Hwf & _ & _ & Hfifo).
  fold s in Hwf, Hfifo.
  split; [exact Hfifo|]. split; [|exact Hwf].
  rewrite Hfifo. now rewrite take_app_length.
Qed.

Lemma overlapping_calls_in_order_witness :
  let P := producer_thread in
  let C := consumer_thread in
  let s := run_schedule (H:=int_Element) 4
             [P; C; P; C; P; P; C; P; C; P; C; C; P; C; P; C; P]
             (system_new tt [0; 0; 0; 0] [(false, 1); (true, 2); (false, 3)]) in
  accepted (seen s) = popped (seen s) ++ in_flight 4 s /\
  popped (seen s) = take (length (popped (seen s))) (accepted (seen s)) /\
  well_formed 4 (shared s).
Proof.
  apply (overlapping_calls_in_order 4 Z (H:=int_Element) tt [0; 0; 0; 0]
           [(false, 1); (true, 2); (false, 3)]).
  - literal_capacity.
  - intros w src. exists (src, src), w. reflexivity.
  - reflexivity.
Defined.

(** A sequence of calls made one after the other is one of the
    schedules. *)
Theorem calls_are_a_schedule (Capacity : Z) (T : Type) `{Element T}
    (w : world) (slots : list T) (calls : list (call T)) :
  exists schedule,
    run_schedule Capacity schedule (system_new w slots (pushes_of calls))
    = let e := run_new Capacity w slots calls in
      mkSystem (exec_buffer e) ProducerIdle ConsumerIdle []
        (exec_history e) (exec_world e).
Proof.
  destruct (run_as_schedule Capacity calls (RingBuffer_new slots)
              (mkHistory [] []) w []) as [schedule Hs].
  exists schedule. unfold system_new. rewrite app_nil_r in Hs. exact Hs.
Qed.

(** * The member functions and the live elements *)

(** X1.  The [static_assert] on [Capacity] accepts exactly the powers of
    two from [2] to [2^63]: for a [std::size_t] value, the test
    [(Capacity & (Capacity - 1)) == 0 && Capacity > 1] holds if and only
    if [Capacity = 2^k] for some [1 <= k < 64].  In particular [0], [1]
    and every number with two bits set are refused. *)
Theorem static_assert_accepts_powers_of_two (Capacity : Z) :
  0 <= Capacity < size_t_modulus ->
  static_assert_capacity Capacity = true <->
  exists k, 1 <= k < size_t_bits /\ Capacity = 2 ^ k.
Proof.
  intros Hr. split.
  - intros Hsa. apply capacity_power_of_two. now split.
  - intros (k & [Hk1 Hk2] & ->). unfold size_t_bits in Hk2.
    assert (Hlt : 2 ^ k < size_t_modulus)
      by (apply Z.pow_lt_mono_r; unfold size_t_bits; lia).
    assert (Hge : 2 ^ 1 <= 2 ^ k) by (apply Z.pow_le_mono_r; lia).
    unfold static_assert_capacity, wrap.
    rewrite (Z.mod_small (2 ^ k - 1)) by lia.
    replace (2 ^ k - 1) with (Z.ones k) by (rewrite Z.ones_equiv; lia).
    rewrite Z.land_ones, Z_mod_same_full by lia.
    apply andb_true_intro. split; [reflexivity | lia].
Qed.

Lemma static_assert_accepts_powers_of_two_witness :
  static_assert_capacity 1024 = true <->
  exists k, 1 <= k < size_t_bits /\ 1024 = 2 ^ k.
Proof.
  apply (static_assert_accepts_powers_of_two 1024).
  split; [discriminate | reflexivity].
Defined.

(** X2.  With a [Capacity] the [static_assert] accepts, masking with
    [kIndexMask] is reduction modulo [Capacity]: for every integer [x],
    taken as a [std::size_t] (so also for a difference [tail - head]
    that is negative and wraps around [2^64]), [x & kIndexMask] is
    [x mod Capacity], a valid index. *)
Theorem index_mask_is_modulo (Capacity x : Z) :
  valid_capacity Capacity ->
  Z.land (wrap x) (kIndexMask Capacity) = x mod Capacity /\
  0 <= Z.land (wrap x) (kIndexMask Capacity) < Capacity.
Proof.
  intros Hcap. rewrite (mask_wrap Capacity Hcap). split; [reflexivity|].
  apply Z.mod_pos_bound. pose proof (capacity_gt_1 _ Hcap). lia.
Qed.

Lemma index_mask_is_modulo_witness :
  Z.land (wrap (3 - 5)) (kIndexMask 8) = (3 - 5) mod 8 /\
  0 <= Z.land (wrap (3 - 5)) (kIndexMask 8) < 8.
Proof. apply (index_mask_is_modulo 8 (3 - 5)). literal_capacity. Defined.

Section Effects.
Variable Capacity : Z.
Hypothesis Hcap : valid_capacity Capacity.
Context {T : Type} `{Element T}.

Local Abbreviation next i := ((i + 1) mod Capacity).

Lemma full_iff_size (rb : RingBuffer T) :
  well_formed Capacity rb ->
  full Capacity rb = true <-> size Capacity rb = Capacity - 1.
Proof.
  intros Hwf. rewrite (full_mod _ Hcap), Z.eqb_eq.
  symmetry. now apply size_max_iff.
Qed.

Lemma empty_iff_size (rb : RingBuffer T) :
  well_formed Capacity rb ->
  empty rb = true <-> size Capacity rb = 0.
Proof.
  intros Hwf. unfold empty. rewrite Z.eqb_eq.
  symmetry. now apply size_zero_iff.
Qed.

Lemma contents_nil_iff (rb : RingBuffer T) :
  well_formed Capacity rb ->
  contents Capacity rb = [] <-> head_ rb = tail_ rb.
Proof.
  intros Hwf. rewrite <- (size_zero_iff _ Hcap rb Hwf).
  rewrite <- (contents_length _ Hcap rb Hwf).
  destruct (contents Capacity rb); simpl; split; intros; try lia; congruence.
Qed.

Lemma contents_new (slots : list T) :
  contents Capacity (RingBuffer_new slots) = [].
Proof. unfold contents. now rewrite (size_new _ Hcap). Qed.

(** What [try_push(const T&)] does to the live elements. *)
Lemma try_push_effect w (rb : RingBuffer T) item :
  well_formed Capacity rb ->
  let r := try_push Capacity w rb item in
  returned r <> Undefined /\
  (returned r = Returns true ->
   contents Capacity (object r) = contents Capacity rb ++ [item] /\
   size Capacity (object r) = size Capacity rb + 1) /\
  (returned r <> Returns true ->
   contents Capacity (object r) = contents Capacity rb /\
   size Capacity (object r) = size Capacity rb).
Proof.
  intros Hwf r. subst r. pose proof Hwf as (Hh & Ht & Hlen).
  destruct (try_push_cases _ Hcap w rb item)
    as [Hf|Hf Hs|slot slot' w' Hf Hs Hr|slot w' Hf Hs Hd]; simpl.
  - repeat split; try discriminate; reflexivity.
  - destruct (slot_exists Capacity (buffer_ rb) _ Hlen Ht) as [s Hs'].
    congruence.
  - split; [discriminate|]. split; [discriminate|]. intros _.
    split; [now apply contents_write_tail | reflexivity].
  - split; [discriminate|]. split; [|congruence]. intros _. split.
    + now apply contents_push_stored.
    + now rewrite (size_advance_tail _ Hcap _ _ (buffer_ rb)).
Qed.

(** The same for [try_push(T&&)]. *)
Lemma try_push_move_effect w (rb : RingBuffer T) item :
  well_formed Capacity rb ->
  let r := fst (try_push_move Capacity w rb item) in
  returned r <> Undefined /\
  (returned r = Returns true ->
   contents Capacity (object r) = contents Capacity rb ++ [item] /\
   size Capacity (object r) = size Capacity rb + 1) /\
  (returned r <> Returns true ->
   contents Capacity (object r) = contents Capacity rb /\
   size Capacity (object r) = size Capacity rb).
Proof.
  intros Hwf r. subst r. pose proof Hwf as (Hh & Ht & Hlen).
  destruct (try_push_move_cases _ Hcap w rb item)
    as [Hf|Hf Hs|slot slot' item' w' Hf Hs Hr|slot item' w' Hf Hs Hd]; simpl.
  - repeat split; try discriminate; reflexivity.
  - destruct (slot_exists Capacity (buffer_ rb) _ Hlen Ht) as [s Hs'].
    congruence.
  - split; [discriminate|]. split; [discriminate|]. intros _.
    split; [now apply contents_write_tail | reflexivity].
  - split; [discriminate|]. split; [|congruence]. intros _. split.
    + now apply contents_push_stored.
    + now rewrite (size_advance_tail _ Hcap _ _ (buffer_ rb)).
Qed.

(** Whatever the move out of slot [head_] leaves there, the live
    elements behind the oldest are as before. *)
Lemma contents_write_head (rb : RingBuffer T) (slot' : T) :
  well_formed Capacity rb -> head_ rb <> tail_ rb ->
  let rb' := mkRingBuffer (head_ rb) (tail_ rb)
               (<[Z.to_nat (head_ rb) := slot']> (buffer_ rb)) in
  length (contents Capacity rb') = length (contents Capacity rb) /\
  drop 1 (contents Capacity rb') = drop 1 (contents Capacity rb).
Proof.
  intros Hwf He rb'. pose proof Hwf as (Hh & Ht & Hlen).
  assert (Hwf' : well_formed Capacity rb').
  { unfold well_formed, rb'. simpl. now rewrite length_insert. }
  split.
  - apply Nat2Z.inj. now rewrite !(contents_length _ Hcap).
  - destruct (slot_exists Capacity (buffer_ rb) _ Hlen Hh) as [slot Hs].
    rewrite (contents_pop_taken _ Hcap rb slot slot' Hwf He Hs).
    assert (Hs' : buffer_ rb' !! Z.to_nat (head_ rb') = Some slot').
    { unfold rb'. simpl. apply list_lookup_insert_eq. lia. }
    rewrite (contents_pop_taken _ Hcap rb' slot' slot' Hwf' He Hs').
    unfold rb'. simpl. now rewrite list_insert_insert_eq.
Qed.

(** What [try_pop()] does to the live elements. *)
Lemma try_pop_effect w (rb : RingBuffer T) :
  well_formed Capacity rb ->
  let r := try_pop Capacity w rb in
  returned r <> Undefined /\
  (forall v, returned r = Returns (Some v) ->
   contents Capacity rb = v :: contents Capacity (object r) /\
   size Capacity (object r) = size Capacity rb - 1) /\
  (returned r = Returns None -> contents Capacity rb = [] /\ object r = rb) /\
  (returned r = Raises ->
   tail_ (object r) = tail_ rb /\
   ((head_ (object r) = head_ rb /\
     length (contents Capacity (object r)) = length (contents Capacity rb) /\
     drop 1 (contents Capacity (object r)) = drop 1 (contents Capacity rb)) \/
    (head_ (object r) = next (head_ rb) /\
     contents Capacity (object r) = drop 1 (contents Capacity rb)))).
Proof.
  intros Hwf r. subst r. pose proof Hwf as (Hh & Ht & Hlen).
  destruct (try_pop_cases _ Hcap w rb)
    as [He|He Hs|slot slot' w' He Hs Hr|slot slot' item' w1 w2 He Hs Hd Hr
        |slot slot' item' w1 w2 He Hs Hd Hret]; simpl.
  - split; [discriminate|]. split; [discriminate|]. split; [|discriminate].
    intros _. split; [now apply contents_nil_iff | reflexivity].
  - destruct (slot_exists Capacity (buffer_ rb) _ Hlen Hh) as [s Hs'].
    congruence.
  - split; [discriminate|]. split; [discriminate|]. split; [discriminate|].
    intros _. split; [reflexivity|]. left. split; [reflexivity|].
    now apply contents_write_head.
  - split; [discriminate|]. split; [discriminate|]. split; [discriminate|].
    intros _. split; [reflexivity|]. right. split; [reflexivity|].
    now rewrite (contents_pop_taken _ Hcap rb slot slot' Hwf He Hs).
  - split; [discriminate|]. split; [|split; discriminate].
    intros v [= <-]. split.
    + now apply contents_pop_taken.
    + now rewrite (size_advance_head _ Hcap _ _ (buffer_ rb)).
Qed.

End Effects.

(** X3.  What the constructor leaves: with [head_] and [tail_] both
    zero, whatever the slots hold and for every capacity the
    [static_assert] accepts, the buffer is empty and not full, its size
    is [0], it has no live element, and a [try_pop] returns no value and
    changes nothing. *)
Theorem constructed_buffer_is_empty (Capacity : Z) (T : Type) `{Element T}
    (w : world) (slots : list T) :
  valid_capacity Capacity ->
  let rb := RingBuffer_new slots in
  empty rb = true /\ full Capacity rb = false /\ size Capacity rb = 0 /\
  contents Capacity rb = [] /\
  try_pop Capacity w rb = mkAfter (Returns None) rb w.
Proof.
  intros Hcap rb. pose proof (capacity_gt_1 _ Hcap) as Hgt.
  split; [reflexivity|]. split; [|split; [|split]].
  - rewrite (full_mod _ Hcap). simpl. rewrite Z.mod_small by lia. reflexivity.
  - apply (size_new _ Hcap).
  - apply (contents_new _ Hcap).
  - reflexivity.
Qed.

Lemma constructed_buffer_is_empty_witness :
  let rb := RingBuffer_new (replicate 8 0) in
  empty rb = true /\ full 8 rb = false /\ size 8 rb = 0 /\
  contents 8 rb = [] /\
  try_pop (H:=int_Element) 8 tt rb = mkAfter (Returns None) rb tt.
Proof.
  apply (constructed_buffer_is_empty 8 Z (H:=int_Element) tt (replicate 8 0)).
  literal_capacity.
Defined.

(** X4.  In every reachable state the three observers agree with each
    other: [empty()] is true exactly when [size()] is [0], [full()] is
    true exactly when [size()] is [capacity()], and a buffer is never
    both empty and full. *)
Theorem observers_agree (Capacity : Z) (T : Type) `{Element T}
    (rb : RingBuffer T) :
  valid_capacity Capacity ->
  reachable Capacity rb ->
  (empty rb = true <-> size Capacity rb = 0) /\
  (full Capacity rb = true <-> size Capacity rb = capacity Capacity) /\
  (empty rb = true -> full Capacity rb = false).
Proof.
  intros Hcap Hreach.
  pose proof (reachable_well_formed Capacity Hcap rb Hreach) as Hwf.
  pose proof (empty_iff_size Capacity Hcap rb Hwf) as He.
  pose proof (full_iff_size Capacity Hcap rb Hwf) as Hf.
  pose proof (capacity_gt_1 _ Hcap) as Hgt.
  unfold capacity. rewrite (capacity_pred_no_wrap _ Hcap).
  split; [exact He|]. split; [exact Hf|].
  intros Hempty. apply He in Hempty.
  destruct (full Capacity rb) eqn:Hfull; [|reflexivity].
  assert (size Capacity rb = Capacity - 1) by now apply Hf.
  lia.
Qed.

Lemma observers_agree_witness :
  let rb := object (try_push (H:=int_Element) 8 tt
                      (RingBuffer_new (replicate 8 0)) 5) in
  (empty rb = true <-> size 8 rb = 0) /\
  (full 8 rb = true <-> size 8 rb = capacity 8) /\
  (empty rb = true -> full 8 rb = false).
Proof.
  apply (observers_agree 8 Z).
  - literal_capacity.
  - apply reachable_try_push, reachable_new. reflexivity.
Defined.

(** X5.  What a [try_push] does to the queue, in every reachable state
    and for both overloads: a call that returns [true] appends its item
    behind the live elements, adds one to [size()] and leaves the buffer
    non-empty; any other call, refused because the buffer is full or
    left by a raising assignment, leaves the live elements and [size()]
    exactly as they were, even though a raising assignment may have
    changed the slot at [tail_]. *)
Theorem try_push_appends (Capacity : Z) (T : Type) `{Element T}
    (w : world) (rb : RingBuffer T) (item : T) :
  valid_capacity Capacity ->
  reachable Capacity rb ->
  let copy := try_push Capacity w rb item in
  let move := fst (try_push_move Capacity w rb item) in
  (returned copy = Returns true ->
   contents Capacity (object copy) = contents Capacity rb ++ [item] /\
   size Capacity (object copy) = size Capacity rb + 1 /\
   empty (object copy) = false) /\
  (returned copy <> Returns true ->
   contents Capacity (object copy) = contents Capacity rb /\
   size Capacity (object copy) = size Capacity rb) /\
  (returned move = Returns true ->
   contents Capacity (object move) = contents Capacity rb ++ [item] /\
   size Capacity (object move) = size Capacity rb + 1 /\
   empty (object move) = false) /\
  (returned move <> Returns true ->
   contents Capacity (object move) = contents Capacity rb /\
   size Capacity (object move) = size Capacity rb).
Proof.
  intros Hcap Hreach copy move.
  pose proof (reachable_well_formed Capacity Hcap rb Hreach) as Hwf.
  pose proof (size_in_range Capacity Hcap rb) as Hsz.
  assert (Hne : forall rb' : RingBuffer T,
            well_formed Capacity rb' ->
            size Capacity rb' = size Capacity rb + 1 -> empty rb' = false).
  { intros rb' Hwf' Hs. destruct (empty rb') eqn:He; [|reflexivity].
    apply (empty_iff_size Capacity Hcap rb' Hwf') in He. lia. }
  destruct (try_push_effect Capacity Hcap w rb item Hwf) as (_ & Hc1 & Hc2).
  destruct (try_push_move_effect Capacity Hcap w rb item Hwf)
    as (_ & Hm1 & Hm2).
  fold copy in Hc1, Hc2. fold move in Hm1, Hm2.
  split; [|split; [exact Hc2|split; [|exact Hm2]]].
  - intros Hr. destruct (Hc1 Hr) as [Hcont Hsize].
    repeat split; auto. apply Hne; auto.
    now apply well_formed_try_push.
  - intros Hr. destruct (Hm1 Hr) as [Hcont Hsize].
    repeat split; auto. apply Hne; auto.
    now apply well_formed_try_push_move.
Qed.

Lemma try_push_appends_witness :
  let E := TestMessage_Element in
  let rb := RingBuffer_new (replicate 4 (mkTestMessage 0 EmptyString)) in
  let item := mkTestMessage 7 long_text in
  let copy := try_push (H:=E) 4 0%nat rb item in
  let move := fst (try_push_move (H:=E) 4 0%nat rb item) in
  (returned copy = Returns true ->
   contents 4 (object copy) = contents 4 rb ++ [item] /\
   size 4 (object copy) = size 4 rb + 1 /\
   empty (object copy) = false) /\
  (returned copy <> Returns true ->
   contents 4 (object copy) = contents 4 rb /\
   size 4 (object copy) = size 4 rb) /\
  (returned move = Returns true ->
   contents 4 (object move) = contents 4 rb ++ [item] /\
   size 4 (object move) = size 4 rb + 1 /\
   empty (object move) = false) /\
  (returned move <> Returns true ->
   contents 4 (object move) = contents 4 rb /\
   size 4 (object move) = size 4 rb).
Proof.
  apply (try_push_appends 4 TestMessage (H:=TestMessage_Element)).
  - literal_capacity.
  - apply reachable_new. reflexivity.
Defined.

(** X6.  What a [try_pop] does to the queue, in every reachable state: a
    call that returns a value returns the oldest live element, removes
    it and no other, takes one from [size()] and leaves the buffer not
    full.  A call that raises leaves [tail_] alone and never disturbs an
    element behind the oldest: either [head_] is unchanged and only the
    oldest element may have changed (the move out of the slot raised),
    or [head_] has advanced and the oldest element is gone (the
    construction of the returned value raised). *)
Theorem try_pop_removes_oldest (Capacity : Z) (T : Type) `{Element T}
    (w : world) (rb : RingBuffer T) :
  valid_capacity Capacity ->
  reachable Capacity rb ->
  let r := try_pop Capacity w rb in
  (forall v, returned r = Returns (Some v) ->
   contents Capacity rb = v :: contents Capacity (object r) /\
   size Capacity (object r) = size Capacity rb - 1 /\
   full Capacity (object r) = false) /\
  (returned r = Raises ->
   tail_ (object r) = tail_ rb /\
   ((head_ (object r) = head_ rb /\
     length (contents Capacity (object r)) = length (contents Capacity rb) /\
     drop 1 (contents Capacity (object r)) = drop 1 (contents Capacity rb)) \/
    (head_ (object r) = (head_ rb + 1) mod Capacity /\
     contents Capacity (object r) = drop 1 (contents Capacity rb)))).
Proof.
  intros Hcap Hreach r.
  pose proof (reachable_well_formed Capacity Hcap rb Hreach) as Hwf.
  pose proof (size_in_range Capacity Hcap rb) as Hsz.
  destruct (try_pop_effect Capacity Hcap w rb Hwf) as (_ & Hv & _ & Hr).
  fold r in Hv, Hr. split; [|exact Hr].
  intros v Hret. destruct (Hv v Hret) as [Hcont Hsize].
  repeat split; auto.
  destruct (full Capacity (object r)) eqn:Hfull; [|reflexivity].
  apply (full_iff_size Capacity Hcap) in Hfull;
    [lia | now apply well_formed_try_pop].
Qed.

Lemma try_pop_removes_oldest_witness :
  let E := Blob_Element in
  let rb0 := RingBuffer_new [EmptyString; EmptyString; EmptyString; EmptyString] in
  let e := run (H:=E) 4 [PushCopy long_text; PushCopy other_long_text]
             (mkExecution rb0 (mkHistory [] []) 3%nat) in
  let r := try_pop (H:=E) 4 (exec_world e) (exec_buffer e) in
  (forall v, returned r = Returns (Some v) ->
   contents 4 (exec_buffer e) = v :: contents 4 (object r) /\
   size 4 (object r) = size 4 (exec_buffer e) - 1 /\
   full 4 (object r) = false) /\
  (returned r = Raises ->
   tail_ (object r) = tail_ (exec_buffer e) /\
   ((head_ (object r) = head_ (exec_buffer e) /\
     length (contents 4 (object r)) = length (contents 4 (exec_buffer e)) /\
     drop 1 (contents 4 (object r)) = drop 1 (contents 4 (exec_buffer e))) \/
    (head_ (object r) = (head_ (exec_buffer e) + 1) mod 4 /\
     contents 4 (object r) = drop 1 (contents 4 (exec_buffer e))))).
Proof.
  apply (try_pop_removes_oldest 4 string (H:=Blob_Element)).
  - literal_capacity.
  - apply (reachable_run (H:=Blob_Element) 4
             [PushCopy long_text; PushCopy other_long_text]
             (mkExecution _ (mkHistory [] []) 3%nat)).
    apply reachable_new. reflexivity.
Defined.

(** * The class as a bounded queue *)

Section ListQueue.
Context {T : Type}.

Lemma bounded_queue_run_app limit (calls1 calls2 : list (call T)) st :
  bounded_queue_run limit (calls1 ++ calls2) st
  = bounded_queue_run limit calls2 (bounded_queue_run limit calls1 st).
Proof. apply fold_left_app. Qed.

(** Pushes into the list queue: as many are taken as there is room. *)
Lemma bounded_queue_pushes limit (xs : list T) : forall queue h,
  bounded_queue_run limit (map PushCopy xs) (queue, h)
  = let taken := take (limit - length queue) xs in
    (queue ++ taken, mkHistory (accepted h ++ taken) (popped h)).
Proof.
  induction xs as [|x xs IH]; intros queue [acc pop]; simpl.
  { now rewrite take_nil, !app_nil_r. }
  destruct (Nat.ltb_spec (length queue) limit) as [Hlt|Hge]; rewrite IH; simpl.
  - rewrite length_app. simpl.
    replace (limit - length queue)%nat
      with (S (limit - (length queue + 1)))%nat by lia.
    simpl. now rewrite <- !app_assoc.
  - replace (limit - length queue)%nat with O by lia.
    now rewrite !take_0.
Qed.

(** Pops from the list queue: the oldest values, as many as asked for
    or as there are. *)
Lemma bounded_queue_pops limit (n : nat) : forall (queue : list T) h,
  bounded_queue_run limit (repeat Pop n) (queue, h)
  = (drop n queue, mkHistory (accepted h) (popped h ++ take n queue)).
Proof.
  induction n as [|n IH]; intros queue [acc pop]; simpl.
  { now rewrite drop_0, take_0, app_nil_r. }
  destruct queue as [|v queue].
  - rewrite IH. simpl. now rewrite drop_nil, take_nil.
  - rewrite IH. simpl. now rewrite <- app_assoc.
Qed.

(** Rounds of one push and one pop on an empty list queue. *)
Lemma bounded_queue_rounds limit (xs : list T) : forall h,
  (0 < limit)%nat ->
  bounded_queue_run limit (flat_map (fun x => [PushCopy x; Pop]) xs) ([], h)
  = ([], mkHistory (accepted h ++ xs) (popped h ++ xs)).
Proof.
  induction xs as [|x xs IH]; intros [acc pop] Hlimit; simpl.
  { now rewrite !app_nil_r. }
  destruct (Nat.ltb_spec 0 limit) as [_|?]; [|lia].
  simpl. rewrite IH by assumption.
  simpl. now rewrite <- !app_assoc.
Qed.

End ListQueue.

Section Refinement.
Variable Capacity : Z.
Hypothesis Hcap : valid_capacity Capacity.
Context {T : Type} `{Element T}.

Local Abbreviation limit := (Z.to_nat (Capacity - 1)).

(** One call on the ring buffer is one step of the list queue. *)
Lemma step_bounded_queue (e : execution T world) (c : call T) :
  call_is_noexcept c ->
  well_formed Capacity (exec_buffer e) ->
  let e' := step Capacity e c in
  well_formed Capacity (exec_buffer e') /\
  (contents Capacity (exec_buffer e'), exec_history e')
  = bounded_queue_step limit
      (contents Capacity (exec_buffer e), exec_history e) c.
Proof.
  destruct e as [rb h w]. simpl. intros Hno Hwf.
  pose proof Hwf as (Hh & Ht & Hlen).
  pose proof (capacity_gt_1 _ Hcap) as Hgt.
  pose proof (contents_length _ Hcap rb Hwf) as Hcl.
  pose proof (size_max_iff _ Hcap rb Hwf) as Hmax.
  destruct c as [item | item |]; unfold step; simpl.
  - split; [now apply well_formed_try_push|].
    destruct (try_push_cases _ Hcap w rb item)
      as [Hf|Hf Hs|slot slot' w' Hf Hs Hr|slot w' Hf Hs Hd]; simpl.
    + destruct (Nat.ltb_spec (length (contents Capacity rb)) limit);
        [|reflexivity].
      apply Hmax in Hf. lia.
    + destruct (slot_exists Capacity (buffer_ rb) _ Hlen Ht) as [s Hs'].
      congruence.
    + destruct (Hno w slot item) as (d & w'' & Hd). congruence.
    + rewrite (contents_push_stored _ Hcap) by assumption.
      destruct (Nat.ltb_spec (length (contents Capacity rb)) limit);
        [reflexivity|].
      pose proof (size_in_range _ Hcap rb).
      exfalso. apply Hf, Hmax. lia.
  - split; [now apply well_formed_try_push_move|].
    destruct (try_push_move_cases _ Hcap w rb item)
      as [Hf|Hf Hs|slot slot' item' w' Hf Hs Hr|slot item' w' Hf Hs Hd];
      simpl.
    + destruct (Nat.ltb_spec (length (contents Capacity rb)) limit);
        [|reflexivity].
      apply Hmax in Hf. lia.
    + destruct (slot_exists Capacity (buffer_ rb) _ Hlen Ht) as [s Hs'].
      congruence.
    + destruct (Hno w slot item) as (d & w'' & Hd). congruence.
    + rewrite (contents_push_stored _ Hcap) by assumption.
      destruct (Nat.ltb_spec (length (contents Capacity rb)) limit);
        [reflexivity|].
      pose proof (size_in_range _ Hcap rb).
      exfalso. apply Hf, Hmax. lia.
  - split; [now apply well_formed_try_pop|].
    destruct (try_pop_cases _ Hcap w rb)
      as [He|He Hs|slot slot' w' He Hs Hr|slot slot' item' w1 w2 He Hs Hd Hr
          |slot slot' item' w1 w2 He Hs Hd Hret]; simpl.
    + apply (contents_nil_iff _ Hcap rb Hwf) in He. now rewrite He.
    + destruct (slot_exists Capacity (buffer_ rb) _ Hlen Hh) as [s Hs'].
      congruence.
    + destruct (nothrow_never_raises Hno _ _ _ _ Hr).
    + destruct (nothrow_never_raises Hno _ _ _ _ Hr).
    + now rewrite (contents_pop_taken _ Hcap rb slot slot' Hwf He Hs).
Qed.

Lemma run_bounded_queue (calls : list (call T)) : forall e : execution T world,
  Forall call_is_noexcept calls ->
  well_formed Capacity (exec_buffer e) ->
  let e' := run Capacity calls e in
  well_formed Capacity (exec_buffer e') /\
  (contents Capacity (exec_buffer e'), exec_history e')
  = bounded_queue_run limit calls
      (contents Capacity (exec_buffer e), exec_history e).
Proof.
  induction calls as [|c calls IH]; intros e Hno Hwf; simpl.
  { now split. }
  apply Forall_cons in Hno as [Hc Hno].
  destruct (step_bounded_queue e c Hc Hwf) as [Hwf' Hstep].
  destruct (IH (step Capacity e c) Hno Hwf') as [Hwf'' Hrun].
  split; [exact Hwf''|].
  exact (eq_trans Hrun (f_equal (bounded_queue_run limit calls) Hstep)).
Qed.

End Refinement.

(** Nothing raises for [int]. *)
Lemma int_calls_noexcept (calls : list (call Z)) :
  Forall (call_is_noexcept (H:=int_Element)) calls.
Proof.
  apply Forall_forall. intros [item|item|] _; simpl.
  - intros w dst src. exists src, w. reflexivity.
  - intros w dst src. exists (src, src), w. reflexivity.
  - intros w src. exists (src, src), w. reflexivity.
Qed.

(** X7.  For an element type whose operations do not raise, the ring
    buffer is a bounded queue: started in any reachable state, any
    sequence of [try_push] and [try_pop] calls leaves the live elements
    and the values its callers have seen exactly as the same calls leave
    a list queue of at most [Capacity - 1] values, in which a push is
    refused when the list has [Capacity - 1] values and a pop takes the
    first value of the list. *)
Theorem behaves_as_bounded_queue (Capacity : Z) (T : Type) `{Element T}
    (w : world) (rb : RingBuffer T) (h : history T) (calls : list (call T)) :
  valid_capacity Capacity ->
  is_nothrow_copy_assignable T ->
  is_nothrow_move_assignable T ->
  is_nothrow_move_constructible T ->
  reachable Capacity rb ->
  let e := run Capacity calls (mkExecution rb h w) in
  (contents Capacity (exec_buffer e), exec_history e)
  = bounded_queue_run (Z.to_nat (Capacity - 1)) calls
      (contents Capacity rb, h).
Proof.
  intros Hcap Hc Hm Hp Hreach e.
  apply (run_bounded_queue Capacity Hcap calls (mkExecution rb h w)).
  - apply Forall_forall. intros [item|item|] _; assumption.
  - exact (reachable_well_formed Capacity Hcap rb Hreach).
Qed.

Lemma behaves_as_bounded_queue_witness :
  let e := run (H:=int_Element) 8 (wraparound_calls 3 5)
             (mkExecution (RingBuffer_new (replicate 8 0)) (mkHistory [] []) tt) in
  (contents 8 (exec_buffer e), exec_history e)
  = bounded_queue_run (Z.to_nat (8 - 1)) (wraparound_calls 3 5)
      (contents 8 (RingBuffer_new (replicate 8 0)), mkHistory [] []).
Proof.
  apply (behaves_as_bounded_queue 8 Z (H:=int_Element)).
  - literal_capacity.
  - intros w dst src. exists src, w. reflexivity.
  - intros w dst src. exists (src, src), w. reflexivity.
  - intros w src. exists (src, src), w. reflexivity.
  - apply reachable_new. reflexivity.
Defined.

(** X8.  A freshly constructed buffer takes exactly [Capacity - 1]
    values: of any list of values pushed one after the other with no pop
    in between, the first [Capacity - 1] are accepted and are then the
    live elements, every later one is refused, and the buffer is full
    exactly when at least [Capacity - 1] values were pushed.  [T] is any
    type whose copy assignment does not raise. *)
Theorem holds_one_less_than_capacity (Capacity : Z) (T : Type) `{Element T}
    (w : world) (slots : list T) (items : list T) :
  valid_capacity Capacity ->
  is_nothrow_copy_assignable T ->
  length slots = Z.to_nat Capacity ->
  let e := run_new Capacity w slots (map PushCopy items) in
  accepted (exec_history e) = take (Z.to_nat (Capacity - 1)) items /\
  contents Capacity (exec_buffer e) = take (Z.to_nat (Capacity - 1)) items /\
  (full Capacity (exec_buffer e) = true
   <-> Capacity - 1 <= Z.of_nat (length items)).
Proof.
  intros Hcap Hc Hlen e.
  pose proof (capacity_gt_1 _ Hcap) as Hgt.
  destruct (run_bounded_queue Capacity Hcap (map PushCopy items)
              (mkExecution (RingBuffer_new slots) (mkHistory [] []) w))
    as [Hwf Hrun].
  { apply Forall_forall. intros c Hin. apply list_elem_of_fmap in Hin.
    destruct Hin as (x & -> & _). exact Hc. }
  { now apply well_formed_new. }
  simpl in Hrun. fold (run_new Capacity w slots (map PushCopy items)) in Hrun, Hwf.
  fold e in Hrun, Hwf.
  rewrite (contents_new Capacity Hcap), bounded_queue_pushes in Hrun.
  simpl in Hrun. rewrite Nat.sub_0_r in Hrun.
  injection Hrun as Hcont Hhist.
  split; [now rewrite Hhist|]. split; [exact Hcont|].
  rewrite (full_iff_size Capacity Hcap _ Hwf).
  rewrite <- (contents_length Capacity Hcap _ Hwf), Hcont, length_take.
  lia.
Qed.

Lemma holds_one_less_than_capacity_witness :
  let items := map Z.of_nat (seq 0 10) in
  let e := run_new (H:=int_Element) 8 tt (replicate 8 0) (map PushCopy items) in
  accepted (exec_history e) = take (Z.to_nat (8 - 1)) items /\
  contents 8 (exec_buffer e) = take (Z.to_nat (8 - 1)) items /\
  (full 8 (exec_buffer e) = true <-> 8 - 1 <= Z.of_nat (length items)).
Proof.
  apply (holds_one_less_than_capacity 8 Z (H:=int_Element)).
  - literal_capacity.
  - intros w dst src. exists src, w. reflexivity.
  - reflexivity.
Defined.

(** X9.  A batch goes in and comes out: on a reachable buffer that is
    empty, wherever its indices stand, pushing at most [Capacity - 1]
    values and then popping as many returns exactly the values pushed,
    in order, every call succeeding at the first attempt, and leaves the
    buffer empty again.  This is one round of the wrap-around test and
    one batch of the "Memory Ordering Validation" test. *)
Theorem batch_round_trip (Capacity : Z) (T : Type) `{Element T}
    (w : world) (rb : RingBuffer T) (h : history T) (items : list T) :
  valid_capacity Capacity ->
  is_nothrow_copy_assignable T ->
  is_nothrow_move_constructible T ->
  reachable Capacity rb ->
  empty rb = true ->
  Z.of_nat (length items) <= Capacity - 1 ->
  let e := run Capacity (map PushCopy items ++ repeat Pop (length items))
             (mkExecution rb h w) in
  accepted (exec_history e) = accepted h ++ items /\
  popped (exec_history e) = popped h ++ items /\
  empty (exec_buffer e) = true.
Proof.
  intros Hcap Hc Hp Hreach Hempty Hfit e.
  pose proof (reachable_well_formed Capacity Hcap rb Hreach) as Hwf0.
  destruct (run_bounded_queue Capacity Hcap
              (map PushCopy items ++ repeat Pop (length items))
              (mkExecution rb h w)) as [Hwf Hrun].
  { apply Forall_app. split; apply Forall_forall; intros c Hin.
    - apply list_elem_of_fmap in Hin. destruct Hin as (x & -> & _). exact Hc.
    - apply list_elem_of_In, repeat_spec in Hin. subst c. exact Hp. }
  { exact Hwf0. }
  fold e in Hwf, Hrun. simpl in Hrun.
  assert (Hnil : contents Capacity rb = []).
  { apply (contents_nil_iff Capacity Hcap rb Hwf0).
    unfold empty in Hempty. now apply Z.eqb_eq. }
  rewrite Hnil, bounded_queue_run_app, bounded_queue_pushes in Hrun.
  simpl in Hrun. rewrite Nat.sub_0_r in Hrun.
  rewrite take_ge in Hrun by lia.
  rewrite bounded_queue_pops in Hrun. simpl in Hrun.
  rewrite drop_all, firstn_all in Hrun.
  injection Hrun as Hcont Hhist.
  rewrite Hhist. simpl. repeat split.
  unfold empty. apply Z.eqb_eq.
  now apply (contents_nil_iff Capacity Hcap _ Hwf).
Qed.

Lemma batch_round_trip_witness :
  let rb := exec_buffer (run_new (H:=int_Element) 8 tt (replicate 8 0)
                           (wraparound_calls 1 5)) in
  let items := [10; 11; 12; 13; 14; 15; 16] in
  let e := run (H:=int_Element) 8
             (map PushCopy items ++ repeat Pop (length items))
             (mkExecution rb (mkHistory [] []) tt) in
  accepted (exec_history e) = [] ++ items /\
  popped (exec_history e) = [] ++ items /\
  empty (exec_buffer e) = true.
Proof.
  apply (batch_round_trip 8 Z (H:=int_Element) tt _ (mkHistory [] [])).
  - literal_capacity.
  - intros w dst src. exists src, w. reflexivity.
  - intros w src. exists (src, src), w. reflexivity.
  - apply (reachable_run (H:=int_Element) 8 (wraparound_calls 1 5)
             (mkExecution _ (mkHistory [] []) tt)).
    apply reachable_new. reflexivity.
  - reflexivity.
  - simpl. lia.
Defined.

(** One round of the wrap-around test on the list queue. *)
Lemma bounded_queue_cycle limit per_cycle cycle (h : history Z) :
  (per_cycle <= limit)%nat ->
  bounded_queue_run limit (cycle_calls per_cycle cycle) ([], h)
  = let items := map Z.of_nat (seq (cycle * per_cycle) per_cycle) in
    ([], mkHistory (accepted h ++ items) (popped h ++ items)).
Proof.
  intros Hfit. unfold cycle_calls.
  assert (Hcalls : map (fun i => PushCopy (Z.of_nat (cycle * per_cycle + i)))
                     (seq 0 per_cycle)
                   = map PushCopy
                       (map Z.of_nat (seq (cycle * per_cycle) per_cycle))).
  { rewrite map_map.
    replace (seq (cycle * per_cycle) per_cycle)
      with (map (Nat.add (cycle * per_cycle)) (seq 0 per_cycle)).
    - now rewrite map_map.
    - change map with (@fmap list _). rewrite fmap_add_seq. f_equal. lia. }
  rewrite Hcalls, bounded_queue_run_app, bounded_queue_pushes.
  simpl. rewrite Nat.sub_0_r.
  rewrite take_ge by (rewrite length_map, length_seq; lia).
  rewrite bounded_queue_pops. simpl.
  rewrite drop_ge, take_ge by (rewrite length_map, length_seq; lia).
  reflexivity.
Qed.

(** All the rounds. *)
Lemma bounded_queue_cycles limit per_cycle cycles :
  (per_cycle <= limit)%nat ->
  bounded_queue_run limit (wraparound_calls cycles per_cycle)
    ([], mkHistory [] [])
  = let items := map Z.of_nat (seq 0 (cycles * per_cycle)) in
    ([], mkHistory items items).
Proof.
  intros Hfit. induction cycles as [|n IH]; [reflexivity|].
  unfold wraparound_calls in *.
  rewrite seq_S, map_app, concat_app, bounded_queue_run_app, IH.
  simpl concat. rewrite app_nil_r, bounded_queue_cycle by exact Hfit.
  simpl.
  replace (per_cycle + n * per_cycle)%nat
    with (n * per_cycle + per_cycle)%nat by lia.
  rewrite seq_app, map_app, Nat.add_0_l. reflexivity.
Qed.

(** X10.  The wrap-around test for every size whose numbers fit an
    [int]: on a freshly constructed buffer of [int]s, [cycles] rounds,
    each pushing [per_cycle] consecutive numbers and then popping as
    many, with [per_cycle] at most [Capacity - 1] and
    [cycles * per_cycle] at most [INT_MAX], accept and return the
    numbers [0 .. cycles * per_cycle - 1] in order, however many times
    the indices wrap around, and leave the buffer empty.  The test has
    100 rounds of 5 on 8 slots. *)
Theorem wraparound_cycles_in_order (Capacity : Z) (slots : list Z)
    (cycles per_cycle : nat) :
  valid_capacity Capacity ->
  length slots = Z.to_nat Capacity ->
  Z.of_nat per_cycle <= Capacity - 1 ->
  wraparound_fits_int cycles per_cycle ->
  let e := run_new (H:=int_Element) Capacity tt slots
             (wraparound_calls cycles per_cycle) in
  accepted (exec_history e) = map Z.of_nat (seq 0 (cycles * per_cycle)) /\
  popped (exec_history e) = map Z.of_nat (seq 0 (cycles * per_cycle)) /\
  empty (exec_buffer e) = true.
Proof.
  intros Hcap Hlen Hfit _ e.
  assert (Hq : well_formed Capacity (exec_buffer e) /\
               (contents Capacity (exec_buffer e), exec_history e)
               = bounded_queue_run (Z.to_nat (Capacity - 1))
                   (wraparound_calls cycles per_cycle) ([], mkHistory [] [])).
  { rewrite <- (contents_new Capacity Hcap slots).
    apply (run_bounded_queue (H:=int_Element) Capacity Hcap
             (wraparound_calls cycles per_cycle)
             (mkExecution (RingBuffer_new slots) (mkHistory [] []) tt)).
    - apply int_calls_noexcept.
    - now apply well_formed_new. }
  destruct Hq as [Hwf Hrun]. clearbody e.
  rewrite bounded_queue_cycles in Hrun by lia.
  pose proof (f_equal fst Hrun) as Hcont.
  pose proof (f_equal snd Hrun) as Hhist. simpl in Hcont, Hhist.
  split; [exact (f_equal accepted Hhist)|].
  split; [exact (f_equal popped Hhist)|].
  unfold empty. apply Z.eqb_eq.
  now apply (contents_nil_iff Capacity Hcap _ Hwf).
Qed.

Lemma wraparound_cycles_in_order_witness :
  let e := run_new (H:=int_Element) 8 tt (replicate 8 0)
             (wraparound_calls 100 5) in
  accepted (exec_history e) = map Z.of_nat (seq 0 (100 * 5)) /\
  popped (exec_history e) = map Z.of_nat (seq 0 (100 * 5)) /\
  empty (exec_buffer e) = true.
Proof.
  apply (wraparound_cycles_in_order 8 (replicate 8 0) 100 5).
  - literal_capacity.
  - reflexivity.
  - simpl. lia.
  - unfold wraparound_fits_int, INT_MAX. simpl. lia.
Defined.

(** * The loops of the tests and benchmarks *)

Lemma rounds_of_numbers (l : list nat) :
  flat_map (fun i => [PushCopy (Z.of_nat i); Pop]) l
  = flat_map (fun x => [PushCopy x; Pop]) (map Z.of_nat l).
Proof. induction l as [|i l IH]; simpl; [reflexivity | now rewrite IH]. Qed.

(** X11.  What [benchmarkLatency] measures.  Every warm-up round pushes
    and pops one value.  The timed push loop then fills the buffer: with
    at least [Capacity - 1] samples (the benchmark has 1000000 samples
    for 1024 slots), only the pushes of [0 .. Capacity - 2] return
    [true] and every later push is refused; the timed pop loop returns
    these [Capacity - 1] values in order, finds the buffer empty from
    then on, and leaves it empty. *)
Theorem latency_benchmark_fills_buffer (Capacity : Z) (slots : list Z)
    (warm_up samples : nat) :
  valid_capacity Capacity ->
  length slots = Z.to_nat Capacity ->
  Capacity - 1 <= Z.of_nat samples ->
  let e := run_new (H:=int_Element) Capacity tt slots
             (latency_calls warm_up samples) in
  let timed := map Z.of_nat (seq 0 (Z.to_nat (Capacity - 1))) in
  accepted (exec_history e) = map Z.of_nat (seq 0 warm_up) ++ timed /\
  popped (exec_history e) = map Z.of_nat (seq 0 warm_up) ++ timed /\
  empty (exec_buffer e) = true.
Proof.
  intros Hcap Hlen Hsamples e timed.
  pose proof (capacity_gt_1 _ Hcap) as Hgt.
  assert (Hq : well_formed Capacity (exec_buffer e) /\
               (contents Capacity (exec_buffer e), exec_history e)
               = bounded_queue_run (Z.to_nat (Capacity - 1))
                   (latency_calls warm_up samples) ([], mkHistory [] [])).
  { rewrite <- (contents_new Capacity Hcap slots).
    apply (run_bounded_queue (H:=int_Element) Capacity Hcap
             (latency_calls warm_up samples)
             (mkExecution (RingBuffer_new slots) (mkHistory [] []) tt)).
    - apply int_calls_noexcept.
    - now apply well_formed_new. }
  destruct Hq as [Hwf Hrun]. clearbody e.
  unfold latency_calls in Hrun.
  rewrite !bounded_queue_run_app, rounds_of_numbers in Hrun.
  rewrite bounded_queue_rounds in Hrun by lia.
  rewrite <- (map_map Z.of_nat PushCopy), bounded_queue_pushes in Hrun.
  rewrite bounded_queue_pops in Hrun. simpl in Hrun.
  rewrite Nat.sub_0_r in Hrun.
  assert (Htimed : take (Z.to_nat (Capacity - 1)) (map Z.of_nat (seq 0 samples))
                   = timed).
  { unfold timed. change map with (@fmap list _).
    rewrite <- fmap_take, take_seq. do 2 f_equal. lia. }
  rewrite Htimed in Hrun.
  assert (Hshort : (length timed <= samples)%nat).
  { unfold timed. rewrite length_map, length_seq. lia. }
  rewrite drop_ge, take_ge in Hrun by exact Hshort.
  pose proof (f_equal fst Hrun) as Hcont.
  pose proof (f_equal snd Hrun) as Hhist. simpl in Hcont, Hhist.
  split; [exact (f_equal accepted Hhist)|].
  split; [exact (f_equal popped Hhist)|].
  unfold empty. apply Z.eqb_eq.
  now apply (contents_nil_iff Capacity Hcap _ Hwf).
Qed.

Lemma latency_benchmark_fills_buffer_witness :
  let e := run_new (H:=int_Element) 8 tt (replicate 8 0) (latency_calls 3 20) in
  let timed := map Z.of_nat (seq 0 (Z.to_nat (8 - 1))) in
  accepted (exec_history e) = map Z.of_nat (seq 0 3) ++ timed /\
  popped (exec_history e) = map Z.of_nat (seq 0 3) ++ timed /\
  empty (exec_buffer e) = true.
Proof.
  apply (latency_benchmark_fills_buffer 8 (replicate 8 0) 3 20).
  - literal_capacity.
  - reflexivity.
  - simpl. lia.
Defined.

Section LoopProofs.
Variable Capacity : Z.
Hypothesis Hcap : valid_capacity Capacity.
Context {T : Type} `{Element T}.

Lemma try_pop_tail w (rb : RingBuffer T) :
  tail_ (object (try_pop Capacity w rb)) = tail_ rb.
Proof. destruct (try_pop_cases _ Hcap w rb); reflexivity. Qed.

Lemma try_pop_noexcept w (rb : RingBuffer T) :
  is_nothrow_move_constructible T ->
  returned (try_pop Capacity w rb) <> Raises.
Proof.
  intros Hno.
  destruct (try_pop_cases _ Hcap w rb)
    as [He|He Hs|slot slot' w' He Hs Hr|slot slot' item' w1 w2 He Hs Hd Hr
        |slot slot' item' w1 w2 He Hs Hd Hret]; simpl; try discriminate.
  - destruct (nothrow_never_raises Hno _ _ _ _ Hr).
  - destruct (nothrow_never_raises Hno _ _ _ _ Hr).
Qed.

Lemma try_push_noexcept w (rb : RingBuffer T) item :
  is_nothrow_copy_assignable T ->
  returned (try_push Capacity w rb item) <> Raises.
Proof.
  intros Hno.
  destruct (try_push_cases _ Hcap w rb item)
    as [Hf|Hf Hs|slot slot' w' Hf Hs Hr|slot w' Hf Hs Hd]; simpl;
    try discriminate.
  destruct (Hno w slot item) as (d & w'' & Hd). congruence.
Qed.

(** The drain loop takes one iteration for each live element and one
    more to find the buffer empty. *)
Lemma drain_iterations (fuel : nat) : forall w (rb : RingBuffer T) count,
  is_nothrow_move_constructible T ->
  reachable Capacity rb ->
  0 <= count < size_t_modulus ->
  if (Z.to_nat (size Capacity rb) <? fuel)%nat
  then exists rb' w',
         drain Capacity fuel w rb count
         = Finished (wrap (count + size Capacity rb), rb', w') /\
         empty rb' = true /\ tail_ rb' = tail_ rb /\
         reachable Capacity rb'
  else drain Capacity fuel w rb count = OutOfFuel.
Proof.
  induction fuel as [|fuel IH]; intros w rb count Hno Hreach Hcount.
  { reflexivity. }
  pose proof (reachable_well_formed Capacity Hcap rb Hreach) as Hwf.
  pose proof (size_in_range Capacity Hcap rb) as Hsz.
  destruct (try_pop_effect Capacity Hcap w rb Hwf) as (Hu & Hv & Hn & _).
  pose proof (try_pop_noexcept w rb Hno) as Hr.
  pose proof (try_pop_tail w rb) as Htail.
  pose proof (reachable_try_pop Capacity w rb Hreach) as Hreach'.
  simpl. destruct (returned (try_pop Capacity w rb)) as [[v|]| |] eqn:Hret;
    try congruence.
  - destruct (Hv v eq_refl) as [_ Hsize].
    pose proof (size_in_range Capacity Hcap (object (try_pop Capacity w rb)))
      as Hsz'.
    assert (Hcount' : 0 <= wrap (count + 1) < size_t_modulus)
      by (apply Z.mod_pos_bound; reflexivity).
    specialize (IH (world_after (try_pop Capacity w rb))
                  (object (try_pop Capacity w rb)) (wrap (count + 1))
                  Hno Hreach' Hcount').
    rewrite Hsize in IH.
    destruct (Nat.ltb_spec (Z.to_nat (size Capacity rb - 1)) fuel);
      destruct (Nat.ltb_spec (Z.to_nat (size Capacity rb)) (S fuel));
      try lia.
    + destruct IH as (rb' & w' & Hd & He & Ht & Hr').
      exists rb', w'. rewrite Hd. repeat split; auto; [|congruence].
      do 3 f_equal. unfold wrap. rewrite Zplus_mod_idemp_l.
      f_equal. lia.
    + exact IH.
  - destruct (Hn eq_refl) as [Hnil Hobj].
    assert (Hzero : size Capacity rb = 0).
    { rewrite <- (contents_length Capacity Hcap rb Hwf), Hnil. reflexivity. }
    rewrite Hzero. simpl. exists rb, w.
    rewrite Z.add_0_r. unfold wrap at 1. rewrite Z.mod_small by exact Hcount.
    rewrite Hobj.
    repeat split; auto.
    + (* the world is the one the call left *)
      destruct (try_pop_cases _ Hcap w rb); simpl in *; congruence.
    + now apply (empty_iff_size Capacity Hcap rb Hwf).
Qed.

End LoopProofs.

(** X12.  The drain loop [while (auto item = buffer.try_pop())] ends: run
    with nobody pushing, on a reachable buffer of an element type whose
    move construction does not raise, it makes exactly [size() + 1]
    calls to [try_pop], adds [size()] to its counter (a [uint64_t]),
    and leaves the buffer empty with [tail_] untouched.  With fuel for
    fewer iterations the loop is still running. *)
Theorem drain_empties_the_buffer (Capacity : Z) (T : Type) `{Element T}
    (fuel : nat) (w : world) (rb : RingBuffer T) (count : Z) :
  valid_capacity Capacity ->
  is_nothrow_move_constructible T ->
  reachable Capacity rb ->
  0 <= count < size_t_modulus ->
  ((Z.to_nat (size Capacity rb) < fuel)%nat ->
   exists rb' w',
     drain Capacity fuel w rb count
     = Finished (wrap (count + size Capacity rb), rb', w') /\
     empty rb' = true /\ tail_ rb' = tail_ rb /\ reachable Capacity rb') /\
  ((fuel <= Z.to_nat (size Capacity rb))%nat ->
   drain Capacity fuel w rb count = OutOfFuel).
Proof.
  intros Hcap Hno Hreach Hcount.
  pose proof (drain_iterations Capacity Hcap fuel w rb count Hno Hreach Hcount)
    as Hd.
  destruct (Nat.ltb_spec (Z.to_nat (size Capacity rb)) fuel);
    split; intros; try lia; exact Hd.
Qed.

Lemma drain_empties_the_buffer_witness :
  let rb := exec_buffer (run_new (H:=int_Element) 8 tt (replicate 8 0)
                           (map PushCopy [4; 5; 6])) in
  ((Z.to_nat (size 8 rb) < 4)%nat ->
   exists rb' w',
     drain (H:=int_Element) 8 4 tt rb 10
     = Finished (wrap (10 + size 8 rb), rb', w') /\
     empty rb' = true /\ tail_ rb' = tail_ rb /\ reachable 8 rb') /\
  ((4 <= Z.to_nat (size 8 rb))%nat ->
   drain (H:=int_Element) 8 4 tt rb 10 = OutOfFuel).
Proof.
  apply (drain_empties_the_buffer 8 Z (H:=int_Element) 4 tt _ 10).
  - literal_capacity.
  - intros w src. exists (src, src), w. reflexivity.
  - apply (reachable_run (H:=int_Element) 8 (map PushCopy [4; 5; 6])
             (mkExecution _ (mkHistory [] []) tt)).
    apply reachable_new. reflexivity.
  - split; [discriminate | reflexivity].
Defined.

(** X13.  The retry loops of the producer and the consumer make
    progress only through the other thread.  Run alone on a full buffer,
    [while (!buffer.try_push(item))] never leaves the loop, whatever the
    number of iterations; run alone on an empty buffer, so does
    [while (!buffer.try_pop())].  On a buffer that is not full the push
    loop is left after its first call with the item appended; on a
    buffer that is not empty the pop loop is left after its first call
    with the oldest element. *)
Theorem retry_loops_need_the_other_thread (Capacity : Z) (T : Type)
    `{Element T} (w : world) (rb : RingBuffer T) (item : T) :
  valid_capacity Capacity ->
  reachable Capacity rb ->
  (full Capacity rb = true ->
   forall fuel, push_retry Capacity fuel w rb item = OutOfFuel) /\
  (empty rb = true ->
   forall fuel, pop_retry Capacity fuel w rb = OutOfFuel) /\
  (full Capacity rb = false -> is_nothrow_copy_assignable T ->
   forall fuel, exists w',
     push_retry Capacity (S fuel) w rb item
     = Finished (object (try_push Capacity w rb item), w') /\
     contents Capacity (object (try_push Capacity w rb item))
     = contents Capacity rb ++ [item]) /\
  (empty rb = false -> is_nothrow_move_constructible T ->
   forall fuel, exists v w',
     pop_retry Capacity (S fuel) w rb
     = Finished (Some v, object (try_pop Capacity w rb), w') /\
     contents Capacity rb
     = v :: contents Capacity (object (try_pop Capacity w rb))).
Proof.
  intros Hcap Hreach.
  pose proof (reachable_well_formed Capacity Hcap rb Hreach) as Hwf.
  split; [|split; [|split]].
  - intros Hfull fuel. induction fuel as [|fuel IH]; [reflexivity|].
    simpl. unfold try_push. unfold full in Hfull. rewrite Hfull. exact IH.
  - intros Hempty fuel. induction fuel as [|fuel IH]; [reflexivity|].
    simpl. unfold try_pop. unfold empty in Hempty. rewrite Hempty. exact IH.
  - intros Hfull Hno fuel. simpl.
    destruct (try_push_effect Capacity Hcap w rb item Hwf) as (Hu & Ht & _).
    pose proof (try_push_noexcept Capacity Hcap w rb item Hno) as Hr.
    destruct (returned (try_push Capacity w rb item)) as [[|]| |] eqn:Hret;
      try congruence.
    + eexists. split; [reflexivity|]. now apply Ht.
    + exfalso. revert Hret. unfold try_push. unfold full in Hfull.
      rewrite Hfull.
      destruct (buffer_ rb !! Z.to_nat (tail_ rb)) as [slot|];
        [|discriminate].
      destruct (copy_assign w slot item) as [[?|?] ?]; discriminate.
  - intros Hempty Hno fuel. simpl.
    destruct (try_pop_effect Capacity Hcap w rb Hwf) as (Hu & Hv & Hn & _).
    pose proof (try_pop_noexcept Capacity Hcap w rb Hno) as Hr.
    destruct (returned (try_pop Capacity w rb)) as [[v|]| |] eqn:Hret;
      try congruence.
    + exists v. eexists. split; [reflexivity|]. now apply Hv.
    + exfalso. destruct (Hn eq_refl) as [Hnil _].
      apply (contents_nil_iff Capacity Hcap rb Hwf) in Hnil.
      unfold empty in Hempty. apply Z.eqb_neq in Hempty. contradiction.
Qed.

Lemma retry_loops_need_the_other_thread_witness :
  let rb := exec_buffer (run_new (H:=int_Element) 4 tt (replicate 4 0)
                           (map PushCopy [4; 5; 6])) in
  (full 4 rb = true ->
   forall fuel, push_retry (H:=int_Element) 4 fuel tt rb 7 = OutOfFuel) /\
  (empty rb = true ->
   forall fuel, pop_retry (H:=int_Element) 4 fuel tt rb = OutOfFuel) /\
  (full 4 rb = false -> is_nothrow_copy_assignable Z ->
   forall fuel, exists w',
     push_retry (H:=int_Element) 4 (S fuel) tt rb 7
     = Finished (object (try_push (H:=int_Element) 4 tt rb 7), w') /\
     contents 4 (object (try_push (H:=int_Element) 4 tt rb 7))
     = contents 4 rb ++ [7]) /\
  (empty rb = false -> is_nothrow_move_constructible Z ->
   forall fuel, exists v w',
     pop_retry (H:=int_Element) 4 (S fuel) tt rb
     = Finished (Some v, object (try_pop (H:=int_Element) 4 tt rb), w') /\
     contents 4 rb
     = v :: contents 4 (object (try_pop (H:=int_Element) 4 tt rb))).
Proof.
  apply (retry_loops_need_the_other_thread 4 Z (H:=int_Element) tt _ 7).
  - literal_capacity.
  - apply (reachable_run (H:=int_Element) 4 (map PushCopy [4; 5; 6])
             (mkExecution _ (mkHistory [] []) tt)).
    apply reachable_new. reflexivity.
Defined.

(** * Slots and sizes while both threads run *)

Section Accesses.
Variable Capacity : Z.
Hypothesis Hcap : valid_capacity Capacity.
Context {T : Type} `{Element T}.

Local Abbreviation next i := ((i + 1) mod Capacity).

Lemma access_invariant_new w (slots : list T) pushes :
  length slots = Z.to_nat Capacity ->
  access_invariant Capacity (system_new w slots pushes).
Proof.
  intros Hlen. split; [apply (well_formed_new _ Hcap slots Hlen)|].
  split; exact I.
Qed.

(** A step of the producer: what both threads know stays true, [head_]
    stays, the size does not shrink. *)
Lemma producer_step_access (s : system T world) :
  access_invariant Capacity s ->
  let s' := producer_step Capacity s in
  access_invariant Capacity s' /\
  head_ (shared s') = head_ (shared s) /\
  size Capacity (shared s) <= size Capacity (shared s').
Proof.
  destruct s as [rb p c todo h w]. intros (Hwf & Hp & Hc).
  pose proof Hwf as (Hh & Ht & Hlen).
  unfold access_invariant, producer_invariant, producer_step in *.
  simpl in *.
  destruct p as [|mv item ct|mv item ct nt|item nt].
  - destruct todo as [|[mv item] rest]; simpl.
    + split; [exact (conj Hwf (conj I Hc))|]. split; [reflexivity | simpl; lia].
    + split; [exact (conj Hwf (conj eq_refl Hc))|].
      split; [reflexivity | simpl; lia].
  - subst ct. rewrite (next_index _ Hcap).
    destruct (Z.eqb_spec (next (tail_ rb)) (head_ rb)) as [Hf|Hf]; simpl.
    + split; [exact (conj Hwf (conj I Hc))|]. split; [reflexivity | simpl; lia].
    + split; [exact (conj Hwf (conj (conj eq_refl (conj eq_refl Hf)) Hc))|].
      split; [reflexivity | simpl; lia].
  - destruct Hp as (-> & -> & Hnf).
    destruct (buffer_ rb !! Z.to_nat (tail_ rb)) as [slot|] eqn:Hslot; simpl.
    2: { split; [exact (conj Hwf (conj I Hc))|]. split; [reflexivity | simpl; lia]. }
    assert (Hwf' : forall slot',
      well_formed Capacity
        (mkRingBuffer (head_ rb) (tail_ rb)
           (<[Z.to_nat (tail_ rb) := slot']> (buffer_ rb)))).
    { intros slot'. unfold well_formed. simpl. now rewrite length_insert. }
    destruct (assign_slot mv w slot item) as [[slot'|slot'] w'] eqn:Ha; simpl.
    + apply (assign_slot_value) in Ha as ->.
      split; [|split; [reflexivity | unfold size; simpl; lia]].
      split; [apply Hwf'|]. split; [|exact Hc].
      repeat split; auto. apply list_lookup_insert_eq. lia.
    + split; [|split; [reflexivity | unfold size; simpl; lia]].
      split; [apply Hwf'|]. split; [exact I | exact Hc].
  - destruct Hp as (-> & Hnf & Hslot). simpl.
    split; [|split; [reflexivity|]].
    + split; [|split; [exact I|]].
      * unfold well_formed. simpl. auto using next_in_range.
      * unfold consumer_invariant in *. simpl in *.
        destruct c as [|ch|ch|v ch|v]; auto.
        -- destruct Hc as [-> Hne]. split; congruence.
        -- destruct Hc as [-> Hne]. split; congruence.
    + rewrite (size_advance_tail _ Hcap _ _ (buffer_ rb)) by assumption.
      change (size Capacity (mkRingBuffer _ _ _)) with (size Capacity rb).
      lia.
Qed.

(** A step of the consumer: what both threads know stays true, [tail_]
    stays, the size does not grow. *)
Lemma consumer_step_access (s : system T world) :
  access_invariant Capacity s ->
  let s' := consumer_step Capacity s in
  access_invariant Capacity s' /\
  tail_ (shared s') = tail_ (shared s) /\
  size Capacity (shared s') <= size Capacity (shared s).
Proof.
  destruct s as [rb p c todo h w]. intros (Hwf & Hp & Hc).
  pose proof Hwf as (Hh & Ht & Hlen).
  unfold access_invariant, consumer_invariant, consumer_step in *.
  simpl in *.
  destruct c as [|ch|ch|v ch|v].
  - split; [exact (conj Hwf (conj Hp eq_refl))|]. split; [reflexivity | simpl; lia].
  - subst ch.
    destruct (Z.eqb_spec (head_ rb) (tail_ rb)) as [He|He]; simpl.
    + split; [exact (conj Hwf (conj Hp I))|]. split; [reflexivity | simpl; lia].
    + split; [exact (conj Hwf (conj Hp (conj eq_refl He)))|].
      split; [reflexivity | simpl; lia].
  - destruct Hc as [-> Hne].
    destruct (buffer_ rb !! Z.to_nat (head_ rb)) as [slot|] eqn:Hslot; simpl.
    2: { split; [exact (conj Hwf (conj Hp I))|]. split; [reflexivity | simpl; lia]. }
    assert (Hwf' : forall slot',
      well_formed Capacity
        (mkRingBuffer (head_ rb) (tail_ rb)
           (<[Z.to_nat (head_ rb) := slot']> (buffer_ rb)))).
    { intros slot'. unfold well_formed. simpl. now rewrite length_insert. }
    assert (Hp' : forall slot' w',
      producer_invariant Capacity
        (mkSystem
           (mkRingBuffer (head_ rb) (tail_ rb)
              (<[Z.to_nat (head_ rb) := slot']> (buffer_ rb)))
           p (@ConsumerIdle T) todo h w')).
    { intros slot' w'. unfold producer_invariant in *. simpl in *.
      destruct p as [|mv it ct|mv it ct nt|it nt]; auto.
      destruct Hp as (Hnt & Hnf & Hs). repeat split; auto.
      rewrite list_lookup_insert_ne by lia. exact Hs. }
    destruct (move_construct w slot) as [[[item slot']|slot'] w'] eqn:Hm;
      simpl.
    + split; [|split; [reflexivity | unfold size; simpl; lia]].
      split; [apply Hwf'|]. split; [apply (Hp' slot' w') | now split].
    + split; [|split; [reflexivity | unfold size; simpl; lia]].
      split; [apply Hwf'|]. split; [apply (Hp' slot' w') | exact I].
  - destruct Hc as [-> Hne]. rewrite (next_index _ Hcap) in *. simpl.
    split; [|split; [reflexivity|]].
    + split; [|split; [|exact I]].
      * unfold well_formed. simpl. auto using next_in_range.
      * unfold producer_invariant in *. simpl in *.
        destruct p as [|mv it ct|mv it ct nt|it nt]; auto.
        -- destruct Hp as (Hct & Hnt & Hnf). repeat split; auto.
           subst nt. intros Heq. apply next_injective in Heq; congruence.
        -- destruct Hp as (Hnt & Hnf & Hs). repeat split; auto.
           subst nt. intros Heq. apply next_injective in Heq; congruence.
    + rewrite (size_advance_head _ Hcap _ _ (buffer_ rb)) by assumption.
      change (size Capacity (mkRingBuffer _ _ _)) with (size Capacity rb).
      lia.
  - destruct (move_construct w v) as [[[value v']|v'] w'] eqn:Hm; simpl.
    + split; [exact (conj Hwf (conj Hp I))|]. split; [reflexivity | simpl; lia].
    + split; [exact (conj Hwf (conj Hp I))|]. split; [reflexivity | simpl; lia].
Qed.

Lemma run_schedule_access schedule : forall s : system T world,
  access_invariant Capacity s ->
  access_invariant Capacity (run_schedule Capacity schedule s).
Proof.
  induction schedule as [|t schedule IH]; intros s Hs; [exact Hs|].
  simpl. apply IH. destruct t; simpl.
  - now apply producer_step_access.
  - now apply consumer_step_access.
Qed.

Lemma producer_steps_size k : forall s : system T world,
  access_invariant Capacity s ->
  let s' := run_schedule Capacity (repeat producer_thread k) s in
  head_ (shared s') = head_ (shared s) /\
  size Capacity (shared s) <= size Capacity (shared s').
Proof.
  induction k as [|k IH]; intros s Hs; simpl; [split; [reflexivity | simpl; lia]|].
  destruct (producer_step_access s Hs) as (Hs' & Hh & Hsz).
  destruct (IH _ Hs') as [Hh' Hsz'].
  split; [congruence | lia].
Qed.

Lemma consumer_steps_size k : forall s : system T world,
  access_invariant Capacity s ->
  let s' := run_schedule Capacity (repeat consumer_thread k) s in
  tail_ (shared s') = tail_ (shared s) /\
  size Capacity (shared s') <= size Capacity (shared s).
Proof.
  induction k as [|k IH]; intros s Hs; simpl; [split; [reflexivity | simpl; lia]|].
  destruct (consumer_step_access s Hs) as (Hs' & Ht & Hsz).
  destruct (IH _ Hs') as [Ht' Hsz'].
  split; [congruence | lia].
Qed.

End Accesses.

(** X15.  The two threads never touch the same slot at the same time,
    and never a slot outside the array.  Under every schedule of one
    producer and one consumer, for every element type: when the producer
    is about to assign [buffer_[current_tail]] that slot exists, and if
    the consumer is at that moment about to move out of
    [buffer_[current_head]] the two slots are different; when the
    consumer is about to move out of [buffer_[current_head]] that slot
    exists. *)
Theorem slot_accesses_never_collide (Capacity : Z) (T : Type) `{Element T}
    (w : world) (slots : list T) (pushes : list (bool * T))
    (schedule : list thread) :
  valid_capacity Capacity ->
  length slots = Z.to_nat Capacity ->
  let s := run_schedule Capacity schedule (system_new w slots pushes) in
  (forall move item current_tail next_tail,
     producer s = ProducerChecked move item current_tail next_tail ->
     is_Some (buffer_ (shared s) !! Z.to_nat current_tail) /\
     forall current_head,
       consumer s = ConsumerChecked current_head ->
       Z.to_nat current_head <> Z.to_nat current_tail) /\
  (forall current_head,
     consumer s = ConsumerChecked current_head ->
     is_Some (buffer_ (shared s) !! Z.to_nat current_head)).
Proof.
  intros Hcap Hlen s.
  destruct (run_schedule_access Capacity Hcap schedule _
              (access_invariant_new Capacity Hcap w slots pushes Hlen))
    as ((Hh & Ht & Hl) & Hp & Hc).
  fold s in Hh, Ht, Hl, Hp, Hc.
  unfold producer_invariant in Hp. unfold consumer_invariant in Hc.
  split.
  - intros mv item ct nt Hprod. rewrite Hprod in Hp.
    destruct Hp as (-> & _ & _). split.
    + apply lookup_lt_is_Some. lia.
    + intros ch Hcons. rewrite Hcons in Hc. destruct Hc as [-> Hne]. lia.
  - intros ch Hcons. rewrite Hcons in Hc. destruct Hc as [-> _].
    apply lookup_lt_is_Some. lia.
Qed.

Lemma slot_accesses_never_collide_witness :
  let s := run_schedule (H:=int_Element) 4
             [producer_thread; producer_thread; producer_thread;
              producer_thread; producer_thread; consumer_thread;
              producer_thread; consumer_thread]
             (system_new tt [0; 0; 0; 0] [(false, 1); (true, 2)]) in
  (forall move item current_tail next_tail,
     producer s = ProducerChecked move item current_tail next_tail ->
     is_Some (buffer_ (shared s) !! Z.to_nat current_tail) /\
     forall current_head,
       consumer s = ConsumerChecked current_head ->
       Z.to_nat current_head <> Z.to_nat current_tail) /\
  (forall current_head,
     consumer s = ConsumerChecked current_head ->
     is_Some (buffer_ (shared s) !! Z.to_nat current_head)).
Proof.
  apply (slot_accesses_never_collide 4 Z (H:=int_Element)).
  - literal_capacity.
  - reflexivity.
Defined.

(** X16.  [size()] called by one of the two threads while the other one
    runs errs on the safe side.  Called between two calls of the
    producer, with the consumer taking any number of steps between the
    load of [head_] and the load of [tail_], it returns the size at its
    first load, which the size at its second load does not exceed: at
    least [capacity() - size()] slots are free.  Called between two
    calls of the consumer, with the producer taking any number of steps
    between the two loads, it returns the size at its second load, which
    is at least the size at its first: at least [size()] elements are
    there to pop. *)
Theorem size_is_conservative (Capacity : Z) (T : Type) `{Element T}
    (w : world) (slots : list T) (pushes : list (bool * T))
    (schedule : list thread) (k : nat) :
  valid_capacity Capacity ->
  length slots = Z.to_nat Capacity ->
  let s := run_schedule Capacity schedule (system_new w slots pushes) in
  let later_c := run_schedule Capacity (repeat consumer_thread k) s in
  let later_p := run_schedule Capacity (repeat producer_thread k) s in
  (size_loads Capacity (shared s) (shared later_c) = size Capacity (shared s) /\
   size Capacity (shared later_c) <= size Capacity (shared s)) /\
  (size_loads Capacity (shared s) (shared later_p)
   = size Capacity (shared later_p) /\
   size Capacity (shared s) <= size Capacity (shared later_p)).
Proof.
  intros Hcap Hlen s later_c later_p.
  pose proof (run_schedule_access Capacity Hcap schedule _
                (access_invariant_new Capacity Hcap w slots pushes Hlen))
    as Hs.
  fold s in Hs.
  destruct (consumer_steps_size Capacity Hcap k s Hs) as [Ht Hc].
  destruct (producer_steps_size Capacity Hcap k s Hs) as [Hh Hp].
  fold later_c in Ht, Hc. fold later_p in Hh, Hp.
  split; split; try assumption.
  - unfold size_loads, size. now rewrite Ht.
  - unfold size_loads, size. now rewrite Hh.
Qed.

Lemma size_is_conservative_witness :
  let P := producer_thread in
  let C := consumer_thread in
  let s := run_schedule (H:=int_Element) 4 [P; P; P; P; P; P; P; P; C]
             (system_new tt [0; 0; 0; 0] [(false, 1); (true, 2); (false, 3)]) in
  let later_c := run_schedule (H:=int_Element) 4 (repeat consumer_thread 6) s in
  let later_p := run_schedule (H:=int_Element) 4 (repeat producer_thread 6) s in
  (size_loads 4 (shared s) (shared later_c) = size 4 (shared s) /\
   size 4 (shared later_c) <= size 4 (shared s)) /\
  (size_loads 4 (shared s) (shared later_p) = size 4 (shared later_p) /\
   size 4 (shared s) <= size 4 (shared later_p)).
Proof.
  apply (size_is_conservative 4 Z (H:=int_Element) tt [0; 0; 0; 0]
           [(false, 1); (true, 2); (false, 3)]
           [producer_thread; producer_thread; producer_thread;
            producer_thread; producer_thread; producer_thread;
            producer_thread; producer_thread; consumer_thread] 6).
  - literal_capacity.
  - reflexivity.
Defined.

(** * The steps of a call *)

Section WaitFree.
Variable Capacity : Z.
Context {T : Type} `{Element T}.

(** Every step of a [try_push] under way brings it nearer its end, and
    leaves the consumer where it is. *)
Lemma producer_step_rank (s : system T world) :
  producer s <> ProducerIdle ->
  (producer_rank (producer (producer_step Capacity s))
   < producer_rank (producer s))%nat.
Proof.
  destruct s as [rb p c todo h w]. unfold producer_step. simpl.
  destruct p as [|mv item ct|mv item ct nt|item nt]; simpl; intros Hp.
  - congruence.
  - destruct (_ =? _); simpl; lia.
  - destruct (buffer_ rb !! Z.to_nat ct) as [slot|]; simpl; [|lia].
    destruct (assign_slot _ _ _ _) as [[slot'|slot'] w']; simpl; lia.
  - lia.
Qed.

Lemma producer_step_consumer (s : system T world) :
  consumer (producer_step Capacity s) = consumer s.
Proof.
  destruct s as [rb p c todo h w]. unfold producer_step. simpl.
  destruct p as [|mv item ct|mv item ct nt|item nt]; simpl.
  - destruct todo as [|[mv item] rest]; reflexivity.
  - destruct (_ =? _); reflexivity.
  - destruct (buffer_ rb !! Z.to_nat ct) as [slot|]; [|reflexivity].
    destruct (assign_slot _ _ _ _) as [[slot'|slot'] w']; reflexivity.
  - reflexivity.
Qed.

(** The same for a [try_pop] under way. *)
Lemma consumer_step_rank (s : system T world) :
  consumer s <> ConsumerIdle ->
  (consumer_rank (consumer (consumer_step Capacity s))
   < consumer_rank (consumer s))%nat.
Proof.
  destruct s as [rb p c todo h w]. unfold consumer_step. simpl.
  destruct c as [|ch|ch|v ch|v]; simpl; intros Hc.
  - congruence.
  - destruct (_ =? _); simpl; lia.
  - destruct (buffer_ rb !! Z.to_nat ch) as [slot|]; simpl; [|lia].
    destruct (move_construct w slot) as [[[item slot']|slot'] w']; simpl; lia.
  - lia.
  - destruct (move_construct w v) as [[[value v']|v'] w']; simpl; lia.
Qed.

Lemma consumer_step_producer (s : system T world) :
  producer (consumer_step Capacity s) = producer s.
Proof.
  destruct s as [rb p c todo h w]. unfold consumer_step. simpl.
  destruct c as [|ch|ch|v ch|v]; simpl; try reflexivity.
  - destruct (_ =? _); reflexivity.
  - destruct (buffer_ rb !! Z.to_nat ch) as [slot|]; [|reflexivity].
    destruct (move_construct w slot) as [[[item slot']|slot'] w']; reflexivity.
  - destruct (move_construct w v) as [[[value v']|v'] w']; reflexivity.
Qed.

Lemma producer_returns schedule : forall s : system T world,
  (producer_rank (producer s) <= count_occ thread_eq_dec schedule producer_thread)%nat ->
  exists done rest,
    schedule = done ++ rest /\
    (count_occ thread_eq_dec done producer_thread
     <= producer_rank (producer s))%nat /\
    producer (run_schedule Capacity done s) = ProducerIdle.
Proof.
  induction schedule as [|t schedule IH]; intros s Hsteps.
  - exists [], []. split; [reflexivity|]. split; [simpl; lia|]. simpl in *.
    destruct (producer s); simpl in Hsteps; [reflexivity | lia ..].
  - destruct (producer s) eqn:Hp.
    { exists [], (t :: schedule). split; [reflexivity|]. now split. }
    all: destruct t; simpl in Hsteps;
      [ pose proof (producer_step_rank s) as Hlt;
        rewrite Hp in Hlt; specialize (Hlt ltac:(discriminate));
        destruct (IH (producer_step Capacity s))
          as (done & rest & -> & Hn & Hd);
        [simpl in *; lia|];
        exists (producer_thread :: done), rest;
        split; [reflexivity|]; split; [simpl in *; lia | exact Hd]
      | pose proof (consumer_step_producer s) as Hsame;
        destruct (IH (consumer_step Capacity s))
          as (done & rest & -> & Hn & Hd);
        [rewrite Hsame, Hp; simpl in *; lia|];
        exists (consumer_thread :: done), rest;
        split; [reflexivity|]; split; [|exact Hd];
        rewrite Hsame, Hp in Hn; simpl in *; lia ].
Qed.

Lemma consumer_returns schedule : forall s : system T world,
  (consumer_rank (consumer s) <= count_occ thread_eq_dec schedule consumer_thread)%nat ->
  exists done rest,
    schedule = done ++ rest /\
    (count_occ thread_eq_dec done consumer_thread
     <= consumer_rank (consumer s))%nat /\
    consumer (run_schedule Capacity done s) = ConsumerIdle.
Proof.
  induction schedule as [|t schedule IH]; intros s Hsteps.
  - exists [], []. split; [reflexivity|]. split; [simpl; lia|]. simpl in *.
    destruct (consumer s); simpl in Hsteps; [reflexivity | lia ..].
  - destruct (consumer s) eqn:Hc.
    { exists [], (t :: schedule). split; [reflexivity|]. now split. }
    all: destruct t; simpl in Hsteps;
      [ pose proof (producer_step_consumer s) as Hsame;
        destruct (IH (producer_step Capacity s))
          as (done & rest & -> & Hn & Hd);
        [rewrite Hsame, Hc; simpl in *; lia|];
        exists (producer_thread :: done), rest;
        split; [reflexivity|]; split; [|exact Hd];
        rewrite Hsame, Hc in Hn; simpl in *; lia
      | pose proof (consumer_step_rank s) as Hlt;
        rewrite Hc in Hlt; specialize (Hlt ltac:(discriminate));
        destruct (IH (consumer_step Capacity s))
          as (done & rest & -> & Hn & Hd);
        [simpl in *; lia|];
        exists (consumer_thread :: done), rest;
        split; [reflexivity|]; split; [simpl in *; lia | exact Hd] ].
Qed.

End WaitFree.

(** X18.  The member functions are wait-free: a call under way returns
    after a bounded number of steps of its own thread, whatever the
    other thread does and however its steps fall in between.  From any
    state, in any schedule in which the producer takes three steps, the
    [try_push] under way has returned by the third; in any schedule in
    which the consumer takes four steps, the [try_pop] under way has
    returned by the fourth.  With the step that begins it, a [try_push]
    is at most four steps and a [try_pop] at most five. *)
Theorem calls_are_wait_free (Capacity : Z) (T : Type) `{Element T}
    (s : system T world) (schedule : list thread) :
  ((3 <= count_occ thread_eq_dec schedule producer_thread)%nat ->
   exists done rest,
     schedule = done ++ rest /\
     (count_occ thread_eq_dec done producer_thread <= 3)%nat /\
     producer (run_schedule Capacity done s) = ProducerIdle) /\
  ((4 <= count_occ thread_eq_dec schedule consumer_thread)%nat ->
   exists done rest,
     schedule = done ++ rest /\
     (count_occ thread_eq_dec done consumer_thread <= 4)%nat /\
     consumer (run_schedule Capacity done s) = ConsumerIdle).
Proof.
  assert (Hp : (producer_rank (producer s) <= 3)%nat)
    by (destruct (producer s); simpl; lia).
  assert (Hc : (consumer_rank (consumer s) <= 4)%nat)
    by (destruct (consumer s); simpl; lia).
  split; intros Hsteps.
  - destruct (producer_returns Capacity schedule s)
      as (done & rest & Hsplit & Hn & Hd); [lia|].
    exists done, rest. split; [exact Hsplit|]. split; [lia | exact Hd].
  - destruct (consumer_returns Capacity schedule s)
      as (done & rest & Hsplit & Hn & Hd); [lia|].
    exists done, rest. split; [exact Hsplit|]. split; [lia | exact Hd].
Qed.

Lemma calls_are_wait_free_witness :
  let P := producer_thread in
  let C := consumer_thread in
  let s := run_schedule (H:=int_Element) 4 [P; C; C; P; P; P; P; C]
             (system_new tt [0; 0; 0; 0] [(false, 1); (true, 2)]) in
  let schedule := [C; P; C; C; P; C; P; P; C] in
  ((3 <= count_occ thread_eq_dec schedule producer_thread)%nat ->
   exists done rest,
     schedule = done ++ rest /\
     (count_occ thread_eq_dec done producer_thread <= 3)%nat /\
     producer (run_schedule (H:=int_Element) 4 done s) = ProducerIdle) /\
  ((4 <= count_occ thread_eq_dec schedule consumer_thread)%nat ->
   exists done rest,
     schedule = done ++ rest /\
     (count_occ thread_eq_dec done consumer_thread <= 4)%nat /\
     consumer (run_schedule (H:=int_Element) 4 done s) = ConsumerIdle).
Proof.
  apply (calls_are_wait_free 4 Z (H:=int_Element)).
Defined.

(** * The threads of the SPSC test *)

Section TestThreadProofs.
Variable Capacity : Z.
Hypothesis Hcap : valid_capacity Capacity.
Context {T : Type} `{Element T}.
Hypothesis Hcopy : is_nothrow_copy_assignable T.
Hypothesis Hmove : is_nothrow_move_assignable T.
Hypothesis Hnothrow : is_nothrow_move_constructible T.

Local Abbreviation next i := ((i + 1) mod Capacity).

(** The assignment to the slot does not raise. *)
Lemma assign_slot_noexcept move w (slot item slot' : T) w' :
  assign_slot move w slot item = (Raised slot', w') -> False.
Proof.
  unfold assign_slot. destruct move.
  - destruct (Hmove w slot item) as ([d s] & w'' & ->). discriminate.
  - destruct (Hcopy w slot item) as (d & w'' & ->). discriminate.
Qed.

(** The queue of pushes to come plays no part in the invariant. *)
Lemma system_invariant_to_push rb p (c : consumer_state T) todo todo' h
    (w : world) :
  system_invariant Capacity (mkSystem rb p c todo h w) ->
  system_invariant Capacity (mkSystem rb p c todo' h w).
Proof. intros Hs. exact Hs. Qed.

(** A step of the producer thread of the test: the invariant of the
    interleaved steps stays, and no item is lost or made twice. *)
Lemma producer_retry_step_invariant (s : system T world) :
  system_invariant Capacity s ->
  let s' := producer_retry_step Capacity s in
  system_invariant Capacity s' /\
  accepted (seen s') ++ unsent s' = accepted (seen s) ++ unsent s.
Proof.
  intros Hs.
  pose proof (producer_step_invariant Capacity Hcap s Hs) as Hs'.
  destruct s as [rb p c todo h w].
  destruct Hs as (Hwf & Hp & Hc & Hfifo).
  pose proof Hwf as (Hh & Ht & Hlen).
  unfold producer_retry_step, producer_step, unsent in *.
  unfold producer_invariant in Hp. simpl in *.
  destruct p as [|mv item ct|mv item ct nt|item nt].
  - destruct todo as [|[mv item] rest]; simpl in *; split; auto.
  - destruct (Z.land (wrap (ct + 1)) (kIndexMask Capacity) =? head_ rb);
      simpl in *; split; auto.
  - destruct Hp as (-> & -> & Hnf).
    destruct (slot_exists Capacity (buffer_ rb) _ Hlen Ht) as [slot Hslot].
    rewrite Hslot in *.
    destruct (assign_slot mv w slot item) as [[slot'|slot'] w'] eqn:Ha;
      simpl in *.
    + split; auto.
    + destruct (assign_slot_noexcept _ _ _ _ _ _ Ha).
  - simpl in *. split; [exact Hs'|]. now rewrite <- app_assoc.
Qed.

(** A step of the consumer thread of the test. *)
Lemma consumer_until_step_invariant wanted (s : system T world) :
  system_invariant Capacity s ->
  let s' := consumer_until_step Capacity wanted s in
  system_invariant Capacity s' /\
  accepted (seen s') ++ unsent s' = accepted (seen s) ++ unsent s.
Proof.
  intros Hs.
  pose proof (consumer_step_invariant Capacity Hcap Hnothrow s Hs) as Hs'.
  assert (Hsame : accepted (seen (consumer_step Capacity s))
                  ++ unsent (consumer_step Capacity s)
                  = accepted (seen s) ++ unsent s).
  { destruct s as [rb p c todo h w]. unfold consumer_step, unsent. simpl.
    destruct c as [|ch|ch|v ch|v]; simpl; try reflexivity.
    - destruct (ch =? tail_ rb); reflexivity.
    - destruct (buffer_ rb !! Z.to_nat ch) as [slot|]; [|reflexivity].
      destruct (move_construct w slot) as [[[item slot']|slot'] w'];
        reflexivity.
    - destruct (move_construct w v) as [[[value v']|v'] w']; reflexivity. }
  unfold consumer_until_step.
  destruct (consumer s); auto.
  destruct (length (popped (seen s)) <? wanted)%nat; auto.
Qed.

Lemma run_test_invariant wanted schedule : forall s : system T world,
  system_invariant Capacity s ->
  let s' := run_test Capacity wanted schedule s in
  system_invariant Capacity s' /\
  accepted (seen s') ++ unsent s' = accepted (seen s) ++ unsent s.
Proof.
  induction schedule as [|t schedule IH]; intros s Hs; [now split|].
  simpl.
  assert (Hstep : system_invariant Capacity (test_thread_step Capacity wanted s t) /\
                  accepted (seen (test_thread_step Capacity wanted s t))
                  ++ unsent (test_thread_step Capacity wanted s t)
                  = accepted (seen s) ++ unsent s).
  { destruct t; simpl.
    - now apply producer_retry_step_invariant.
    - now apply consumer_until_step_invariant. }
  destruct Hstep as [Hs' Hsame].
  destruct (IH _ Hs') as [Hs'' Hsame'].
  split; [exact Hs''|]. now rewrite <- Hsame.
Qed.

End TestThreadProofs.

(** X19.  The "SPSC Correctness" test, under every schedule of its two
    threads.  At every moment each item to send is in exactly one place:
    the received items, followed by the items in the buffer, followed by
    the items not sent yet, are the items to send, in order; so the
    received items are always a prefix of them, whatever number of sends
    had to be retried.  Once the consumer has received as many items as
    there are to send, it has received exactly these, the producer has
    finished and the buffer is empty: the assertions of the test hold.
    [T] is any type whose operations do not raise, as the [int] of the
    test. *)
Theorem spsc_test_receives_in_order (Capacity : Z) (T : Type) `{Element T}
    (w : world) (slots : list T) (pushes : list (bool * T))
    (schedule : list thread) :
  valid_capacity Capacity ->
  is_nothrow_copy_assignable T ->
  is_nothrow_move_assignable T ->
  is_nothrow_move_constructible T ->
  length slots = Z.to_nat Capacity ->
  let items := map snd pushes in
  let s := run_test Capacity (length items) schedule
             (system_new w slots pushes) in
  popped (seen s) ++ in_flight Capacity s ++ unsent s = items /\
  popped (seen s) = take (length (popped (seen s))) items /\
  (length (popped (seen s)) = length items ->
   popped (seen s) = items /\ accepted (seen s) = items /\
   producer s = ProducerIdle /\ to_push s = [] /\
   empty (shared s) = true).
Proof.
  intros Hcap Hcopy Hmove Hnothrow Hlen items s.
  destruct (run_test_invariant Capacity Hcap Hcopy Hmove Hnothrow
              (length items) schedule _
              (system_invariant_new Capacity Hcap w slots pushes Hlen))
    as [(Hwf & _ & _ & Hfifo) Hsame].
  fold s in Hwf, Hfifo, Hsame. simpl in Hsame. fold items in Hsame.
  assert (Hall : popped (seen s) ++ in_flight Capacity s ++ unsent s = items).
  { rewrite app_assoc, <- Hfifo. exact Hsame. }
  split; [exact Hall|]. split.
  { transitivity (take (length (popped (seen s)))
                    (popped (seen s) ++ in_flight Capacity s ++ unsent s)).
    - now rewrite take_app_length.
    - now rewrite Hall. }
  intros Hdone.
  assert (Hrest : in_flight Capacity s ++ unsent s = []).
  { apply length_zero_iff_nil.
    apply (f_equal length) in Hall. rewrite length_app in Hall. lia. }
  apply app_eq_nil in Hrest as [Hfl Hun].
  rewrite Hfl, Hun, !app_nil_r in Hall.
  split; [exact Hall|].
  split; [now rewrite Hfifo, Hfl, app_nil_r|].
  unfold unsent in Hun. apply app_eq_nil in Hun as [Hp Htodo].
  split; [destruct (producer s); [reflexivity | discriminate ..]|].
  split; [destruct (to_push s); [reflexivity | discriminate]|].
  unfold in_flight in Hfl.
  assert (Hnil : contents Capacity (shared s) = [])
    by (destruct (consumer s); try discriminate; exact Hfl).
  unfold empty. apply Z.eqb_eq.
  now apply (contents_nil_iff Capacity Hcap _ Hwf).
Qed.

Lemma spsc_test_receives_in_order_witness :
  let P := producer_thread in
  let C := consumer_thread in
  let pushes := [(false, 0); (false, 1); (false, 2)] in
  let items := map snd pushes in
  let s := run_test (H:=int_Element) 2 (length items)
             [P; C; P; C; P; P; P; P; C; C; P; C; P; C; C; P; C; P; C; P; C;
              C; P; P; P; P; C; C; C; C; C; P; P; P; P; C; C; C; C; C; C; C]
             (system_new tt [0; 0] pushes) in
  popped (seen s) ++ in_flight 2 s ++ unsent s = items /\
  popped (seen s) = take (length (popped (seen s))) items /\
  (length (popped (seen s)) = length items ->
   popped (seen s) = items /\ accepted (seen s) = items /\
   producer s = ProducerIdle /\ to_push s = [] /\
   empty (shared s) = true).
Proof.
  apply (spsc_test_receives_in_order 2 Z (H:=int_Element) tt [0; 0]
           [(false, 0); (false, 1); (false, 2)]).
  - literal_capacity.
  - intros w dst src. exists src, w. reflexivity.
  - intros w dst src. exists (src, src), w. reflexivity.
  - intros w src. exists (src, src), w. reflexivity.
  - reflexivity.
Defined.

(** * The SPSC test goes on *)

Section TestProgress.
Variable Capacity : Z.
Hypothesis Hcap : valid_capacity Capacity.
Context {T : Type} `{Element T}.
Hypothesis Hcopy : is_nothrow_copy_assignable T.
Hypothesis Hmove : is_nothrow_move_assignable T.
Hypothesis Hnothrow : is_nothrow_move_constructible T.
Variable wanted : nat.

Local Abbreviation next i := ((i + 1) mod Capacity).

Lemma run_test_app schedule1 schedule2 (s : system T world) :
  run_test Capacity wanted (schedule1 ++ schedule2) s
  = run_test Capacity wanted schedule2 (run_test Capacity wanted schedule1 s).
Proof. apply fold_left_app. Qed.

(** A step of the producer thread leaves the consumer's side alone. *)
Lemma producer_retry_step_frame (s : system T world) :
  let s' := producer_retry_step Capacity s in
  consumer s' = consumer s /\ popped (seen s') = popped (seen s).
Proof.
  destruct s as [rb p c todo h w].
  unfold producer_retry_step, producer_step. simpl.
  destruct p as [|mv item ct|mv item ct nt|item nt]; simpl.
  - destruct todo as [|[mv item] rest]; simpl; auto.
  - destruct (_ =? _); simpl; auto.
  - destruct (buffer_ rb !! Z.to_nat ct) as [slot|]; simpl; auto.
    destruct (assign_slot _ _ _ _) as [[slot'|slot'] w']; simpl; auto.
  - auto.
Qed.

(** A step of the consumer thread leaves the producer's side alone. *)
Lemma consumer_until_step_frame (s : system T world) :
  let s' := consumer_until_step Capacity wanted s in
  producer s' = producer s /\ to_push s' = to_push s /\
  accepted (seen s') = accepted (seen s).
Proof.
  destruct s as [rb p c todo h w].
  unfold consumer_until_step, consumer_step. simpl.
  destruct c as [|ch|ch|v ch|v]; simpl.
  - destruct (_ <? _)%nat; simpl; auto.
  - destruct (_ =? _); simpl; auto.
  - destruct (buffer_ rb !! Z.to_nat ch) as [slot|]; simpl; auto.
    destruct (move_construct w slot) as [[[item slot']|slot'] w']; simpl; auto.
  - auto.
  - destruct (move_construct w v) as [[[value v']|v'] w']; simpl; auto.
Qed.

Lemma producer_retry_step_rank (s : system T world) :
  producer s <> ProducerIdle ->
  (producer_rank (producer (producer_retry_step Capacity s))
   < producer_rank (producer s))%nat.
Proof.
  destruct s as [rb p c todo h w].
  unfold producer_retry_step, producer_step. simpl.
  destruct p as [|mv item ct|mv item ct nt|item nt]; simpl; intros Hp.
  - congruence.
  - destruct (_ =? _); simpl; lia.
  - destruct (buffer_ rb !! Z.to_nat ct) as [slot|]; simpl; [|lia].
    destruct (assign_slot _ _ _ _) as [[slot'|slot'] w']; simpl; lia.
  - lia.
Qed.

Lemma consumer_until_step_rank (s : system T world) :
  consumer s <> ConsumerIdle ->
  (consumer_rank (consumer (consumer_until_step Capacity wanted s))
   < consumer_rank (consumer s))%nat.
Proof.
  destruct s as [rb p c todo h w].
  unfold consumer_until_step, consumer_step. simpl.
  destruct c as [|ch|ch|v ch|v]; simpl; intros Hc.
  - congruence.
  - destruct (_ =? _); simpl; lia.
  - destruct (buffer_ rb !! Z.to_nat ch) as [slot|]; simpl; [|lia].
    destruct (move_construct w slot) as [[[item slot']|slot'] w']; simpl; lia.
  - lia.
  - destruct (move_construct w v) as [[[value v']|v'] w']; simpl; lia.
Qed.

(** Each thread, given the steps, ends the call it is in. *)
Lemma producer_ends_call n : forall s : system T world,
  (producer_rank (producer s) <= n)%nat ->
  exists k,
    let s' := run_test Capacity wanted (repeat producer_thread k) s in
    producer s' = ProducerIdle /\ consumer s' = consumer s.
Proof.
  induction n as [|n IH]; intros s Hrank.
  - exists O. simpl. split; [|reflexivity].
    destruct (producer s); simpl in Hrank; [reflexivity | lia ..].
  - destruct (producer s) eqn:Hp.
    { exists O. simpl. now split. }
    all: pose proof (producer_retry_step_rank s) as Hlt;
      rewrite Hp in Hlt; specialize (Hlt ltac:(discriminate));
      destruct (producer_retry_step_frame s) as [Hc _];
      destruct (IH (producer_retry_step Capacity s)) as [k [Hk1 Hk2]];
      [simpl in *; lia|];
      exists (S k); simpl; split; [exact Hk1 | congruence].
Qed.

Lemma consumer_ends_call n : forall s : system T world,
  (consumer_rank (consumer s) <= n)%nat ->
  exists k,
    let s' := run_test Capacity wanted (repeat consumer_thread k) s in
    consumer s' = ConsumerIdle /\ producer s' = producer s.
Proof.
  induction n as [|n IH]; intros s Hrank.
  - exists O. simpl. split; [|reflexivity].
    destruct (consumer s); simpl in Hrank; [reflexivity | lia ..].
  - destruct (consumer s) eqn:Hc.
    { exists O. simpl. now split. }
    all: pose proof (consumer_until_step_rank s) as Hlt;
      rewrite Hc in Hlt; specialize (Hlt ltac:(discriminate));
      destruct (consumer_until_step_frame s) as [Hp _];
      destruct (IH (consumer_until_step Capacity wanted s)) as [k [Hk1 Hk2]];
      [simpl in *; lia|];
      exists (S k); simpl; split; [exact Hk1 | congruence].
Qed.

(** With both threads between calls and a live element in the buffer,
    the consumer's next call takes it. *)
Lemma consumer_takes_one rb p todo h (w : world) :
  well_formed Capacity rb -> head_ rb <> tail_ rb ->
  (length (popped h) < wanted)%nat ->
  let s' := run_test Capacity wanted (repeat consumer_thread 5)
              (mkSystem rb p ConsumerIdle todo h w) in
  consumer s' = ConsumerIdle /\ producer s' = p /\ to_push s' = todo /\
  accepted (seen s') = accepted h /\
  length (popped (seen s')) = S (length (popped h)).
Proof.
  intros (Hh & Ht & Hlen) Hne Hwanted.
  destruct (slot_exists Capacity (buffer_ rb) _ Hlen Hh) as [slot Hslot].
  destruct (Hnothrow w slot) as ([item slot'] & w1 & Hm1).
  destruct (Hnothrow w1 item) as ([value item'] & w2 & Hm2).
  apply Nat.ltb_lt in Hwanted. apply Z.eqb_neq in Hne.
  set (step := consumer_until_step Capacity wanted).
  set (taken := mkRingBuffer (head_ rb) (tail_ rb)
                  (<[Z.to_nat (head_ rb) := slot']> (buffer_ rb))).
  set (published := mkRingBuffer
                      (Z.land (wrap (head_ rb + 1)) (kIndexMask Capacity))
                      (tail_ rb)
                      (<[Z.to_nat (head_ rb) := slot']> (buffer_ rb))).
  assert (H1 : step (mkSystem rb p ConsumerIdle todo h w)
               = mkSystem rb p (ConsumerLoadedHead (head_ rb)) todo h w).
  { unfold step, consumer_until_step, consumer_step. simpl.
    now rewrite Hwanted. }
  assert (H2 : step (mkSystem rb p (ConsumerLoadedHead (head_ rb)) todo h w)
               = mkSystem rb p (ConsumerChecked (head_ rb)) todo h w).
  { unfold step, consumer_until_step, consumer_step. simpl.
    now rewrite Hne. }
  assert (H3 : step (mkSystem rb p (ConsumerChecked (head_ rb)) todo h w)
               = mkSystem taken p (ConsumerTaken item (head_ rb)) todo h w1).
  { unfold step, consumer_until_step, consumer_step. simpl.
    now rewrite Hslot, Hm1. }
  assert (H4 : step (mkSystem taken p (ConsumerTaken item (head_ rb)) todo h w1)
               = mkSystem published p (ConsumerPublished item) todo h w1)
    by reflexivity.
  assert (H5 : step (mkSystem published p (ConsumerPublished item) todo h w1)
               = mkSystem published p ConsumerIdle todo
                   (log_pop (Returns (Some value)) h) w2).
  { unfold step, consumer_until_step, consumer_step. simpl.
    now rewrite Hm2. }
  change (run_test Capacity wanted (repeat consumer_thread 5)
            (mkSystem rb p ConsumerIdle todo h w))
    with (step (step (step (step (step
            (mkSystem rb p ConsumerIdle todo h w)))))).
  rewrite H1, H2, H3, H4, H5. simpl.
  rewrite length_app. simpl. repeat split; lia.
Qed.

(** With both threads between calls and the buffer empty, the
    producer's next call sends its item. *)
Lemma producer_sends_one rb (c : consumer_state T) move item rest h (w : world) :
  well_formed Capacity rb -> head_ rb = tail_ rb ->
  let s' := run_test Capacity wanted (repeat producer_thread 4)
              (mkSystem rb ProducerIdle c ((move, item) :: rest) h w) in
  producer s' = ProducerIdle /\ consumer s' = c /\ to_push s' = rest /\
  popped (seen s') = popped h.
Proof.
  intros (Hh & Ht & Hlen) Hempty.
  pose proof (capacity_gt_1 _ Hcap) as Hgt.
  destruct (slot_exists Capacity (buffer_ rb) _ Hlen Ht) as [slot Hslot].
  assert (Hnf : (Z.land (wrap (tail_ rb + 1)) (kIndexMask Capacity)
                 =? head_ rb) = false).
  { apply Z.eqb_neq. rewrite (next_index _ Hcap), Hempty.
    rewrite (succ_mod _ _ Ht). destruct (Z.eqb_spec (tail_ rb + 1) Capacity); lia. }
  destruct (assign_slot move w slot item) as [[slot'|slot'] w'] eqn:Ha.
  2: { destruct (assign_slot_noexcept Hcopy Hmove _ _ _ _ _ _ Ha). }
  set (step := producer_retry_step Capacity).
  set (next_tail := Z.land (wrap (tail_ rb + 1)) (kIndexMask Capacity)).
  set (stored := mkRingBuffer (head_ rb) (tail_ rb)
                   (<[Z.to_nat (tail_ rb) := slot']> (buffer_ rb))).
  assert (H1 : step (mkSystem rb ProducerIdle c ((move, item) :: rest) h w)
               = mkSystem rb (ProducerLoadedTail move item (tail_ rb)) c
                   rest h w) by reflexivity.
  assert (H2 : step (mkSystem rb (ProducerLoadedTail move item (tail_ rb)) c
                       rest h w)
               = mkSystem rb (ProducerChecked move item (tail_ rb) next_tail)
                   c rest h w).
  { unfold step, producer_retry_step, producer_step. simpl.
    fold next_tail. fold next_tail in Hnf. now rewrite Hnf. }
  assert (H3 : step (mkSystem rb
                       (ProducerChecked move item (tail_ rb) next_tail)
                       c rest h w)
               = mkSystem stored (ProducerStored item next_tail) c rest h w').
  { unfold step, producer_retry_step, producer_step. simpl.
    now rewrite Hslot, Ha. }
  assert (H4 : step (mkSystem stored (ProducerStored item next_tail) c rest
                       h w')
               = mkSystem
                   (mkRingBuffer (head_ stored) next_tail (buffer_ stored))
                   ProducerIdle c rest (log_push (Returns true) item h) w')
    by reflexivity.
  change (run_test Capacity wanted (repeat producer_thread 4)
            (mkSystem rb ProducerIdle c ((move, item) :: rest) h w))
    with (step (step (step (step
            (mkSystem rb ProducerIdle c ((move, item) :: rest) h w))))).
  rewrite H1, H2, H3, H4. simpl. repeat split.
Qed.

(** With both threads between calls, some schedule delivers what is
    left: the consumer empties the buffer, then the two threads take
    turns, one push and one pop. *)
Lemma finish_between_calls (items : list T) n : forall s : system T world,
  wanted = length items ->
  system_invariant Capacity s ->
  accepted (seen s) ++ unsent s = items ->
  producer s = ProducerIdle -> consumer s = ConsumerIdle ->
  (length (contents Capacity (shared s)) + 2 * length (to_push s) <= n)%nat ->
  exists more,
    popped (seen (run_test Capacity wanted more s)) = items.
Proof.
  induction n as [|n IH]; intros s Hw Hs Hledger Hp Hc Hn.
  - (* nothing is left *)
    exists []. simpl.
    destruct Hs as (_ & _ & _ & Hfifo).
    unfold in_flight in Hfifo. unfold unsent in Hledger.
    rewrite Hc in Hfifo. rewrite Hp in Hledger.
    destruct (contents Capacity (shared s)); [|simpl in Hn; lia].
    destruct (to_push s); [|simpl in Hn; lia].
    simpl in Hledger. rewrite !app_nil_r in *. congruence.
  - pose proof Hs as (Hwf & _ & _ & Hfifo).
    unfold in_flight in Hfifo. rewrite Hc in Hfifo.
    pose proof Hledger as Hledger0.
    unfold unsent in Hledger. rewrite Hp in Hledger. simpl in Hledger.
    assert (Hcount : (length (popped (seen s))
                      + length (contents Capacity (shared s))
                      + length (to_push s) = wanted)%nat).
    { rewrite Hw, <- Hledger, Hfifo, !length_app, length_map. lia. }
    destruct (Z.eq_dec (head_ (shared s)) (tail_ (shared s))) as [He|He].
    + (* the buffer is empty: the producer sends an item, if one is left *)
      pose proof He as Hnil.
      apply (contents_nil_iff Capacity Hcap _ Hwf) in Hnil.
      destruct s as [rb p c todo h w]. simpl in *. subst p c.
      destruct todo as [|[mv item] rest].
      { exists []. simpl. rewrite Hnil in *. simpl in *.
        rewrite !app_nil_r in *. congruence. }
      destruct (producer_sends_one rb ConsumerIdle mv item rest h w Hwf He)
        as (Hp1 & Hc1 & Ht1 & Hpop1).
      destruct (run_test_invariant Capacity Hcap Hcopy Hmove Hnothrow wanted
                  (repeat producer_thread 4) _ Hs) as [Hs1 Hl1].
      remember (run_test Capacity wanted (repeat producer_thread 4)
                  (mkSystem rb ProducerIdle ConsumerIdle
                     ((mv, item) :: rest) h w)) as s1 eqn:Hs1eq.
      pose proof (eq_trans Hl1 Hledger0) as Hl1'. clear Hl1.
      rename Hl1' into Hl1.
      destruct (IH s1 Hw Hs1 Hl1 Hp1 Hc1) as [more Hmore].
      { pose proof Hs1 as (_ & _ & _ & Hfifo1).
        unfold in_flight in Hfifo1. rewrite Hc1 in Hfifo1.
        unfold unsent in Hl1. rewrite Hp1, Ht1 in Hl1. simpl in Hl1.
        apply (f_equal length) in Hfifo1, Hl1.
        rewrite !length_app, ?length_map in Hfifo1, Hl1.
        rewrite Hpop1 in Hfifo1. rewrite Ht1. rewrite Hnil in Hn, Hcount.
        apply (f_equal length) in Hfifo. rewrite length_app, Hnil in Hfifo.
        simpl in Hn, Hcount, Hfifo, Hl1, Hledger. simpl.
        rewrite ?length_map, ?length_fmap in Hl1. lia. }
      exists (repeat producer_thread 4 ++ more).
      rewrite run_test_app, <- Hs1eq. exact Hmore.
    + (* the buffer is not empty: the consumer takes an item *)
      assert (Hlive : (0 < length (contents Capacity (shared s)))%nat).
      { destruct (contents Capacity (shared s)) eqn:Hcont; [|simpl; lia].
        apply (contents_nil_iff Capacity Hcap _ Hwf) in Hcont. contradiction. }
      destruct s as [rb p c todo h w]. simpl in *. subst p c.
      destruct (consumer_takes_one rb ProducerIdle todo h w Hwf He)
        as (Hc1 & Hp1 & Ht1 & Hacc1 & Hpop1); [lia|].
      destruct (run_test_invariant Capacity Hcap Hcopy Hmove Hnothrow wanted
                  (repeat consumer_thread 5) _ Hs) as [Hs1 Hl1].
      remember (run_test Capacity wanted (repeat consumer_thread 5)
                  (mkSystem rb ProducerIdle ConsumerIdle todo h w))
        as s1 eqn:Hs1eq.
      pose proof (eq_trans Hl1 Hledger0) as Hl1'. clear Hl1.
      rename Hl1' into Hl1.
      destruct (IH s1 Hw Hs1 Hl1 Hp1 Hc1) as [more Hmore].
      { pose proof Hs1 as (_ & _ & _ & Hfifo1).
        unfold in_flight in Hfifo1. rewrite Hc1 in Hfifo1.
        apply (f_equal length) in Hfifo1, Hfifo.
        rewrite !length_app in Hfifo1, Hfifo.
        rewrite Hacc1, Hpop1 in Hfifo1. rewrite Ht1. lia. }
      exists (repeat consumer_thread 5 ++ more).
      rewrite run_test_app, <- Hs1eq. exact Hmore.
Qed.

End TestProgress.

(** X20.  The threads of the "SPSC Correctness" test cannot get stuck:
    whatever steps the two threads have taken so far, there is a way to
    go on after which the consumer has received every item to send, in
    order.  No reachable state is a deadlock, whatever the capacity (two
    slots hold one item at a time) and however many sends have been
    refused and retried.  [T] is any type whose operations do not
    raise. *)
Theorem spsc_test_never_stuck (Capacity : Z) (T : Type) `{Element T}
    (w : world) (slots : list T) (pushes : list (bool * T))
    (schedule : list thread) :
  valid_capacity Capacity ->
  is_nothrow_copy_assignable T ->
  is_nothrow_move_assignable T ->
  is_nothrow_move_constructible T ->
  length slots = Z.to_nat Capacity ->
  let items := map snd pushes in
  exists more,
    let s := run_test Capacity (length items) (schedule ++ more)
               (system_new w slots pushes) in
    popped (seen s) = items.
Proof.
  intros Hcap Hcopy Hmove Hnothrow Hlen items.
  set (wanted := length items).
  set (s0 := system_new w slots pushes).
  pose proof (system_invariant_new Capacity Hcap w slots pushes Hlen) as Hs0.
  fold s0 in Hs0.
  set (s := run_test Capacity wanted schedule s0).
  destruct (consumer_ends_call Capacity wanted 4 s) as [k1 [Hc1 Hp1]].
  { destruct (consumer s); simpl; lia. }
  set (s1 := run_test Capacity wanted (repeat consumer_thread k1) s) in *.
  destruct (producer_ends_call Capacity wanted 3 s1) as [k2 [Hp2 Hc2]].
  { destruct (producer s1); simpl; lia. }
  set (s2 := run_test Capacity wanted (repeat producer_thread k2) s1) in *.
  assert (Hrun : s2 = run_test Capacity wanted
                        (schedule ++ repeat consumer_thread k1
                         ++ repeat producer_thread k2) s0).
  { unfold s2, s1, s. now rewrite !run_test_app. }
  destruct (run_test_invariant Capacity Hcap Hcopy Hmove Hnothrow wanted
              (schedule ++ repeat consumer_thread k1
               ++ repeat producer_thread k2) s0 Hs0) as [Hs2 Hl2].
  rewrite <- Hrun in Hs2, Hl2.
  destruct (finish_between_calls Capacity Hcap Hcopy Hmove Hnothrow wanted
              items _ s2 eq_refl Hs2 Hl2 Hp2 (eq_trans Hc2 Hc1) (le_n _))
    as [more Hmore].
  exists (repeat consumer_thread k1 ++ repeat producer_thread k2 ++ more).
  simpl. rewrite !app_assoc, run_test_app, <- !app_assoc.
  fold wanted. fold s0. rewrite <- Hrun. exact Hmore.
Qed.

Lemma spsc_test_never_stuck_witness :
  let P := producer_thread in
  let C := consumer_thread in
  let pushes := [(false, 0); (false, 1); (false, 2)] in
  let items := map snd pushes in
  exists more,
    let s := run_test (H:=int_Element) 2 (length items)
               ([P; C; P; C; P; P; P; P; C; C; P] ++ more)
               (system_new tt [0; 0] pushes) in
    popped (seen s) = items.
Proof.
  apply (spsc_test_never_stuck 2 Z (H:=int_Element) tt [0; 0]
           [(false, 0); (false, 1); (false, 2)]).
  - literal_capacity.
  - intros w dst src. exists src, w. reflexivity.
  - intros w dst src. exists (src, src), w. reflexivity.
  - intros w src. exists (src, src), w. reflexivity.
  - reflexivity.
Defined.

(** * The threads of the throughput test *)

Lemma int_nothrow_move_constructible :
  is_nothrow_move_constructible (H:=int_Element) Z.
Proof. intros w src. exists (src, src), w. reflexivity. Qed.

Lemma wrap_succ_pred n : wrap (wrap (n - 1) + 1) = wrap n.
Proof.
  unfold wrap. rewrite Zplus_mod_idemp_l. f_equal. lia.
Qed.

Section StressProofs.
Variable Capacity : Z.
Hypothesis Hcap : valid_capacity Capacity.

Local Abbreviation E := int_Element.

(** What a step of [try_push] does to what the callers have seen. *)
Lemma producer_step_seen (t : system Z unit) :
  let t' : system Z unit := producer_step (H:=E) Capacity t in
  popped (seen t') = popped (seen t) /\
  consumer t' = consumer t /\
  match producer t with
  | ProducerStored item _ =>
      producer t' = ProducerIdle /\
      accepted (seen t') = accepted (seen t) ++ [item]
  | _ => accepted (seen t') = accepted (seen t)
  end.
Proof.
  destruct t as [rb p c todo h w]. unfold producer_step. simpl.
  destruct p as [|mv item ct|mv item ct nt|item nt]; simpl.
  - destruct todo as [|[mv item] rest]; simpl; auto.
  - destruct (_ =? _); simpl; auto.
  - destruct (buffer_ rb !! Z.to_nat ct) as [slot|]; simpl; auto.
    destruct (assign_slot _ _ _ _) as [[slot'|slot'] w']; simpl; auto.
  - auto.
Qed.

(** What a step of [try_pop] does to what the callers have seen. *)
Lemma consumer_step_seen (t : system Z unit) :
  let t' : system Z unit := consumer_step (H:=E) Capacity t in
  accepted (seen t') = accepted (seen t) /\
  producer t' = producer t /\
  match consumer t with
  | ConsumerPublished item =>
      consumer t' = ConsumerIdle /\
      popped (seen t') = popped (seen t) ++ [item]
  | _ => popped (seen t') = popped (seen t)
  end.
Proof.
  destruct t as [rb p c todo h w]. unfold consumer_step. simpl.
  destruct c as [|ch|ch|v ch|v]; simpl; auto.
  - destruct (_ =? _); simpl; auto.
  - destruct (buffer_ rb !! Z.to_nat ch) as [slot|]; simpl; auto.
Qed.

Lemma stress_invariant_new (slots : list Z) :
  length slots = Z.to_nat Capacity ->
  stress_invariant Capacity (stress_new slots).
Proof.
  intros Hlen. unfold stress_invariant, stress_new. simpl.
  split; [now apply (system_invariant_new (H:=E) Capacity Hcap)|].
  repeat split; reflexivity.
Qed.

Lemma stress_main_step_invariant (s : stress) :
  stress_invariant Capacity s ->
  stress_invariant Capacity (stress_main_step s).
Proof.
  destruct s as [t r pa ca c tp tq pf]. intros Hs. exact Hs.
Qed.

Lemma stress_producer_step_invariant (loaded : bool) (s : stress) :
  stress_invariant Capacity s ->
  stress_invariant Capacity (stress_producer_step Capacity loaded s).
Proof.
  destruct s as [t r pa ca c tp tq pf].
  intros (Hs & Hp & Hq & Hpi & Hci).
  unfold stress_invariant, stress_producer_step, pushed_pending,
    popped_pending in *. simpl in *.
  destruct pa; simpl in *.
  - (* the load of [running] *)
    destruct loaded; simpl.
    + split; [exact Hs|]. split; [exact Hp|]. split; [exact Hq|].
      split; [intros Hne; now destruct Hne | exact Hci].
    + split; [exact Hs|]. split; [exact Hp|]. split; [exact Hq|].
      split; [intros _; apply Hpi; discriminate | exact Hci].
  - (* a step of [try_push] *)
    pose proof (producer_step_invariant (H:=E) Capacity Hcap t Hs) as Hs'.
    destruct (producer_step_seen t) as (Hpop & Hcons & Hacc).
    split; [exact Hs'|]. rewrite Hpop, Hcons.
    destruct (producer t) as [|mv item ct|mv item ct nt|item nt] eqn:Hprod.
    + rewrite Hacc.
      split; [exact Hp|]. split; [exact Hq|].
      split; [intros Hne; now destruct Hne | exact Hci].
    + rewrite Hacc.
      match goal with
      | |- context [match ?p with ProducerIdle => _ | _ => _ end] =>
          destruct p eqn:Hprod'
      end; simpl;
        (split; [exact Hp|]; split; [exact Hq|];
         split; [first [intros Hne; now destruct Hne | reflexivity]
                | exact Hci]).
    + rewrite Hacc.
      split; [exact Hp|]. split; [exact Hq|].
      split; [intros Hne; now destruct Hne | exact Hci].
    + destruct Hacc as [Hidle Hacc]. rewrite Hidle, Hacc. simpl.
      rewrite length_app. simpl.
      split; [rewrite Hp; f_equal; lia|]. split; [exact Hq|].
      split; [reflexivity | exact Hci].
  - (* the additions after a push *)
    split; [exact Hs|].
    split; [rewrite Hp, Z.sub_0_r; apply wrap_succ_pred|].
    split; [exact Hq|].
    split; [intros _; apply Hpi; discriminate | exact Hci].
  - split; [exact Hs|]. split; [exact Hp|]. split; [exact Hq|].
    split; [intros _; apply Hpi; discriminate | exact Hci].
  - split; [exact Hs|]. split; [exact Hp|]. split; [exact Hq|].
    split; [exact Hpi | exact Hci].
Qed.

(** The steps of [try_pop] that do not end the call with a value. *)
Ltac consumer_step_stays Hp Hq Hpi :=
  try match goal with
      | |- context [match ?p with ConsumerIdle => _ | _ => _ end] =>
          destruct p eqn:?; simpl
      end;
  (split; [exact Hp|]; split; [exact Hq|]; split; [exact Hpi|];
   first [ intros Hne; now destruct Hne
         | intros _ Hne; now destruct Hne
         | intros _ _; reflexivity ]).

Lemma stress_consumer_step_invariant (loaded : bool) (s : stress) :
  stress_invariant Capacity s ->
  stress_invariant Capacity (stress_consumer_step Capacity loaded s).
Proof.
  destruct s as [t r pa ca c tp tq pf].
  intros (Hs & Hp & Hq & Hpi & Hci).
  pose proof (consumer_step_invariant (H:=E) Capacity Hcap
                int_nothrow_move_constructible t Hs) as Hs'.
  destruct (consumer_step_seen t) as (Hacc & Hprod & Hpop).
  unfold stress_invariant, stress_consumer_step, pushed_pending,
    popped_pending in *. simpl in *.
  destruct ca; simpl in *.
  - (* the load of [running] *)
    split; [exact Hs|]. split; [destruct loaded; exact Hp|].
    split; [destruct loaded; exact Hq|]. split; [exact Hpi|].
    destruct loaded; [intros Hne; now destruct Hne
                     | intros _ Hne; now destruct Hne].
  - (* a step of [try_pop], first loop *)
    split; [exact Hs'|]. rewrite Hacc, Hprod.
    destruct (consumer t) as [|ch|ch|v ch|v] eqn:Hcons.
    + rewrite Hpop. consumer_step_stays Hp Hq Hpi.
    + rewrite Hpop. consumer_step_stays Hp Hq Hpi.
    + rewrite Hpop. consumer_step_stays Hp Hq Hpi.
    + rewrite Hpop. consumer_step_stays Hp Hq Hpi.
    + destruct Hpop as [Hidle Hpop]. rewrite Hidle, Hpop. simpl.
      rewrite length_app. simpl.
      split; [exact Hp|]. split; [rewrite Hq; f_equal; lia|].
      split; [exact Hpi | intros _ _; reflexivity].
  - (* the addition after a pop *)
    split; [exact Hs|]. split; [exact Hp|].
    split; [rewrite Hq, Z.sub_0_r; apply wrap_succ_pred|].
    split; [exact Hpi | intros _ _; apply Hci; discriminate].
  - (* a step of [try_pop], drain loop *)
    split; [exact Hs'|]. rewrite Hacc, Hprod.
    destruct (consumer t) as [|ch|ch|v ch|v] eqn:Hcons.
    + rewrite Hpop. consumer_step_stays Hp Hq Hpi.
    + rewrite Hpop. consumer_step_stays Hp Hq Hpi.
    + rewrite Hpop. consumer_step_stays Hp Hq Hpi.
    + rewrite Hpop. consumer_step_stays Hp Hq Hpi.
    + destruct Hpop as [Hidle Hpop]. rewrite Hidle, Hpop. simpl.
      rewrite length_app. simpl.
      split; [exact Hp|]. split; [rewrite Hq; f_equal; lia|].
      split; [exact Hpi | intros _ _; reflexivity].
  - (* the addition after a pop of the drain loop *)
    split; [exact Hs|]. split; [exact Hp|].
    split; [rewrite Hq, Z.sub_0_r; apply wrap_succ_pred|].
    split; [exact Hpi | intros _ Hne; now destruct Hne].
  - split; [exact Hs|]. split; [exact Hp|]. split; [exact Hq|].
    split; [exact Hpi | exact Hci].
Qed.

Lemma run_stress_invariant schedule : forall s,
  stress_invariant Capacity s ->
  stress_invariant Capacity (run_stress Capacity schedule s).
Proof.
  induction schedule as [|t schedule IH]; intros s Hs; [exact Hs|].
  simpl. apply IH. destruct t as [|[|]|[|]]; simpl.
  - now apply stress_main_step_invariant.
  - now apply stress_producer_step_invariant.
  - now apply stress_consumer_step_invariant.
  - now apply stress_producer_step_invariant.
  - now apply stress_consumer_step_invariant.
Qed.

(** Once both workers have ended, the counters differ by the number of
    values in the buffer. *)
Lemma counters_at_join (s : stress) :
  stress_invariant Capacity s ->
  producer_at s = StressProducerDone ->
  consumer_at s = StressConsumerDone ->
  total_pushed s = wrap (total_popped s + size Capacity (shared (threads s))).
Proof.
  intros ((Hwf & _ & _ & Hf) & Hp & Hq & _ & Hci) Hpa Hca.
  unfold pushed_pending in Hp. unfold popped_pending in Hq.
  rewrite Hpa in Hp. rewrite Hca in Hq, Hci.
  rewrite Z.sub_0_r in Hp, Hq.
  assert (Hidle : consumer (threads s) = ConsumerIdle)
    by (apply Hci; discriminate).
  unfold in_flight in Hf.
  change (@world Z int_Element) with unit in Hf.
  rewrite Hidle in Hf.
  apply (f_equal length) in Hf. rewrite length_app in Hf.
  apply (f_equal Z.of_nat) in Hf. rewrite Nat2Z.inj_add in Hf.
  pose proof (contents_length Capacity Hcap _ Hwf) as Hsize.
  change (@world Z int_Element) with unit in Hsize.
  rewrite Hp, Hq, Hf, Hsize. unfold wrap.
  now rewrite Zplus_mod_idemp_l.
Qed.

(** The late push, step by step. *)
Lemma late_push_loses_one (slots : list Z) :
  length slots = Z.to_nat Capacity ->
  let s := run_stress Capacity late_push_schedule (stress_new slots) in
  producer_at s = StressProducerDone /\
  consumer_at s = StressConsumerDone /\
  total_pushed s = 1 /\ total_popped s = 0 /\
  size Capacity (shared (threads s)) = 1.
Proof.
  intros Hlen. pose proof (capacity_gt_1 _ Hcap) as Hgt.
  destruct slots as [|slot slots]; [simpl in Hlen; lia|].
  assert (Hnext : Z.land (wrap (0 + 1)) (kIndexMask Capacity) = 1).
  { rewrite (next_index _ Hcap), Z.mod_small by lia. reflexivity. }
  set (P := stress_worker producer_thread).
  set (C := stress_worker consumer_thread).
  set (loaded :=
    mkStress
      (mkSystem (mkRingBuffer 0 0 (slot :: slots))
         (ProducerLoadedTail false 0 0) ConsumerIdle [] (mkHistory [] []) tt)
      false StressProducerCall StressConsumerDone 0 0 0 0).
  set (checked :=
    mkStress
      (mkSystem (mkRingBuffer 0 0 (slot :: slots))
         (ProducerChecked false 0 0 1)
         ConsumerIdle [] (mkHistory [] []) tt)
      false StressProducerCall StressConsumerDone 0 0 0 0).
  assert (H1 : run_stress Capacity [P; stress_main; C; C; C; P]
                 (stress_new (slot :: slots)) = loaded) by reflexivity.
  assert (H2 : stress_producer_step Capacity false loaded = checked).
  { unfold loaded, checked, stress_producer_step, producer_step. simpl.
    now rewrite Hnext. }
  change late_push_schedule
    with ([P; stress_main; C; C; C; P] ++ [P] ++ [P; P; P; P]).
  unfold run_stress in *. rewrite !fold_left_app, H1.
  change (fold_left (stress_step Capacity) [P] loaded)
    with (stress_producer_step Capacity false loaded).
  rewrite H2.
  split; [reflexivity|]. split; [reflexivity|].
  split; [reflexivity|]. split; [reflexivity|].
  unfold size. simpl. rewrite Z.sub_0_r.
  change 1 with (wrap (0 + 1)) at 1. exact Hnext.
Qed.

End StressProofs.

(** Two late pushes: the producer's relaxed loads of [running] return
    [true] twice after the main thread has cleared the flag and the
    consumer has ended.  Both values stay in the buffer. *)
Example stale_loads_leave_two :
  let s := run_stress 4 stale_push_schedule (stress_new [0; 0; 0; 0]) in
  producer_at s = StressProducerDone /\
  consumer_at s = StressConsumerDone /\
  total_pushed s = 2 /\ total_popped s = 0 /\
  size 4 (shared (threads s)) = 2.
Proof. vm_compute. repeat split. Qed.

(** X21.  The throughput test and the throughput benchmark compare
    [total_pushed] with [total_popped] once both threads have ended.
    Under every schedule of the producer, the consumer and the main
    thread, whichever of the workers' relaxed loads of [running] return
    the flag's latest value and whichever still return [true], the two
    counters then differ by the number of values left in the buffer:
    [total_pushed] is [total_popped + size()], modulo [2^64].  Values
    can be left: when the producer reads [running] just before the main
    thread clears it and makes its push after the consumer's drain loop
    has found the buffer empty, both threads end with one push counted,
    no pop counted and one value in the buffer.  So
    [REQUIRE(pushed == popped)] does not hold of every execution of the
    test, and the benchmark can report a "Data Loss" without any item
    being lost. *)
Theorem stress_test_may_leave_values (Capacity : Z) (slots : list Z) :
  valid_capacity Capacity ->
  length slots = Z.to_nat Capacity ->
  (forall schedule,
     let s := run_stress Capacity schedule (stress_new slots) in
     producer_at s = StressProducerDone ->
     consumer_at s = StressConsumerDone ->
     total_pushed s
     = wrap (total_popped s + size Capacity (shared (threads s)))) /\
  (let s := run_stress Capacity late_push_schedule (stress_new slots) in
   producer_at s = StressProducerDone /\
   consumer_at s = StressConsumerDone /\
   total_pushed s = 1 /\ total_popped s = 0 /\
   size Capacity (shared (threads s)) = 1).
Proof.
  intros Hcap Hlen. split; [|now apply late_push_loses_one].
  intros schedule s Hpa Hca.
  apply (counters_at_join Capacity Hcap); [|exact Hpa|exact Hca].
  apply (run_stress_invariant Capacity Hcap).
  now apply stress_invariant_new.
Qed.

Lemma stress_test_may_leave_values_witness :
  (forall schedule,
     let s := run_stress 4 schedule (stress_new [0; 0; 0; 0]) in
     producer_at s = StressProducerDone ->
     consumer_at s = StressConsumerDone ->
     total_pushed s = wrap (total_popped s + size 4 (shared (threads s)))) /\
  (let s := run_stress 4 late_push_schedule (stress_new [0; 0; 0; 0]) in
   producer_at s = StressProducerDone /\
   consumer_at s = StressConsumerDone /\
   total_pushed s = 1 /\ total_popped s = 0 /\
   size 4 (shared (threads s)) = 1).
Proof.
  apply (stress_test_may_leave_values 4 [0; 0; 0; 0]).
  - literal_capacity.
  - reflexivity.
Defined.
